(** * ByteCraft patch engine: the context matcher, the chunk builder, the
    directive parser, the commit builder and the filesystem applier.

    A shallow embedding of the patch tool (the second TypeScript source file
    of the repository), followed by the properties proved about it. *)

From Stdlib Require Import String Ascii DecimalString.
From Stdlib Require Import List ZArith NArith Lia Bool.
Import ListNotations.
Open Scope Z_scope.

(** ** JavaScript strings

    A JavaScript string is a sequence of UTF-16 code units; the punctuation
    table of the matcher has keys outside ASCII, so a code unit is a number
    and not a byte. *)

Definition jschar := N.
Definition jsstring := list jschar.

(** An ASCII literal as a JavaScript string. *)
Definition str (s : string) : jsstring :=
  map N_of_ascii (list_ascii_of_string s).

Definition LF : jschar := 10%N.

(** [a === b] on strings. *)
Fixpoint jseqb (a b : jsstring) : bool :=
  match a, b with
  | [], [] => true
  | c :: a', d :: b' => N.eqb c d && jseqb a' b'
  | _, _ => false
  end.

(** [s.startsWith(p)]. *)
Fixpoint startsWith (s p : jsstring) {struct p} : bool :=
  match p, s with
  | [], _ => true
  | c :: p', d :: s' => N.eqb c d && startsWith s' p'
  | _ :: _, [] => false
  end.

(** The code units [String.prototype.trim] removes: ECMAScript's WhiteSpace
    (TAB, VT, FF, ZWNBSP and the space separators) and LineTerminator
    (LF, CR, LS, PS). *)
Definition is_white_space (c : jschar) : bool :=
  (existsb (N.eqb c)
     [9; 10; 11; 12; 13; 32; 160; 5760; 8232; 8233; 8239; 8287; 12288; 65279]
   || ((8192 <=? c) && (c <=? 8202)))%N.

Fixpoint trimStart (s : jsstring) : jsstring :=
  match s with
  | [] => []
  | c :: s' => if is_white_space c then trimStart s' else s
  end.

Definition trimEnd (s : jsstring) : jsstring := rev (trimStart (rev s)).

Definition trim (s : jsstring) : jsstring := trimEnd (trimStart s).

(** [s.split("\n")]: never empty, one more piece than there are line feeds. *)
Fixpoint split_nl (s : jsstring) : list jsstring :=
  match s with
  | [] => [[]]
  | c :: s' =>
      if N.eqb c LF then [] :: split_nl s'
      else match split_nl s' with
           | l :: ls => (c :: l) :: ls
           | [] => [[c]]
           end
  end.

(** [ls.join("\n")]. *)
Fixpoint join_nl (ls : list jsstring) : jsstring :=
  match ls with
  | [] => []
  | l :: ls' =>
      match ls' with
      | [] => l
      | _ :: _ => l ++ LF :: join_nl ls'
      end
  end.

(** ** Arrays

    [a.length] as a JavaScript number, and [a.slice(b, e)] with its
    treatment of negative and out-of-range bounds. *)

Definition len {A} (l : list A) : Z := Z.of_nat (length l).

Definition slice {A} (l : list A) (b e : Z) : list A :=
  let k := if b <? 0 then Z.max (len l + b) 0 else Z.min b (len l) in
  let f := if e <? 0 then Z.max (len l + e) 0 else Z.min e (len l) in
  firstn (Z.to_nat (f - k)) (skipn (Z.to_nat k) l).

(** [a.slice(b)]. *)
Definition slice_from {A} (l : list A) (b : Z) : list A := slice l b (len l).

(** [for (let i = start; i < stop; i++) if (hit(i)) return i;]: the first
    index of the range at which the body returns, if any. *)
Fixpoint for_first (hit : Z -> bool) (n : nat) (i : Z) : option Z :=
  match n with
  | O => None
  | S n' => if hit i then Some i else for_first hit n' (i + 1)
  end.

Definition first_index (start stop : Z) (hit : Z -> bool) : option Z :=
  for_first hit (Z.to_nat (stop - start)) start.

(** ** Constants of the patch language *)

Definition ADD_FILE_PREFIX : jsstring := str "*** Add File: ".
Definition DELETE_FILE_PREFIX : jsstring := str "*** Delete File: ".
Definition UPDATE_FILE_PREFIX : jsstring := str "*** Update File: ".
Definition MOVE_FILE_TO_PREFIX : jsstring := str "*** Move File to: ".
Definition PATCH_PREFIX : jsstring := str "*** Begin Patch" ++ [LF].
Definition PATCH_SUFFIX : jsstring := str "*** End Patch".
Definition END_OF_FILE_PREFIX : jsstring := str "*** EOF".
Definition HUNK_ADD_LINE_PREFIX : jsstring := str "+".

(** ** Data model *)

Inductive ActionType : Type := ADD | DELETE | UPDATE.

Record Chunk : Type := mkChunk {
  orig_index : Z;
  del_lines : list jsstring;
  ins_lines : list jsstring
}.

Record PatchAction : Type := mkPatchAction {
  type : ActionType;
  new_file : option jsstring;
  chunks : list Chunk;
  move_path : option jsstring
}.

Record FileChange : Type := mkFileChange {
  change_type : ActionType;
  old_content : option jsstring;
  new_content : option jsstring;
  change_move_path : option jsstring
}.

(** A [Record<string, A>]: a plain object used as a map. Own properties are
    kept in insertion order, which is the order [Object.entries] follows for
    keys that are not array indices. *)
Definition JsRecord (A : Type) : Type := list (jsstring * A).

Record Patch : Type := mkPatch { actions : JsRecord PatchAction }.
Record Commit : Type := mkCommit { changes : JsRecord FileChange }.

Fixpoint own_get {A} (r : JsRecord A) (k : jsstring) : option A :=
  match r with
  | [] => None
  | (k', v) :: r' => if jseqb k' k then Some v else own_get r' k
  end.

(** [r[k] = v] for a key that is not [__proto__]: an existing own property
    keeps its place. *)
Fixpoint own_set {A} (r : JsRecord A) (k : jsstring) (v : A) : JsRecord A :=
  match r with
  | [] => [(k, v)]
  | (k', v') :: r' =>
      if jseqb k' k then (k', v) :: r' else (k', v') :: own_set r' k v
  end.

(** The property names every plain object inherits from [Object.prototype];
    each holds a function or an object, so each is truthy. *)
Definition Object_prototype_keys : list jsstring :=
  map str
    [ "constructor"; "__defineGetter__"; "__defineSetter__"; "hasOwnProperty";
      "__lookupGetter__"; "__lookupSetter__"; "isPrototypeOf";
      "propertyIsEnumerable"; "toString"; "valueOf"; "__proto__";
      "toLocaleString" ]%string.

Definition inherited (k : jsstring) : bool :=
  existsb (jseqb k) Object_prototype_keys.

(** [k in r]; also the truth value of [r[k]] when the own values of [r] are
    objects. *)
Definition has_property {A} (r : JsRecord A) (k : jsstring) : bool :=
  match own_get r k with
  | Some _ => true
  | None => inherited k
  end.

(** [Object.entries(r)]: array-index keys first, in ascending numeric order,
    then the other keys in insertion order. *)
Fixpoint digits_value (s : jsstring) (acc : N) : option N :=
  match s with
  | [] => Some acc
  | c :: s' =>
      if ((48 <=? c) && (c <=? 57))%N
      then digits_value s' (10 * acc + (c - 48))%N
      else None
  end.

Definition array_index (k : jsstring) : option N :=
  match k with
  | [] => None
  | c :: rest =>
      if N.eqb c 48 && negb (Nat.eqb (length rest) 0) then None
      else
        match digits_value k 0 with
        | Some n => if (n <=? 4294967294)%N then Some n else None
        | None => None
        end
  end.

Fixpoint insert_indexed {A} (n : N) (e : jsstring * A)
  (l : list (N * (jsstring * A))) : list (N * (jsstring * A)) :=
  match l with
  | [] => [(n, e)]
  | (m, e') :: l' =>
      if (n <=? m)%N then (n, e) :: l else (m, e') :: insert_indexed n e l'
  end.

Fixpoint indexed_entries {A} (r : JsRecord A) : list (N * (jsstring * A)) :=
  match r with
  | [] => []
  | (k, v) :: r' =>
      match array_index k with
      | Some n => insert_indexed n (k, v) (indexed_entries r')
      | None => indexed_entries r'
      end
  end.

Definition Object_entries {A} (r : JsRecord A) : list (jsstring * A) :=
  map snd (indexed_entries r)
  ++ filter (fun e => match array_index (fst e) with
                      | Some _ => false
                      | None => true
                      end) r.

(** ** Exceptions

    [DiffError] is the patch error; [JsError] is a plain [Error]; a
    [TypeError] is what the runtime throws on a property access on
    [undefined]. A loop whose termination is not evident from its shape runs
    on fuel. *)

Inductive exn : Type :=
| DiffError (message : jsstring)
| JsError (message : jsstring)
| TypeError.

Inductive outcome (A : Type) : Type :=
| Ok (a : A)
| Throw (e : exn)
| OutOfFuel.

Arguments Ok {A} a.
Arguments Throw {A} e.
Arguments OutOfFuel {A}.

Definition bind {A B} (m : outcome A) (k : A -> outcome B) : outcome B :=
  match m with
  | Ok a => k a
  | Throw e => Throw e
  | OutOfFuel => OutOfFuel
  end.

Notation "x <- m ;; k" := (bind m (fun x => k))
  (at level 61, m at next level, right associativity).
Notation "' pat <- m ;; k" := (bind m (fun x => match x with pat => k end))
  (at level 61, pat pattern, m at next level, right associativity).

(** A number in a template literal. *)
Definition num (z : Z) : jsstring := str (NilZero.string_of_int (Z.to_int z)).

(** A possibly missing array element in a template literal. *)
Definition shown (o : option jsstring) : jsstring :=
  match o with
  | Some s => s
  | None => str "undefined"
  end.

(** A string as a condition: empty is falsy. *)
Definition truthy (s : jsstring) : bool := negb (Nat.eqb (length s) 0).

(** ** Canonicalizer *)

(** The table [PUNCT_EQUIV] of [find_context_core], key and representative. *)
Definition PUNCT_EQUIV : list (jschar * jschar) :=
  [ (0x2D, 0x2D); (0x2010, 0x2D); (0x2011, 0x2D); (0x2012, 0x2D);
    (0x2013, 0x2D); (0x2014, 0x2D); (0x2212, 0x2D);
    (0x22, 0x22); (0x201C, 0x22); (0x201D, 0x22); (0x201E, 0x22);
    (0xAB, 0x22); (0xBB, 0x22);
    (0x27, 0x27); (0x2018, 0x27); (0x2019, 0x27); (0x201B, 0x27);
    (0xA0, 0x20); (0x202F, 0x20) ]%N.

(** [PUNCT_EQUIV[c]], [None] for [undefined]. *)
Fixpoint table_get (t : list (jschar * jschar)) (c : jschar) : option jschar :=
  match t with
  | [] => None
  | (k, v) :: t' => if N.eqb k c then Some v else table_get t' c
  end.

(** The replacement callback [(c) => PUNCT_EQUIV[c] ?? c]. *)
Definition punct (c : jschar) : jschar :=
  match table_get PUNCT_EQUIV c with
  | Some r => r
  | None => c
  end.

(** ** Concrete inputs

    A string whose code points are all below U+0300 is in NFC already: none
    of them is a combining mark, and the precomposed letters among them are
    the composed forms. The examples below use such strings only, on which
    the runtime's normaliser is [nfc_latin]. *)
Definition nfc_latin (s : jsstring) : jsstring := s.

(** Two patch texts that [text_to_patch] reads as the empty patch: one with
    a space before the begin-patch marker, one with text after it. *)
Definition patch_after_space : jsstring :=
  str " *** Begin Patch
*** End Patch".

Definition patch_with_suffixed_marker : jsstring :=
  str "*** Begin Patch extra
*** End Patch".

(** A line in guillemets and the same line in straight double quotes. *)
Definition guillemet_line : jsstring := [0xAB; 97; 0xBB]%N.
Definition quoted_line : jsstring := [0x22; 97; 0x22]%N.

(** The file [one], [two], [three] and a patch that deletes [two]. *)
Definition three_lines : jsstring :=
  str "one
two
three".

Definition delete_two_patch : jsstring :=
  str "*** Begin Patch
*** Update File: a.txt
 one
-two
 three
*** End Patch".

(** A file of two lines. *)
Definition two_lines : jsstring :=
  str "x
y".

(** A patch that deletes [y] from the two lines, and the same patch with a
    move-to header in the spelling of the grammar and in that of the
    code. *)
Definition delete_y_patch : jsstring :=
  str "*** Begin Patch
*** Update File: f
 x
-y
*** End Patch".

Definition move_to_patch : jsstring :=
  str "*** Begin Patch
*** Update File: f
*** Move to: g
 x
-y
*** End Patch".

Definition move_file_to_patch : jsstring :=
  str "*** Begin Patch
*** Update File: f
*** Move File to: g
 x
-y
*** End Patch".

(** A patch on the two lines whose second hunk is anchored at the end of the
    file and inserts a line before the first one. *)
Definition eof_anchored_patch : jsstring :=
  str "*** Begin Patch
*** Update File: f
 x
-y
@@
+w
 x
 y
*** EOF
*** End Patch".

(** A patch on the two lines whose first hunk is anchored at the end of the
    file and deletes the last line, and whose second hunk adds a line after
    it. *)
Definition eof_first_patch : jsstring :=
  str "*** Begin Patch
*** Update File: f
 x
-y
*** EOF
@@
+w
*** End Patch".

(** A patch whose Update action starts at a line that is no section line
    though it starts with the section marker. *)
Definition stuck_patch : jsstring :=
  str "*** Begin Patch
*** Update File: f
@@x
*** End Patch".

(** The three lines with a space after [two], and a patch on a file that has
    none of its context. *)
Definition three_lines_spaced : jsstring :=
  str "one
two 
three".

Definition bad_context_patch : jsstring :=
  str "*** Begin Patch
*** Update File: a.txt
 nope
*** End Patch".

(** Patches of one directive: a file added under a name that every object
    inherits, a file of two lines added, a file deleted. *)
Definition add_constructor_patch : jsstring :=
  str "*** Begin Patch
*** Add File: constructor
+x
*** End Patch".

Definition add_file_patch : jsstring :=
  str "*** Begin Patch
*** Add File: new.txt
+hello
+world
*** End Patch".

Definition delete_file_patch : jsstring :=
  str "*** Begin Patch
*** Delete File: old.txt
*** End Patch".

Section Engine.

(** [String.prototype.normalize("NFC")] is a builtin of the JavaScript
    runtime and carries the Unicode composition data; the engine is
    parameterised by it. *)
Variable normalize_NFC : jsstring -> jsstring.

(** [canon]: normalise, then replace every code point by its representative.
    The regular expression [/./gu] visits whole code points and skips line
    terminators; every key of the table is a single code unit that is neither
    a surrogate nor a line terminator, so the replacement maps code units. *)
Definition canon (s : jsstring) : jsstring := map punct (normalize_NFC s).

(** ** Context matcher *)

(** The three comparisons of [find_context_core] at window [i]. *)
Definition hit_exact (lines context : list jsstring) (i : Z) : bool :=
  jseqb (canon (join_nl (slice lines i (i + len context))))
        (canon (join_nl context)).

Definition hit_trimEnd (lines context : list jsstring) (i : Z) : bool :=
  jseqb (canon (join_nl (map trimEnd (slice lines i (i + len context)))))
        (canon (join_nl (map trimEnd context))).

Definition hit_trim (lines context : list jsstring) (i : Z) : bool :=
  jseqb (canon (join_nl (map trim (slice lines i (i + len context)))))
        (canon (join_nl (map trim context))).

Definition find_context_core (lines context : list jsstring) (start : Z)
  : Z * Z :=
  if len context =? 0 then (start, 0)
  else
    match first_index start (len lines) (hit_exact lines context) with
    | Some i => (i, 0)
    | None =>
        match first_index start (len lines) (hit_trimEnd lines context) with
        | Some i => (i, 1)
        | None =>
            match first_index start (len lines) (hit_trim lines context) with
            | Some i => (i, 100)
            | None => (-1, 0)
            end
        end
    end.

Definition find_context (lines context : list jsstring) (start : Z)
  (eof : bool) : Z * Z :=
  if eof then
    let '(newIndex, fuzz) :=
      find_context_core lines context (len lines - len context) in
    if negb (newIndex =? -1) then (newIndex, fuzz)
    else
      let '(newIndex, fuzz) := find_context_core lines context start in
      (newIndex, fuzz + 10000)
  else find_context_core lines context start.

(** ** Chunk builder *)

Inductive Mode : Type := keep | add | delete.

Definition Mode_eqb (a b : Mode) : bool :=
  match a, b with
  | keep, keep | add, add | delete, delete => true
  | _, _ => false
  end.

(** The markers at which [peek_next_section] stops. *)
Definition section_boundaries : list jsstring :=
  [ str "@@"; PATCH_SUFFIX; UPDATE_FILE_PREFIX; DELETE_FILE_PREFIX;
    ADD_FILE_PREFIX; END_OF_FILE_PREFIX ].

(** [prefixes.some((p) => s.startsWith(p.trim()))]. *)
Definition starts_with_any (s : jsstring) (prefixes : list jsstring) : bool :=
  existsb (fun p => startsWith s (trim p)) prefixes.

(** The pending insertions and deletions closed into one chunk. *)
Definition flush (old delLines insLines : list jsstring)
  (chunks : list Chunk) : list Chunk :=
  if negb (Nat.eqb (length insLines) 0) || negb (Nat.eqb (length delLines) 0)
  then chunks ++ [mkChunk (len old - len delLines) delLines insLines]
  else chunks.

(** The mode a line sets by its first character, and the line without that
    character; a line with no marker is read as a context line, a space put
    in front of it. *)
Definition classify (s : jsstring) : Mode * jsstring :=
  let '(mode, line) :=
    match s with
    | c :: _ =>
        if N.eqb c 43 then (add, s)
        else if N.eqb c 45 then (delete, s)
        else if N.eqb c 32 then (keep, s)
        else (keep, 32%N :: s)
    | [] => (keep, 32%N :: s)
    end in
  (mode, skipn 1 line).

(** What follows the loop of [peek_next_section]: the last flush and the
    end-of-file marker; [rest] is [lines] from [index] on. *)
Definition peek_finish (rest : list jsstring) (index : nat)
  (old delLines insLines : list jsstring) (chunks : list Chunk)
  : list jsstring * list Chunk * nat * bool :=
  let chunks := flush old delLines insLines chunks in
  match rest with
  | s :: _ =>
      if jseqb s END_OF_FILE_PREFIX then (old, chunks, S index, true)
      else (old, chunks, index, false)
  | [] => (old, chunks, index, false)
  end.

(** The loop of [peek_next_section]; it reads one line per turn, so it is
    a recursion on the lines from [index] on. *)
Fixpoint peek_loop (rest : list jsstring) (index : nat)
  (old delLines insLines : list jsstring) (chunks : list Chunk) (mode : Mode)
  : outcome (list jsstring * list Chunk * nat * bool) :=
  match rest with
  | [] => Ok (peek_finish rest index old delLines insLines chunks)
  | s :: rest' =>
      if starts_with_any s section_boundaries
      then Ok (peek_finish rest index old delLines insLines chunks)
      else if jseqb s (str "***")
      then Ok (peek_finish rest index old delLines insLines chunks)
      else if startsWith s (str "***")
      then Throw (DiffError (str "Invalid Line: " ++ s))
      else
        let lastMode := mode in
        let '(mode, line) := classify s in
        let '(chunks, delLines, insLines) :=
          if Mode_eqb mode keep && negb (Mode_eqb lastMode mode)
          then (flush old delLines insLines chunks, [], [])
          else (chunks, delLines, insLines) in
        match mode with
        | delete =>
            peek_loop rest' (S index) (old ++ [line]) (delLines ++ [line])
              insLines chunks mode
        | add =>
            peek_loop rest' (S index) old delLines (insLines ++ [line])
              chunks mode
        | keep =>
            peek_loop rest' (S index) (old ++ [line]) delLines insLines
              chunks mode
        end
  end.

Definition peek_next_section (lines : list jsstring) (initialIndex : nat)
  : outcome (list jsstring * list Chunk * nat * bool) :=
  peek_loop (skipn initialIndex lines) initialIndex [] [] [] [] keep.

(** ** Directive parser *)

(** The mutable fields of a [Parser]; [lines] and [current_files] never
    change and are passed along. *)
Record Parser : Type := mkParser {
  index : nat;
  patch : Patch;
  fuzz : Z
}.

Definition is_done (lines : list jsstring) (index : nat)
  (prefixes : list jsstring) : bool :=
  match nth_error lines index with
  | None => true
  | Some l => starts_with_any l prefixes
  end.

(** The method [startswith] for one prefix; the line read must exist. *)
Definition startswith (lines : list jsstring) (index : nat)
  (prefix : jsstring) : outcome bool :=
  match nth_error lines index with
  | None => Throw TypeError
  | Some l => Ok (startsWith l prefix)
  end.

(** [read_str]: the text read and the cursor after it. *)
Definition read_str (lines : list jsstring) (index : nat)
  (prefix : jsstring) (returnEverything : bool) : outcome (jsstring * nat) :=
  match nth_error lines index with
  | None =>
      Throw (DiffError (str "Index: " ++ num (Z.of_nat index) ++ str " >= "
                        ++ num (len lines)))
  | Some l =>
      if startsWith l prefix
      then Ok (if returnEverything then l else skipn (length prefix) l,
               S index)
      else Ok ([], index)
  end.

(** The markers that end the hunks of an Update action. *)
Definition update_boundaries : list jsstring :=
  [ PATCH_SUFFIX; UPDATE_FILE_PREFIX; DELETE_FILE_PREFIX; ADD_FILE_PREFIX;
    END_OF_FILE_PREFIX ].

(** [ch.orig_index += newIndex]. *)
Definition shift_chunk (newIndex : Z) (ch : Chunk) : Chunk :=
  mkChunk (orig_index ch + newIndex) (del_lines ch) (ins_lines ch).

(** One turn of the loop of [parse_update_file], one hunk: [acc] is
    [action.chunks], [index] the running position in the file, [cursor] and
    [fz] the parser's [index] and [fuzz]. *)
Definition parse_hunk (lines fileLines : list jsstring)
  (acc : list Chunk) (index : Z) (cursor : nat) (fz : Z)
  : outcome (list Chunk * Z * nat * Z) :=
  '(defStr, cursor) <- read_str lines cursor (str "@@ ") false ;;
  let '(sectionStr, cursor) :=
    match nth_error lines cursor with
    | Some l =>
        if negb (truthy defStr) && jseqb l (str "@@")
        then (l, S cursor) else ([], cursor)
    | None => ([], cursor)
    end in
  if negb (truthy defStr || truthy sectionStr || (index =? 0))
  then Throw (DiffError (str "Invalid Line:" ++ [LF]
                         ++ shown (nth_error lines cursor)))
  else
    '(nextChunkContext, chunks, endPatchIndex, eof) <-
       peek_next_section lines cursor ;;
    let '(newIndex, fuzz) :=
      find_context fileLines nextChunkContext index eof in
    if newIndex =? -1
    then
      let ctxText := join_nl nextChunkContext in
      if eof
      then Throw (DiffError (str "Invalid EOF Context " ++ num index
                             ++ str ":" ++ [LF] ++ ctxText))
      else Throw (DiffError (str "Invalid Context " ++ num index
                             ++ str ":" ++ [LF] ++ ctxText))
    else
      Ok (acc ++ map (shift_chunk newIndex) chunks,
          newIndex + len nextChunkContext, endPatchIndex, fz + fuzz).

(** The loop of [parse_update_file]. *)
Fixpoint parse_update_loop (fuel : nat) (lines fileLines : list jsstring)
  (acc : list Chunk) (index : Z) (cursor : nat) (fz : Z)
  : outcome (list Chunk * nat * Z) :=
  match fuel with
  | O => OutOfFuel
  | S fuel' =>
      if is_done lines cursor update_boundaries then Ok (acc, cursor, fz)
      else
        '(acc, index, cursor, fz) <-
           parse_hunk lines fileLines acc index cursor fz ;;
        parse_update_loop fuel' lines fileLines acc index cursor fz
  end.

Definition parse_update_file (fuel : nat) (lines : list jsstring)
  (text : jsstring) (cursor : nat) (fz : Z)
  : outcome (PatchAction * nat * Z) :=
  '(chunks, cursor, fz) <-
     parse_update_loop fuel lines (split_nl text) [] 0 cursor fz ;;
  Ok (mkPatchAction UPDATE None chunks None, cursor, fz).

(** The markers that end the body of an Add action. *)
Definition add_boundaries : list jsstring :=
  [ PATCH_SUFFIX; UPDATE_FILE_PREFIX; DELETE_FILE_PREFIX; ADD_FILE_PREFIX ].

(** The loop of [parse_add_file]: [read_str()] with the empty prefix reads
    the whole line and always advances, so it is a recursion on the lines
    from [index] on. *)
Fixpoint parse_add_loop (rest : list jsstring) (index : nat)
  (acc : list jsstring) : outcome (list jsstring * nat) :=
  match rest with
  | [] => Ok (acc, index)
  | s :: rest' =>
      if starts_with_any s add_boundaries then Ok (acc, index)
      else if negb (startsWith s HUNK_ADD_LINE_PREFIX)
      then Throw (DiffError (str "Invalid Add File Line: " ++ s))
      else parse_add_loop rest' (S index) (acc ++ [skipn 1 s])
  end.

Definition parse_add_file (lines : list jsstring) (cursor : nat)
  : outcome (PatchAction * nat) :=
  '(added, cursor) <- parse_add_loop (skipn cursor lines) cursor [] ;;
  Ok (mkPatchAction ADD (Some (join_nl added)) [] None, cursor).

(** [this.patch.actions[path] = action]. *)
Definition set_action (p : Parser) (path : jsstring) (action : PatchAction)
  (cursor : nat) (fz : Z) : Parser :=
  mkParser cursor (mkPatch (own_set (actions (patch p)) path action)) fz.

(** [moveTo || undefined]. *)
Definition or_undefined (s : jsstring) : option jsstring :=
  if truthy s then Some s else None.

(** One turn of the [while] loop of [Parser.parse], one directive. *)
Definition parse_directive (fuel : nat) (current_files : JsRecord jsstring)
  (lines : list jsstring) (p : Parser) : outcome Parser :=
  '(path, cursor) <- read_str lines (index p) UPDATE_FILE_PREFIX false ;;
  if truthy path then
    if has_property (actions (patch p)) path
    then Throw (DiffError (str "Update File Error: Duplicate Path: " ++ path))
    else
      '(moveTo, cursor) <- read_str lines cursor MOVE_FILE_TO_PREFIX false ;;
      if negb (has_property current_files path)
      then Throw (DiffError (str "Update File Error: Missing File: " ++ path))
      else
        let text := match own_get current_files path with
                    | Some t => t
                    | None => []
                    end in
        '(action, cursor, fz) <-
           parse_update_file fuel lines text cursor (fuzz p) ;;
        let action :=
          mkPatchAction (type action) (new_file action) (chunks action)
            (or_undefined moveTo) in
        Ok (set_action p path action cursor fz)
  else
    '(path, cursor) <- read_str lines cursor DELETE_FILE_PREFIX false ;;
    if truthy path then
      if has_property (actions (patch p)) path
      then Throw (DiffError (str "Delete File Error: Duplicate Path: "
                             ++ path))
      else if negb (has_property current_files path)
      then Throw (DiffError (str "Delete File Error: Missing File: " ++ path))
      else
        Ok (set_action p path (mkPatchAction DELETE None [] None)
              cursor (fuzz p))
    else
      '(path, cursor) <- read_str lines cursor ADD_FILE_PREFIX false ;;
      if truthy path then
        if has_property (actions (patch p)) path
        then Throw (DiffError (str "Add File Error: Duplicate Path: " ++ path))
        else if has_property current_files path
        then Throw (DiffError (str "Add File Error: File already exists: "
                               ++ path))
        else
          '(action, cursor) <- parse_add_file lines cursor ;;
          Ok (set_action p path action cursor (fuzz p))
      else
        Throw (DiffError (str "Unknown Line: "
                          ++ shown (nth_error lines cursor))).

(** The [while] loop of [Parser.parse]; a turn that ends in [continue] goes
    on with the parser it leaves. *)
Fixpoint parse_loop (fuel : nat) (current_files : JsRecord jsstring)
  (lines : list jsstring) (p : Parser) : outcome Parser :=
  match fuel with
  | O => OutOfFuel
  | S fuel' =>
      if is_done lines (index p) [PATCH_SUFFIX] then Ok p
      else
        p <- parse_directive fuel' current_files lines p ;;
        parse_loop fuel' current_files lines p
  end.

Definition parse (fuel : nat) (current_files : JsRecord jsstring)
  (lines : list jsstring) (p : Parser) : outcome Parser :=
  p <- parse_loop fuel current_files lines p ;;
  ok <- startswith lines (index p) (trim PATCH_SUFFIX) ;;
  if negb ok then Throw (DiffError (str "Missing End Patch"))
  else Ok (mkParser (S (index p)) (patch p) (fuzz p)).

(** The three conditions of the envelope check of [text_to_patch]. *)
Definition too_short (lines : list jsstring) : bool :=
  (length lines <? 2)%nat.

Definition bad_prefix (lines : list jsstring) : bool :=
  negb (startsWith (nth 0 lines []) (trim PATCH_PREFIX)).

Definition bad_suffix (lines : list jsstring) : bool :=
  negb (jseqb (nth (length lines - 1) lines []) (trim PATCH_SUFFIX)).

Definition text_to_patch (fuel : nat) (text : jsstring)
  (orig : JsRecord jsstring) : outcome (Patch * Z) :=
  let lines := split_nl (trim text) in
  if too_short lines || bad_prefix lines || bad_suffix lines then
    let reason := str "Invalid patch text: " in
    let reason :=
      if too_short lines
      then reason ++ str "Patch text must have at least two lines."
      else if bad_prefix lines
      then reason ++ str "Patch text must start with the correct patch prefix."
      else if bad_suffix lines
      then reason ++ str "Patch text must end with the correct patch suffix."
      else reason in
    Throw (DiffError reason)
  else
    parser <- parse fuel orig lines (mkParser 1 (mkPatch []) 0) ;;
    Ok (patch parser, fuzz parser).

(** A [Set] of strings in insertion order. *)
Definition set_add (result : list jsstring) (x : jsstring) : list jsstring :=
  if existsb (jseqb x) result then result else result ++ [x].

Definition identify_files_needed (text : jsstring) : list jsstring :=
  fold_left
    (fun result line =>
       let result :=
         if startsWith line UPDATE_FILE_PREFIX
         then set_add result (skipn (length UPDATE_FILE_PREFIX) line)
         else result in
       if startsWith line DELETE_FILE_PREFIX
       then set_add result (skipn (length DELETE_FILE_PREFIX) line)
       else result)
    (split_nl (trim text)) [].

Definition identify_files_added (text : jsstring) : list jsstring :=
  fold_left
    (fun result line =>
       if startsWith line ADD_FILE_PREFIX
       then set_add result (skipn (length ADD_FILE_PREFIX) line)
       else result)
    (split_nl (trim text)) [].

(** ** Commit builder *)

(** The loop of [_get_updated_file] over [action.chunks]. *)
Fixpoint apply_chunks (path : jsstring) (origLines : list jsstring)
  (cs : list Chunk) (destLines : list jsstring) (origIndex : Z)
  : outcome (list jsstring * Z) :=
  match cs with
  | [] => Ok (destLines, origIndex)
  | chunk :: cs' =>
      if orig_index chunk >? len origLines
      then Throw (DiffError (path ++ str ": chunk.orig_index "
                             ++ num (orig_index chunk)
                             ++ str " > len(lines) " ++ num (len origLines)))
      else if origIndex >? orig_index chunk
      then Throw (DiffError (path ++ str ": orig_index " ++ num origIndex
                             ++ str " > chunk.orig_index "
                             ++ num (orig_index chunk)))
      else
        let destLines :=
          destLines ++ slice origLines origIndex (orig_index chunk) in
        let delta := orig_index chunk - origIndex in
        let origIndex := origIndex + delta in
        let destLines :=
          if negb (Nat.eqb (length (ins_lines chunk)) 0)
          then destLines ++ ins_lines chunk
          else destLines in
        let origIndex := origIndex + len (del_lines chunk) in
        apply_chunks path origLines cs' destLines origIndex
  end.

Definition _get_updated_file (text : jsstring) (action : PatchAction)
  (path : jsstring) : outcome jsstring :=
  match type action with
  | UPDATE =>
      let origLines := split_nl text in
      '(destLines, origIndex) <-
         apply_chunks path origLines (chunks action) [] 0 ;;
      Ok (join_nl (destLines ++ slice_from origLines origIndex))
  | _ => Throw (JsError (str "Expected UPDATE action"))
  end.

(** The loop of [patch_to_commit] over the entries of [patch.actions]; an
    Update whose path has no original text reads [undefined.split]. The keys
    of a parsed patch are never names of [Object.prototype], so [orig[pathKey]]
    is an own property or [undefined]. *)
Fixpoint commit_entries (entries : list (jsstring * PatchAction))
  (orig : JsRecord jsstring) (acc : JsRecord FileChange)
  : outcome (JsRecord FileChange) :=
  match entries with
  | [] => Ok acc
  | (pathKey, action) :: entries' =>
      match type action with
      | DELETE =>
          commit_entries entries' orig
            (own_set acc pathKey
               (mkFileChange DELETE (own_get orig pathKey) None None))
      | ADD =>
          commit_entries entries' orig
            (own_set acc pathKey
               (mkFileChange ADD None
                  (Some match new_file action with
                        | Some t => t
                        | None => []
                        end) None))
      | UPDATE =>
          match own_get orig pathKey with
          | None => Throw TypeError
          | Some text =>
              newContent <- _get_updated_file text action pathKey ;;
              commit_entries entries' orig
                (own_set acc pathKey
                   (mkFileChange UPDATE (Some text) (Some newContent)
                      (move_path action)))
          end
      end
  end.

Definition patch_to_commit (patch : Patch) (orig : JsRecord jsstring)
  : outcome Commit :=
  cs <- commit_entries (Object_entries (actions patch)) orig [] ;;
  Ok (mkCommit cs).

(** ** Filesystem applier

    The three accessors are injected; each acts on the state of the outside
    world and returns or throws. *)

Inductive completion (A : Type) : Type :=
| Returns (a : A)
| Throws (e : exn).

Arguments Returns {A} a.
Arguments Throws {A} e.

Section Filesystem.

Variable World : Type.
Variable openFn : jsstring -> World -> World * completion jsstring.
Variable writeFn : jsstring -> jsstring -> World -> World * completion unit.
Variable removeFn : jsstring -> World -> World * completion unit.

(** [orig[p] = content] with a string: assigning to [__proto__] adds no own
    property. *)
Definition assign_string (orig : JsRecord jsstring) (p content : jsstring)
  : JsRecord jsstring :=
  if jseqb p (str "__proto__") then orig else own_set orig p content.

Fixpoint load_files_from (paths : list jsstring) (orig : JsRecord jsstring)
  (w : World) : World * outcome (JsRecord jsstring) :=
  match paths with
  | [] => (w, Ok orig)
  | p :: paths' =>
      match openFn p w with
      | (w', Returns content) =>
          load_files_from paths' (assign_string orig p content) w'
      | (w', Throws _) => (w', Throw (DiffError (str "File not found: " ++ p)))
      end
  end.

Definition load_files (paths : list jsstring) (w : World)
  : World * outcome (JsRecord jsstring) :=
  load_files_from paths [] w.

Definition or_empty (o : option jsstring) : jsstring :=
  match o with
  | Some t => t
  | None => []
  end.

Fixpoint apply_entries (entries : list (jsstring * FileChange)) (w : World)
  : World * outcome unit :=
  match entries with
  | [] => (w, Ok tt)
  | (p, change) :: entries' =>
      match change_type change with
      | DELETE =>
          match removeFn p w with
          | (w', Returns _) => apply_entries entries' w'
          | (w', Throws e) => (w', Throw e)
          end
      | ADD =>
          match writeFn p (or_empty (new_content change)) w with
          | (w', Returns _) => apply_entries entries' w'
          | (w', Throws e) => (w', Throw e)
          end
      | UPDATE =>
          if truthy (or_empty (change_move_path change)) then
            match writeFn (or_empty (change_move_path change))
                    (or_empty (new_content change)) w with
            | (w', Returns _) =>
                match removeFn p w' with
                | (w'', Returns _) => apply_entries entries' w''
                | (w'', Throws e) => (w'', Throw e)
                end
            | (w', Throws e) => (w', Throw e)
            end
          else
            match writeFn p (or_empty (new_content change)) w with
            | (w', Returns _) => apply_entries entries' w'
            | (w', Throws e) => (w', Throw e)
            end
      end
  end.

Definition apply_commit (commit : Commit) (w : World) : World * outcome unit :=
  apply_entries (Object_entries (changes commit)) w.

Definition process_patch (fuel : nat) (text : jsstring) (w : World)
  : World * outcome jsstring :=
  if negb (startsWith text PATCH_PREFIX)
  then (w, Throw (DiffError (str "Patch must start with *** Begin Patch\n")))
  else
    let paths := identify_files_needed text in
    match load_files paths w with
    | (w, Ok orig) =>
        match text_to_patch fuel text orig with
        | Ok (patch, _fuzz) =>
            match patch_to_commit patch orig with
            | Ok commit =>
                match apply_commit commit w with
                | (w, Ok _) => (w, Ok (str "Done!"))
                | (w, Throw e) => (w, Throw e)
                | (w, OutOfFuel) => (w, OutOfFuel)
                end
            | Throw e => (w, Throw e)
            | OutOfFuel => (w, OutOfFuel)
            end
        | Throw e => (w, Throw e)
        | OutOfFuel => (w, OutOfFuel)
        end
    | (w, Throw e) => (w, Throw e)
    | (w, OutOfFuel) => (w, OutOfFuel)
    end.

End Filesystem.

(** ** Notions the statements use *)

(** [i] is the first index of the range [start .. stop - 1] at which [hit]
    holds. *)
Definition first_hit (hit : Z -> bool) (start stop i : Z) : Prop :=
  start <= i < stop /\ hit i = true /\
  forall k, start <= k < i -> hit k = false.

Definition no_hit (hit : Z -> bool) (start stop : Z) : Prop :=
  forall k, start <= k < stop -> hit k = false.

(** The three-tier search from [s] finds the window [i] with the fuzz [f]:
    the first window from [s] on that equals the context after
    canonicalization, with fuzz 0; failing that, the first one equal once
    trailing white space is stripped from every line, with fuzz 1; failing
    that, the first one equal once leading and trailing white space is
    stripped, with fuzz 100. *)
Definition tiers_find (lines context : list jsstring) (s i f : Z) : Prop :=
  let stop := len lines in
  (first_hit (hit_exact lines context) s stop i /\ f = 0) \/
  (no_hit (hit_exact lines context) s stop /\
   ((first_hit (hit_trimEnd lines context) s stop i /\ f = 1) \/
    (no_hit (hit_trimEnd lines context) s stop /\
     first_hit (hit_trim lines context) s stop i /\ f = 100))).

(** No tier has a window from [s] on. *)
Definition tiers_miss (lines context : list jsstring) (s : Z) : Prop :=
  let stop := len lines in
  no_hit (hit_exact lines context) s stop /\
  no_hit (hit_trimEnd lines context) s stop /\
  no_hit (hit_trim lines context) s stop.

(** The context block is, line for line, the part of the file that starts at
    line [j]. *)
Definition occurs_at (lines context : list jsstring) (j : Z) : Prop :=
  0 <= j /\ firstn (length context) (skipn (Z.to_nat j) lines) = context.

(** Two code units are variants of one punctuation mark: equal, or members
    of one class of the table (a class is a representative and the keys
    mapped to it). *)
Definition in_class (r c : jschar) : Prop :=
  c = r \/ table_get PUNCT_EQUIV c = Some r.

Definition punct_variant (a b : jschar) : Prop :=
  a = b \/
  exists r, In r (map snd PUNCT_EQUIV) /\ in_class r a /\ in_class r b.


(** The original lines from position [a] up to position [b], and from
    position [a] on. *)
Definition lines_between (l : list jsstring) (a b : Z) : list jsstring :=
  firstn (Z.to_nat b - Z.to_nat a) (skipn (Z.to_nat a) l).

Definition lines_from (l : list jsstring) (a : Z) : list jsstring :=
  skipn (Z.to_nat a) l.

(** Some chunk starts past the [n] lines of the file, or before the cursor
    that the chunks before it have left (the [orig_index] of the last one
    plus the number of lines it deletes; 0 before the first chunk). *)
Fixpoint chunk_out_of_order (n : Z) (cs : list Chunk) (cursor : Z) : Prop :=
  match cs with
  | [] => False
  | c :: cs' =>
      orig_index c > n \/ cursor > orig_index c \/
      chunk_out_of_order n cs' (orig_index c + len (del_lines c))
  end.

(** The lines the chunks describe: for each chunk in order the original
    lines between the cursor and [orig_index], then the inserted lines, the
    deleted lines being skipped; after the last chunk, the remaining original
    lines. *)
Fixpoint rebuilt (origLines : list jsstring) (cs : list Chunk) (cursor : Z)
  : list jsstring :=
  match cs with
  | [] => lines_from origLines cursor
  | c :: cs' =>
      lines_between origLines cursor (orig_index c) ++ ins_lines c
      ++ rebuilt origLines cs' (orig_index c + len (del_lines c))
  end.

(** The chunks are in non-decreasing order of [orig_index], and a later
    chunk starts at or after the lines an earlier one has consumed. *)
Definition chunks_monotone (cs : list Chunk) : Prop :=
  forall i j c d, (i < j)%nat ->
  nth_error cs i = Some c -> nth_error cs j = Some d ->
  orig_index c <= orig_index d /\
  orig_index c + len (del_lines c) <= orig_index d.

(** The same read along the list: every chunk starts at or after the lines
    consumed before it, from [lo] on, and [hi] lines are consumed in the
    end at most. *)
Fixpoint ordered_between (lo hi : Z) (cs : list Chunk) : Prop :=
  match cs with
  | [] => lo <= hi
  | c :: cs' =>
      lo <= orig_index c /\
      ordered_between (orig_index c + len (del_lines c)) hi cs'
  end.

(** No line is the end-of-file marker: no hunk is anchored at the end of
    the file. *)
Definition no_eof_marker (lines : list jsstring) : Prop :=
  Forall (fun l => l <> END_OF_FILE_PREFIX) lines.

(** The action with its [move_path] set, and the actions of a patch with
    the one at [path] given the move path [newpath]. *)
Definition set_move_path (newpath : jsstring) (a : PatchAction)
  : PatchAction :=
  mkPatchAction (type a) (new_file a) (chunks a) (Some newpath).

Definition with_move_path (path newpath : jsstring)
  (acts : JsRecord PatchAction) : JsRecord PatchAction :=
  map (fun e => if jseqb (fst e) path
                then (fst e, set_move_path newpath (snd e)) else e) acts.

(** A line at which the loop of [parse_update_file] makes no progress: it
    starts with the section marker without being a section line, or it is
    the bare [***]. *)
Definition stuck_line (l : jsstring) : Prop :=
  (startsWith l (str "@@") = true /\ startsWith l (str "@@ ") = false /\
   l <> str "@@") \/
  l = str "***".

(** The number of line feeds of a string. *)
Fixpoint lf_count (s : jsstring) : nat :=
  match s with
  | [] => O
  | c :: s' => if N.eqb c LF then S (lf_count s') else lf_count s'
  end.

(** The lines have no line feed inside, as the pieces of a split have. *)
Definition single_lines (ls : list jsstring) : Prop :=
  Forall (fun l => lf_count l = O) ls.

(** The chunk lies within a file of [n] lines. *)
Definition chunk_in_file (n : Z) (c : Chunk) : Prop :=
  0 <= orig_index c /\ orig_index c + len (del_lines c) <= n.

(** The deleted lines of the chunk are the lines of [old] at its
    [orig_index]. *)
Definition chunk_deletes (old : list jsstring) (c : Chunk) : Prop :=
  chunk_in_file (len old) c /\
  lines_between old (orig_index c) (orig_index c + len (del_lines c))
  = del_lines c.

(** An Update action of the patch has an original text, and [Q] holds of
    that text and of the chunks of the action. *)
Definition action_has (Q : jsstring -> list Chunk -> Prop)
  (orig : JsRecord jsstring) (e : jsstring * PatchAction) : Prop :=
  type (snd e) = UPDATE ->
  exists text,
    own_get orig (fst e) = Some text /\ Q text (chunks (snd e)).

(** The commit builder accepts the chunks on a file of [n] lines. *)
Definition chunks_accepted (n : Z) (cs : list Chunk) : Prop :=
  ~ chunk_out_of_order n cs 0.

(** The chunks lie within a file of [n] lines. *)
Definition chunks_in_file (n : Z) (cs : list Chunk) : Prop :=
  Forall (chunk_in_file n) cs.

(** [line] is an Add header for the path [p]. *)
Definition names_added_file (line p : jsstring) : Prop :=
  startsWith line ADD_FILE_PREFIX = true /\
  p = skipn (length ADD_FILE_PREFIX) line.

(** The two messages by which the parser reports a file it has no text
    of. *)
Definition missing_file_message (m : jsstring) : bool :=
  startsWith m (str "Update File Error: Missing File: ")
  || startsWith m (str "Delete File Error: Missing File: ").

(** The three headers of a directive, each with the message by which the
    parser rejects a path it has an action for. *)
Definition header_kinds : list (jsstring * jsstring) :=
  [ (UPDATE_FILE_PREFIX, str "Update File Error: Duplicate Path: ");
    (DELETE_FILE_PREFIX, str "Delete File Error: Duplicate Path: ");
    (ADD_FILE_PREFIX, str "Add File Error: Duplicate Path: ") ].

(** The lines of the body of an Add action, each with its [+]. *)
Definition add_lines (body : list jsstring) : list jsstring :=
  map (fun l => HUNK_ADD_LINE_PREFIX ++ l) body.

(** The outside world as the list of the files written and removed, latest
    first; every file opens with the three lines, or with the two. *)
Inductive FileOp : Type :=
| Written (p content : jsstring)
| Removed (p : jsstring).

Definition open_three (p : jsstring) (w : list FileOp)
  : list FileOp * completion jsstring := (w, Returns three_lines).

Definition open_two (p : jsstring) (w : list FileOp)
  : list FileOp * completion jsstring := (w, Returns two_lines).

Definition write_logged (p content : jsstring) (w : list FileOp)
  : list FileOp * completion unit := (Written p content :: w, Returns tt).

Definition remove_logged (p : jsstring) (w : list FileOp)
  : list FileOp * completion unit := (Removed p :: w, Returns tt).

(** How the messages of the errors of the parser start. *)
Definition parser_messages : list jsstring :=
  map str
    [ "Invalid patch text: "; "Invalid Line"; "Invalid EOF Context ";
      "Invalid Context "; "Update File Error: Duplicate Path: ";
      "Update File Error: Missing File: ";
      "Delete File Error: Duplicate Path: ";
      "Delete File Error: Missing File: "; "Add File Error: Duplicate Path: ";
      "Add File Error: File already exists: "; "Invalid Add File Line: ";
      "Unknown Line: " ]%string.

(** The exception is a patch error with one of these messages. *)
Definition parser_error (e : exn) : Prop :=
  exists m, e = DiffError m /\ existsb (startsWith m) parser_messages = true.

(** The two sides of a hunk: its lines that are not additions, and its
    lines that are not deletions, each without its marker. *)
Definition hunk_old (body : list jsstring) : list jsstring :=
  map snd (filter (fun ml => negb (Mode_eqb (fst ml) add))
             (map classify body)).

Definition hunk_new (body : list jsstring) : list jsstring :=
  map snd (filter (fun ml => negb (Mode_eqb (fst ml) delete))
             (map classify body)).

(** The lines the chunks describe up to line [upto] of the original
    lines. *)
Fixpoint emitted (origLines : list jsstring) (cs : list Chunk)
  (cursor upto : Z) : list jsstring :=
  match cs with
  | [] => lines_between origLines cursor upto
  | c :: cs' =>
      lines_between origLines cursor (orig_index c) ++ ins_lines c
      ++ emitted origLines cs' (orig_index c + len (del_lines c)) upto
  end.

(** A hunk applied to the lines [w] of a file: a context line keeps the
    line of the file at its place, a deleted line drops it, an added line is
    put in. *)
Fixpoint hunk_apply (body : list (Mode * jsstring)) (w : list jsstring)
  : list jsstring :=
  match body with
  | [] => []
  | (add, line) :: body' => line :: hunk_apply body' w
  | (delete, _) :: body' => hunk_apply body' (skipn 1 w)
  | (keep, _) :: body' => firstn 1 w ++ hunk_apply body' (skipn 1 w)
  end.

(** The hunks of an Update action, each with its anchor, applied to a file
    in turn: each is looked for from the line after the one before it, the
    lines of the file up to where it is found are kept, and the lines after
    the last one. *)
Fixpoint apply_hunks (fileLines : list jsstring)
  (hunks : list (list jsstring * bool)) (index : Z) : list jsstring :=
  match hunks with
  | [] => lines_from fileLines index
  | (body, eof) :: hunks' =>
      let newIndex :=
        fst (find_context fileLines (hunk_old body) index eof) in
      lines_between fileLines index newIndex
      ++ hunk_apply (map classify body) (lines_from fileLines newIndex)
      ++ apply_hunks fileLines hunks' (newIndex + len (hunk_old body))
  end.

(** *** The hunks of an Update action, as lines of the patch *)

(** The cursor after the section lines at [c]: a line that starts with
    [@@ ], and the line [@@] after it when nothing follows the marker; or a
    line [@@]. *)
Definition hunk_start (lines : list jsstring) (c : nat) : nat :=
  match nth_error lines c with
  | Some l =>
      if startsWith l (str "@@ ") then
        match nth_error lines (S c) with
        | Some l' =>
            if negb (truthy (skipn (length (str "@@ ")) l))
               && jseqb l' (str "@@")
            then S (S c) else S c
        | None => S c
        end
      else if jseqb l (str "@@") then S c else c
  | None => c
  end.

(** The lines of a hunk: the lines before the first one that starts with a
    marker of [section_boundaries] or with [***]. *)
Fixpoint hunk_body (rest : list jsstring) : list jsstring :=
  match rest with
  | [] => []
  | s :: rest' =>
      if starts_with_any s section_boundaries || startsWith s (str "***")
      then []
      else s :: hunk_body rest'
  end.

Definition hunk_lines (lines : list jsstring) (c : nat) : list jsstring :=
  hunk_body (skipn (hunk_start lines c) lines).

(** The hunk is closed by the end-of-file marker. *)
Definition hunk_eof (lines : list jsstring) (c : nat) : bool :=
  match nth_error lines (hunk_start lines c + length (hunk_lines lines c)) with
  | Some l => jseqb l END_OF_FILE_PREFIX
  | None => false
  end.

Definition hunk_end (lines : list jsstring) (c : nat) : nat :=
  hunk_start lines c + length (hunk_lines lines c)
  + (if hunk_eof lines c then 1 else 0).

(** The hunks from the cursor [c] up to the next line that starts with a
    marker of [update_boundaries], each with its anchor, and the cursor
    there. *)
Fixpoint read_hunks (fuel : nat) (lines : list jsstring) (c : nat)
  : list (list jsstring * bool) * nat :=
  match fuel with
  | O => ([], c)
  | S fuel' =>
      if is_done lines c update_boundaries then ([], c)
      else
        let '(hunks, e) := read_hunks fuel' lines (hunk_end lines c) in
        ((hunk_lines lines c, hunk_eof lines c) :: hunks, e)
  end.

(** The index, counted from [k], of the first element that [f] holds
    of. *)
Fixpoint index_of (f : jsstring -> bool) (l : list jsstring) (k : nat)
  : option nat :=
  match l with
  | [] => None
  | x :: l' => if f x then Some k else index_of f l' (S k)
  end.

(** The first line, the line of the begin marker apart, that is the Update
    header of [path]. *)
Definition header_index (lines : list jsstring) (path : jsstring)
  : option nat :=
  index_of (fun l => jseqb l (UPDATE_FILE_PREFIX ++ path)) (skipn 1 lines) 1.

(** The cursor after the header at [h] and the move line that may follow
    it. *)
Definition update_start (lines : list jsstring) (h : nat) : nat :=
  match nth_error lines (S h) with
  | Some l => if startsWith l MOVE_FILE_TO_PREFIX then S (S h) else S h
  | None => S h
  end.

(** The hunks of the Update action of [path]: those that follow its
    header. *)
Definition update_hunks (lines : list jsstring) (path : jsstring)
  : list (list jsstring * bool) :=
  match header_index lines path with
  | Some h => fst (read_hunks (length lines) lines (update_start lines h))
  | None => []
  end.

(** No hunk after the first is anchored at the end of the file. *)
Definition later_hunks_unanchored (hunks : list (list jsstring * bool))
  : Prop :=
  Forall (fun hunk => snd hunk = false) (tl hunks).

(** An Update action of the patch has an original text, and [Q] holds of
    that text, of the hunks of the action and of its chunks. *)
Definition action_reads
  (Q : jsstring -> list (list jsstring * bool) -> list Chunk -> Prop)
  (lines : list jsstring) (orig : JsRecord jsstring)
  (e : jsstring * PatchAction) : Prop :=
  type (snd e) = UPDATE ->
  exists old,
    own_get orig (fst e) = Some old /\
    Q old (update_hunks lines (fst e)) (chunks (snd e)).

(** No line from [a] up to [b] is an Update header with a path. *)
Definition no_header_between (lines : list jsstring) (a b : nat) : Prop :=
  forall k path,
  (a <= k < b)%nat -> nth_error lines k = Some (UPDATE_FILE_PREFIX ++ path) ->
  path = [].

(** Every Update header before the cursor has its path among the
    actions. *)
Definition headers_recorded (lines : list jsstring) (p : Parser) : Prop :=
  forall k path,
  (1 <= k < index p)%nat ->
  nth_error lines k = Some (UPDATE_FILE_PREFIX ++ path) -> path <> [] ->
  has_property (actions (patch p)) path = true.

(** The state of the loop of [peek_next_section] after the lines [done]:
    [old] is their old side, the pending deletions end it, and the chunks
    closed so far, with the pending insertions, apply the lines to any
    file. *)
Definition peek_state (done old delLines insLines : list jsstring)
  (cs : list Chunk) (mode : Mode) : Prop :=
  hunk_old done = old /\
  (mode = keep -> delLines = [] /\ insLines = []) /\
  exists pre,
    old = pre ++ delLines /\
    ordered_between 0 (len pre) cs /\
    forall w, emitted w cs 0 (len pre) ++ insLines
              = hunk_apply (map classify done) w.

(** Two chunk lists that differ by the text of their deleted lines only. *)
Definition same_edits (cs1 cs2 : list Chunk) : Prop :=
  Forall2 (fun c1 c2 =>
             orig_index c1 = orig_index c2 /\
             length (del_lines c1) = length (del_lines c2) /\
             ins_lines c1 = ins_lines c2) cs1 cs2.

(** A header line of the kind that [identify_files_needed] collects. *)
Definition names_needed_file (line p : jsstring) : Prop :=
  (startsWith line UPDATE_FILE_PREFIX = true /\
   p = skipn (length UPDATE_FILE_PREFIX) line) \/
  (startsWith line DELETE_FILE_PREFIX = true /\
   p = skipn (length DELETE_FILE_PREFIX) line).

(** *** Tactics *)

(** The end of a turn of the loop of [parse_update_file], from the guard on
    the section lines on. *)
Ltac hunk_found H :=
  let ctx := fresh "ctx" in
  let cs := fresh "cs" in
  let e := fresh "e" in
  let eof := fresh "eof" in
  let newIndex := fresh "newIndex" in
  let fuzz := fresh "fuzz" in
  let Ef := fresh "Ef" in
  let Hfound := fresh "Hfound" in
  cbn beta iota zeta in H;
  match type of H with
  | (if ?b then _ else _) = _ => destruct b; [discriminate|]
  end;
  match type of H with
  | context [peek_next_section ?ls ?c] =>
      destruct (peek_next_section ls c) as [[[[ctx cs] e] eof]| |];
      cbn [bind] in H; try discriminate
  end;
  match type of H with
  | context [find_context ?a ?b ?c ?d] =>
      destruct (find_context a b c d) as [newIndex fuzz] eqn:Ef
  end;
  destruct (Z.eqb_spec newIndex (-1)) as [|Hfound];
  [destruct eof; discriminate|];
  injection H as <- <- <- _;
  exists ctx, cs, eof, newIndex, fuzz; repeat split; assumption.

(** * Properties *)

(** ** Strings and loops *)

Lemma jseqb_refl (a : jsstring) : jseqb a a = true.
Proof.
  induction a as [|c a IH]; simpl; [reflexivity|].
  now rewrite N.eqb_refl.
Qed.

Lemma jseqb_true_iff (a b : jsstring) : jseqb a b = true <-> a = b.
Proof.
  split.
  - revert b; induction a as [|c a IH]; intros [|d b] H; simpl in H;
      try discriminate; [reflexivity|].
    apply andb_true_iff in H as [Hc Hl].
    apply N.eqb_eq in Hc. now rewrite Hc, (IH b Hl).
  - intros ->. apply jseqb_refl.
Qed.

Lemma jseqb_false_iff (a b : jsstring) : jseqb a b = false <-> a <> b.
Proof.
  rewrite <- jseqb_true_iff. destruct (jseqb a b); split; congruence.
Qed.

Lemma for_first_Some (hit : Z -> bool) (n : nat) :
  forall i j, for_first hit n i = Some j ->
  first_hit hit i (i + Z.of_nat n) j.
Proof.
  induction n as [|n IH]; intros i j H; simpl in H; [discriminate|].
  destruct (hit i) eqn:Hi.
  - injection H as <-. repeat split; try lia. exact Hi.
  - apply IH in H. destruct H as (Hr & Hj & Hbefore).
    repeat split; try lia; [exact Hj|].
    intros k Hk. destruct (Z.eq_dec k i) as [->|Hne]; [exact Hi|].
    apply Hbefore. lia.
Qed.

Lemma for_first_None (hit : Z -> bool) (n : nat) :
  forall i, for_first hit n i = None -> no_hit hit i (i + Z.of_nat n).
Proof.
  induction n as [|n IH]; intros i H k Hk; simpl in H; [lia|].
  destruct (hit i) eqn:Hi; [discriminate|].
  destruct (Z.eq_dec k i) as [->|Hne]; [exact Hi|].
  apply (IH (i + 1) H). lia.
Qed.

Lemma first_hit_unique (hit : Z -> bool) (start stop i j : Z) :
  first_hit hit start stop i -> first_hit hit start stop j -> i = j.
Proof.
  intros (Hi & Hhi & Hbi) (Hj & Hhj & Hbj).
  destruct (Z.lt_trichotomy i j) as [Hlt|[Heq|Hgt]]; [|exact Heq|].
  - rewrite (Hbj i) in Hhi by lia. discriminate.
  - rewrite (Hbi j) in Hhj by lia. discriminate.
Qed.

Lemma first_index_Some (hit : Z -> bool) (start stop i : Z) :
  first_index start stop hit = Some i -> first_hit hit start stop i.
Proof.
  unfold first_index. intros H. apply for_first_Some in H.
  destruct H as (Hr & Hh & Hb). repeat split; try lia; assumption.
Qed.

Lemma first_index_None (hit : Z -> bool) (start stop : Z) :
  first_index start stop hit = None -> no_hit hit start stop.
Proof.
  unfold first_index. intros H k Hk.
  apply (for_first_None _ _ _ H). lia.
Qed.

Lemma first_index_of_first_hit (hit : Z -> bool) (start stop i : Z) :
  first_hit hit start stop i -> first_index start stop hit = Some i.
Proof.
  intros Hi. destruct (first_index start stop hit) as [j|] eqn:E.
  - apply first_index_Some in E. f_equal. eapply first_hit_unique; eauto.
  - apply first_index_None in E. destruct Hi as (Hr & Hh & _).
    rewrite (E i Hr) in Hh. discriminate.
Qed.

Lemma first_index_of_no_hit (hit : Z -> bool) (start stop : Z) :
  no_hit hit start stop -> first_index start stop hit = None.
Proof.
  intros Hn. destruct (first_index start stop hit) as [j|] eqn:E;
    [|reflexivity].
  apply first_index_Some in E. destruct E as (Hr & Hh & _).
  rewrite (Hn j Hr) in Hh. discriminate.
Qed.

(** A hit somewhere in the range gives a first hit at or before it. *)
Lemma first_hit_exists (hit : Z -> bool) (start stop j : Z) :
  start <= j < stop -> hit j = true ->
  exists i, i <= j /\ first_hit hit start stop i.
Proof.
  intros Hj Hh. destruct (first_index start stop hit) as [i|] eqn:E.
  - apply first_index_Some in E. exists i. split; [|exact E].
    destruct E as (_ & _ & Hb).
    destruct (Z_le_gt_dec i j) as [Hle|Hgt]; [exact Hle|].
    rewrite (Hb j) in Hh by lia. discriminate.
  - apply first_index_None in E. rewrite (E j Hj) in Hh. discriminate.
Qed.

Lemma len_nonneg {A} (l : list A) : 0 <= len l.
Proof. unfold len. lia. Qed.

Lemma len_app {A} (l1 l2 : list A) : len (l1 ++ l2) = len l1 + len l2.
Proof. unfold len. rewrite length_app. lia. Qed.

Lemma len_nil_iff {A} (l : list A) : len l = 0 <-> l = [].
Proof.
  unfold len. destruct l; simpl; split; intros H; try reflexivity;
    try discriminate; lia.
Qed.

(** Inside the array, [slice] is the plain window. *)
Lemma slice_inside {A} (l : list A) (b e : Z) :
  0 <= b -> b <= e -> e <= len l ->
  slice l b e = firstn (Z.to_nat (e - b)) (skipn (Z.to_nat b) l).
Proof.
  intros Hb Hbe He. unfold slice.
  destruct (Z.ltb_spec b 0); [lia|]. destruct (Z.ltb_spec e 0); [lia|].
  now rewrite !Z.min_l by lia.
Qed.

(** A window that would run past the end stops at the end. *)
Lemma slice_to_end {A} (l : list A) (b e : Z) :
  len l <= e -> slice l b e = slice_from l b.
Proof.
  intros He. unfold slice_from, slice. pose proof (len_nonneg l).
  destruct (Z.ltb_spec e 0); [lia|].
  destruct (Z.ltb_spec (len l) 0); [lia|].
  rewrite (Z.min_r e (len l)), (Z.min_r (len l) (len l)) by lia.
  reflexivity.
Qed.

(** ** Context matcher *)

(** The five ways [find_context_core] returns. *)
Lemma find_context_core_cases (lines context : list jsstring) (start : Z) :
  let stop := len lines in
  let r := find_context_core lines context start in
  (context = [] /\ r = (start, 0)) \/
  (context <> [] /\
   ((exists i, first_hit (hit_exact lines context) start stop i /\ r = (i, 0))
    \/
    (no_hit (hit_exact lines context) start stop /\
     ((exists i, first_hit (hit_trimEnd lines context) start stop i /\
                 r = (i, 1)) \/
      (no_hit (hit_trimEnd lines context) start stop /\
       ((exists i, first_hit (hit_trim lines context) start stop i /\
                   r = (i, 100)) \/
        (no_hit (hit_trim lines context) start stop /\ r = (-1, 0)))))))).
Proof.
  cbv zeta. unfold find_context_core.
  destruct (Z.eqb_spec (len context) 0) as [E|E].
  - left. split; [now apply len_nil_iff|reflexivity].
  - right. split; [intros ->; now apply E|].
    destruct (first_index start (len lines) (hit_exact lines context))
      as [i|] eqn:E0.
    { left. exists i. split; [now apply first_index_Some|reflexivity]. }
    right. split; [now apply first_index_None|].
    destruct (first_index start (len lines) (hit_trimEnd lines context))
      as [i|] eqn:E1.
    { left. exists i. split; [now apply first_index_Some|reflexivity]. }
    right. split; [now apply first_index_None|].
    destruct (first_index start (len lines) (hit_trim lines context))
      as [i|] eqn:E2.
    { left. exists i. split; [now apply first_index_Some|reflexivity]. }
    right. split; [now apply first_index_None|reflexivity].
Qed.

(** A result of [find_context_core] is the sentinel with fuzz 0, or an index
    at or after [start] with the fuzz of a tier. *)
Lemma find_context_core_range (lines context : list jsstring) (start i f : Z) :
  find_context_core lines context start = (i, f) ->
  (i = -1 /\ f = 0) \/ (start <= i /\ (f = 0 \/ f = 1 \/ f = 100)).
Proof.
  intros H.
  destruct (find_context_core_cases lines context start)
    as [[_ R]|[_ [(j & Hj & R)|[_ [(j & Hj & R)|[_ [(j & Hj & R)|[_ R]]]]]]]];
    rewrite H in R; injection R as -> ->;
    try (destruct Hj as (Hr & _)); try (right; split; lia).
  now left.
Qed.

Lemma find_context_core_empty (lines : list jsstring) (start : Z) :
  find_context_core lines [] start = (start, 0).
Proof. reflexivity. Qed.

(** Where the context block occurs, the exact comparison succeeds. *)
Lemma hit_exact_at_occurrence (lines context : list jsstring) (j : Z) :
  context <> [] -> occurs_at lines context j ->
  hit_exact lines context j = true.
Proof.
  intros Hne [Hj Hw]. unfold hit_exact.
  assert (Hlen : (Z.to_nat j + length context <= length lines)%nat).
  { pose proof (f_equal (@length _) Hw) as Hl.
    rewrite length_firstn, length_skipn in Hl.
    destruct context as [|c context]; [congruence|].
    change (length (c :: context)) with (S (length context)) in *. lia. }
  rewrite slice_inside by (unfold len; lia).
  replace (Z.to_nat (j + len context - j)) with (length context)
    by (unfold len; lia).
  rewrite Hw. apply jseqb_refl.
Qed.

Lemma occurs_at_in_file (lines context : list jsstring) (j : Z) :
  context <> [] -> occurs_at lines context j -> 0 <= j < len lines.
Proof.
  intros Hne [Hj Hw]. split; [exact Hj|].
  pose proof (f_equal (@length _) Hw) as Hl.
  rewrite length_firstn, length_skipn in Hl.
  destruct context as [|c context]; [congruence|].
  change (length (c :: context)) with (S (length context)) in *.
  unfold len. lia.
Qed.

(** C1, as the code has it: without the end-of-file anchor and for a non-empty
    context block, [find_context] returns the first window from [start] on
    that equals the context after canonicalization, with fuzz 0; failing
    that, the first one equal once trailing white space is stripped from every
    line, with fuzz 1; failing that, the first one equal once leading and
    trailing white space is stripped, with fuzz 100; failing that, the
    sentinel. When the context block occurs in the file at line [j] at or
    after [start], the result has fuzz 0 and its index is the first window
    equal to the context after canonicalization, which is at or before
    [j]. *)
Theorem find_context_tiers (lines context : list jsstring) (start : Z) :
  context <> [] ->
  let stop := len lines in
  let result := find_context lines context start false in
  (forall i, first_hit (hit_exact lines context) start stop i ->
             result = (i, 0)) /\
  (no_hit (hit_exact lines context) start stop ->
   forall i, first_hit (hit_trimEnd lines context) start stop i ->
             result = (i, 1)) /\
  (no_hit (hit_exact lines context) start stop ->
   no_hit (hit_trimEnd lines context) start stop ->
   forall i, first_hit (hit_trim lines context) start stop i ->
             result = (i, 100)) /\
  (no_hit (hit_exact lines context) start stop ->
   no_hit (hit_trimEnd lines context) start stop ->
   no_hit (hit_trim lines context) start stop ->
   result = (-1, 0)) /\
  (forall j, start <= j -> occurs_at lines context j ->
   exists i, start <= i <= j /\
             first_hit (hit_exact lines context) start stop i /\
             result = (i, 0)).
Proof.
  intros Hne. cbv zeta.
  assert (Hlen : (len context =? 0) = false).
  { apply Z.eqb_neq. intros E. now apply len_nil_iff in E. }
  assert (T0 : forall i,
             first_hit (hit_exact lines context) start (len lines) i ->
             find_context lines context start false = (i, 0)).
  { intros i Hi. unfold find_context, find_context_core.
    now rewrite Hlen, (first_index_of_first_hit _ _ _ _ Hi). }
  repeat split.
  - exact T0.
  - intros N0 i Hi. unfold find_context, find_context_core.
    now rewrite Hlen, (first_index_of_no_hit _ _ _ N0),
      (first_index_of_first_hit _ _ _ _ Hi).
  - intros N0 N1 i Hi. unfold find_context, find_context_core.
    now rewrite Hlen, (first_index_of_no_hit _ _ _ N0),
      (first_index_of_no_hit _ _ _ N1), (first_index_of_first_hit _ _ _ _ Hi).
  - intros N0 N1 N2. unfold find_context, find_context_core.
    now rewrite Hlen, (first_index_of_no_hit _ _ _ N0),
      (first_index_of_no_hit _ _ _ N1), (first_index_of_no_hit _ _ _ N2).
  - intros j Hsj Hocc.
    pose proof (occurs_at_in_file _ _ _ Hne Hocc) as Hj.
    destruct (first_hit_exists (hit_exact lines context) start (len lines) j)
      as (i & Hij & Hi).
    + lia.
    + now apply hit_exact_at_occurrence.
    + exists i. split; [|split; [exact Hi|now apply T0]].
      destruct Hi as (Hr & _). lia.
Qed.

(** What the three-tier search gives is what [find_context_core]
    returns. *)
Lemma find_context_core_finds (lines context : list jsstring) (s i f : Z) :
  context <> [] -> tiers_find lines context s i f ->
  find_context_core lines context s = (i, f).
Proof.
  intros Hne H.
  assert (Hlen : (len context =? 0) = false).
  { apply Z.eqb_neq. intros E. now apply len_nil_iff in E. }
  unfold find_context_core. rewrite Hlen.
  destruct H as [[H0 ->]|[N0 [[H1 ->]|(N1 & H2 & ->)]]].
  - now rewrite (first_index_of_first_hit _ _ _ _ H0).
  - now rewrite (first_index_of_no_hit _ _ _ N0),
      (first_index_of_first_hit _ _ _ _ H1).
  - now rewrite (first_index_of_no_hit _ _ _ N0),
      (first_index_of_no_hit _ _ _ N1), (first_index_of_first_hit _ _ _ _ H2).
Qed.

Lemma find_context_core_misses (lines context : list jsstring) (s : Z) :
  context <> [] -> tiers_miss lines context s ->
  find_context_core lines context s = (-1, 0).
Proof.
  intros Hne (N0 & N1 & N2).
  assert (Hlen : (len context =? 0) = false).
  { apply Z.eqb_neq. intros E. now apply len_nil_iff in E. }
  unfold find_context_core.
  now rewrite Hlen, (first_index_of_no_hit _ _ _ N0),
    (first_index_of_no_hit _ _ _ N1), (first_index_of_no_hit _ _ _ N2).
Qed.

Lemma tiers_find_range (lines context : list jsstring) (s i f : Z) :
  tiers_find lines context s i f ->
  s <= i < len lines /\ (f = 0 \/ f = 1 \/ f = 100).
Proof.
  intros [[(Hr & _) ->]|[_ [[(Hr & _) ->]|(_ & (Hr & _) & ->)]]]; split;
    try exact Hr; auto.
Qed.

(** C2: with the end-of-file anchor and for a non-empty context block,
    [find_context] first makes the three-tier search from
    [file_lines.length - context_lines.length], where every window compared
    runs to the end of the file: the window that search finds, unless it is
    at the sentinel index, is returned with the fuzz of its tier, and it is
    at the tail. When that search finds no window (or one at the sentinel
    index), the three-tier search is made again from [start]: the window it
    finds is returned with the fuzz of its tier increased by exactly 10000,
    so a context that matches only earlier in the file is still found, with
    a fuzz of 10000 at least; when it finds none either, the sentinel is
    returned with fuzz 10000. *)
Theorem find_context_eof_anchor (lines context : list jsstring) (start : Z) :
  context <> [] ->
  let tail := len lines - len context in
  let result := find_context lines context start true in
  (forall i, tail <= i ->
             slice lines i (i + len context) = slice_from lines i) /\
  (forall i f, tiers_find lines context tail i f -> i <> -1 ->
               result = (i, f) /\ tail <= i < len lines /\
               slice lines i (i + len context) = slice_from lines i) /\
  (tiers_miss lines context tail \/
   (exists f, tiers_find lines context tail (-1) f) ->
   (forall i f, tiers_find lines context start i f ->
                result = (i, f + 10000) /\ 10000 <= f + 10000) /\
   (tiers_miss lines context start -> result = (-1, 10000))).
Proof.
  intros Hne. cbv zeta.
  assert (W : forall i, len lines - len context <= i ->
                        slice lines i (i + len context) = slice_from lines i).
  { intros i Hi. apply slice_to_end. lia. }
  split; [exact W|]. split.
  - intros i f H Hi. destruct (tiers_find_range _ _ _ _ _ H) as (Hr & _).
    split; [|split; [exact Hr|apply W; lia]].
    unfold find_context. rewrite (find_context_core_finds _ _ _ _ _ Hne H).
    destruct (Z.eqb_spec i (-1)); [contradiction|reflexivity].
  - intros Htail.
    assert (E : exists f,
              find_context_core lines context (len lines - len context)
              = (-1, f)).
    { destruct Htail as [Hm|(f & Hf)].
      - exists 0. now apply find_context_core_misses.
      - exists f. now apply find_context_core_finds. }
    destruct E as (f0 & E). split.
    + intros i f H. destruct (tiers_find_range _ _ _ _ _ H) as (_ & Hf).
      split; [|lia]. unfold find_context.
      now rewrite E, (find_context_core_finds _ _ _ _ _ Hne H).
    + intros Hm. unfold find_context.
      now rewrite E, (find_context_core_misses _ _ _ Hne Hm).
Qed.

(** C7, as the code has it: for a start offset that is not negative, when
    [find_context] returns the sentinel index -1 the fuzz returned is 0
    without the end-of-file anchor and 10000 with it. *)
Theorem find_context_not_found_fuzz (lines context : list jsstring)
  (start : Z) (eof : bool) :
  0 <= start ->
  fst (find_context lines context start eof) = -1 ->
  snd (find_context lines context start eof) = if eof then 10000 else 0.
Proof.
  intros Hs. unfold find_context. destruct eof.
  - destruct (find_context_core lines context (len lines - len context))
      as [i f] eqn:E1.
    destruct (Z.eqb_spec i (-1)) as [->|Hne]; simpl.
    + destruct (find_context_core lines context start) as [i' f'] eqn:E2.
      simpl. intros ->.
      destruct (find_context_core_range _ _ _ _ _ E2) as [[_ ->]|[Hge _]];
        [reflexivity|lia].
    + intros Hi. contradiction.
  - destruct (find_context_core lines context start) as [i f] eqn:E.
    simpl. intros ->.
    destruct (find_context_core_range _ _ _ _ _ E) as [[_ ->]|[Hge _]];
      [reflexivity|lia].
Qed.

(** C8, as the code has it: an empty context block matches with fuzz 0, at
    [start] without the end-of-file anchor and at the length of the file
    with it. *)
Theorem find_context_empty_context (lines : list jsstring) (start : Z) :
  find_context lines [] start false = (start, 0) /\
  find_context lines [] start true = (len lines, 0).
Proof.
  split; [reflexivity|].
  unfold find_context. rewrite find_context_core_empty.
  pose proof (len_nonneg lines).
  destruct (Z.eqb_spec (len lines - len (@nil jsstring)) (-1)) as [E|E].
  - unfold len in E. simpl in E. unfold len in H. lia.
  - simpl. f_equal. unfold len. simpl. lia.
Qed.

(** ** Commit builder *)

Lemma slice_from_nonneg {A} (l : list A) (b : Z) :
  0 <= b -> slice_from l b = skipn (Z.to_nat b) l.
Proof.
  intros Hb. unfold slice_from, slice. pose proof (len_nonneg l) as Hl.
  destruct (Z.ltb_spec b 0); [lia|]. destruct (Z.ltb_spec (len l) 0); [lia|].
  rewrite (Z.min_r (len l) (len l)) by lia.
  destruct (Z.le_gt_cases b (len l)) as [Hle|Hgt].
  - rewrite Z.min_l by lia. apply firstn_all2.
    rewrite length_skipn. unfold len. lia.
  - rewrite Z.min_r by lia.
    rewrite (skipn_all2 (n := Z.to_nat b)) by (unfold len in Hgt; lia).
    rewrite skipn_all2 by (unfold len; lia). apply firstn_nil.
Qed.

Lemma slice_lines_between (l : list jsstring) (a b : Z) :
  0 <= a -> a <= b -> b <= len l -> slice l a b = lines_between l a b.
Proof.
  intros Ha Hab Hb. rewrite slice_inside by assumption.
  unfold lines_between. f_equal. lia.
Qed.

Lemma apply_chunks_out_of_order (path : jsstring) (origLines : list jsstring)
  (cs : list Chunk) :
  forall destLines origIndex,
  chunk_out_of_order (len origLines) cs origIndex ->
  exists message,
    apply_chunks path origLines cs destLines origIndex
    = Throw (DiffError message).
Proof.
  induction cs as [|c cs IH]; intros destLines origIndex H; simpl in H;
    [contradiction|].
  simpl. destruct (Z.gtb_spec (orig_index c) (len origLines)) as [G1|G1];
    [eexists; reflexivity|].
  destruct (Z.gtb_spec origIndex (orig_index c)) as [G2|G2];
    [eexists; reflexivity|].
  destruct H as [H|[H|H]]; [lia|lia|].
  apply IH.
  now replace (origIndex + (orig_index c - origIndex)) with (orig_index c)
    by lia.
Qed.

Lemma apply_chunks_in_order (path : jsstring) (origLines : list jsstring)
  (cs : list Chunk) :
  forall destLines origIndex,
  0 <= origIndex ->
  ~ chunk_out_of_order (len origLines) cs origIndex ->
  exists destLines' origIndex',
    apply_chunks path origLines cs destLines origIndex
    = Ok (destLines', origIndex') /\
    0 <= origIndex' /\
    destLines' ++ slice_from origLines origIndex'
    = destLines ++ rebuilt origLines cs origIndex.
Proof.
  induction cs as [|c cs IH]; intros destLines origIndex Hpos H; simpl in H.
  - exists destLines, origIndex. simpl. repeat split; [exact Hpos|].
    now rewrite slice_from_nonneg.
  - simpl. destruct (Z.gtb_spec (orig_index c) (len origLines)) as [G1|G1];
      [exfalso; apply H; left; lia|].
    destruct (Z.gtb_spec origIndex (orig_index c)) as [G2|G2];
      [exfalso; apply H; right; left; lia|].
    replace (origIndex + (orig_index c - origIndex)) with (orig_index c)
      by lia.
    assert (Hins :
      (if negb (Nat.eqb (length (ins_lines c)) 0)
       then (destLines ++ slice origLines origIndex (orig_index c))
            ++ ins_lines c
       else destLines ++ slice origLines origIndex (orig_index c))
      = (destLines ++ slice origLines origIndex (orig_index c))
        ++ ins_lines c).
    { destruct (ins_lines c); simpl; [now rewrite app_nil_r|reflexivity]. }
    rewrite Hins.
    destruct (IH ((destLines ++ slice origLines origIndex (orig_index c))
                  ++ ins_lines c)
                 (orig_index c + len (del_lines c)))
      as (d & o & E & Ho & R).
    + pose proof (len_nonneg (del_lines c)). lia.
    + intros Hbad. apply H. right. right. exact Hbad.
    + exists d, o. repeat split; [exact E|exact Ho|].
      rewrite R, slice_lines_between by lia. now rewrite <- !app_assoc.
Qed.

(** C3: for an Update action, [_get_updated_file] fails with a patch error
    when some chunk's [orig_index] is greater than the number of original
    lines or the cursor left by the chunks before it is greater than its
    [orig_index]; otherwise it returns the text made, chunk by chunk, of the
    original lines between the cursor and [orig_index] and the inserted
    lines, the deleted lines being skipped, followed after the last chunk by
    the remaining original lines. *)
Theorem get_updated_file_spec (text : jsstring) (action : PatchAction)
  (path : jsstring) :
  type action = UPDATE ->
  let origLines := split_nl text in
  (chunk_out_of_order (len origLines) (chunks action) 0 ->
   exists message,
     _get_updated_file text action path = Throw (DiffError message)) /\
  (~ chunk_out_of_order (len origLines) (chunks action) 0 ->
   _get_updated_file text action path
   = Ok (join_nl (rebuilt origLines (chunks action) 0))).
Proof.
  intros Ht. cbv zeta. unfold _get_updated_file. rewrite Ht. split; intros H.
  - destruct (apply_chunks_out_of_order path (split_nl text) (chunks action)
                [] 0 H) as (message & E).
    exists message. now rewrite E.
  - destruct (apply_chunks_in_order path (split_nl text) (chunks action)
                [] 0 (Z.le_refl 0) H) as (d & o & E & _ & R).
    rewrite E. simpl. now rewrite R.
Qed.

(** ** Envelope checks *)

(** C5, as the code has it: [text_to_patch] fails at once, whatever the
    fuel and the original files, with a message naming the first condition
    violated, unless the trimmed input has at least two lines, its first line
    starts with the begin-patch marker and its last line equals the end-patch
    marker; when the three conditions hold the envelope check passes and the
    result is that of the parser started on the second line. *)
Theorem text_to_patch_envelope (fuel : nat) (text : jsstring)
  (orig : JsRecord jsstring) :
  let lines := split_nl (trim text) in
  let first := nth 0 lines [] in
  let last := nth (length lines - 1) lines [] in
  ((length lines < 2)%nat ->
   text_to_patch fuel text orig
   = Throw (DiffError
       (str "Invalid patch text: Patch text must have at least two lines.")))
  /\
  ((2 <= length lines)%nat ->
   startsWith first (str "*** Begin Patch") = false ->
   text_to_patch fuel text orig
   = Throw (DiffError
       (str "Invalid patch text: Patch text must start with the correct patch prefix.")))
  /\
  ((2 <= length lines)%nat ->
   startsWith first (str "*** Begin Patch") = true ->
   last <> str "*** End Patch" ->
   text_to_patch fuel text orig
   = Throw (DiffError
       (str "Invalid patch text: Patch text must end with the correct patch suffix.")))
  /\
  ((2 <= length lines)%nat ->
   startsWith first (str "*** Begin Patch") = true ->
   last = str "*** End Patch" ->
   text_to_patch fuel text orig
   = (parser <- parse fuel orig lines (mkParser 1 (mkPatch []) 0) ;;
      Ok (patch parser, fuzz parser))).
Proof.
  cbv zeta. unfold text_to_patch, too_short, bad_prefix, bad_suffix.
  change (trim PATCH_PREFIX) with (str "*** Begin Patch").
  change (trim PATCH_SUFFIX) with (str "*** End Patch").
  repeat split.
  - intros Hl. apply Nat.ltb_lt in Hl. now rewrite Hl.
  - intros Hl Hp. apply Nat.ltb_ge in Hl. now rewrite Hl, Hp.
  - intros Hl Hp Hs. apply Nat.ltb_ge in Hl. apply jseqb_false_iff in Hs.
    now rewrite Hl, Hp, Hs.
  - intros Hl Hp Hs. apply Nat.ltb_ge in Hl. apply jseqb_true_iff in Hs.
    now rewrite Hl, Hp, Hs.
Qed.

(** C10: [process_patch] rejects with the patch error
    [Patch must start with *** Begin Patch\n] every text that does not start
    with the begin-patch marker followed by a line feed, before any accessor
    is called (the outside world is as it was); among such texts are one with
    a leading space and one with text after the marker on the first line,
    both of which [text_to_patch] reads with success. *)
Theorem process_patch_begin_marker :
  (forall (World : Type)
          (openFn : jsstring -> World -> World * completion jsstring)
          (writeFn : jsstring -> jsstring -> World -> World * completion unit)
          (removeFn : jsstring -> World -> World * completion unit)
          (fuel : nat) (text : jsstring) (w : World),
     startsWith text PATCH_PREFIX = false ->
     process_patch World openFn writeFn removeFn fuel text w
     = (w, Throw (DiffError (str "Patch must start with *** Begin Patch\n"))))
  /\
  (startsWith patch_after_space PATCH_PREFIX = false /\
   forall fuel orig,
     text_to_patch (S fuel) patch_after_space orig = Ok (mkPatch [], 0))
  /\
  (startsWith patch_with_suffixed_marker PATCH_PREFIX = false /\
   forall fuel orig,
     text_to_patch (S fuel) patch_with_suffixed_marker orig
     = Ok (mkPatch [], 0)).
Proof.
  split; [|split].
  - intros World openFn writeFn removeFn fuel text w H.
    unfold process_patch. now rewrite H.
  - split; [reflexivity|]. intros fuel orig. reflexivity.
  - split; [reflexivity|]. intros fuel orig. reflexivity.
Qed.

(** ** Canonicalizer *)

Lemma table_get_In (t : list (jschar * jschar)) (c r : jschar) :
  table_get t c = Some r -> In r (map snd t).
Proof.
  induction t as [|[k v] t IH]; simpl; [discriminate|].
  destruct (N.eqb k c); [intros [= ->]; now left|].
  intros H. right. now apply IH.
Qed.

(** A representative of the table is mapped to itself. *)
Lemma punct_representative (r : jschar) :
  In r (map snd PUNCT_EQUIV) -> punct r = r.
Proof.
  simpl. intros H.
  repeat (destruct H as [<-|H]; [reflexivity|]). contradiction.
Qed.

Lemma punct_idempotent (c : jschar) : punct (punct c) = punct c.
Proof.
  unfold punct at 2 3. destruct (table_get PUNCT_EQUIV c) as [r|] eqn:E.
  - apply punct_representative. eapply table_get_In; eauto.
  - unfold punct. now rewrite E.
Qed.

Lemma punct_of_class (r c : jschar) :
  In r (map snd PUNCT_EQUIV) -> in_class r c -> punct c = r.
Proof.
  intros Hr [->|E]; [now apply punct_representative|].
  unfold punct. now rewrite E.
Qed.

Lemma punct_variant_same (a b : jschar) :
  punct_variant a b -> punct a = punct b.
Proof.
  intros [->|(r & Hr & Ha & Hb)]; [reflexivity|].
  now rewrite (punct_of_class r a), (punct_of_class r b).
Qed.

Lemma map_punct_variants (s t : jsstring) :
  Forall2 punct_variant s t -> map punct s = map punct t.
Proof.
  induction 1 as [|a b s t Hab _ IH]; simpl; [reflexivity|].
  now rewrite (punct_variant_same a b Hab), IH.
Qed.

Section CanonLaws.

(** Two facts of Unicode normalization: it is idempotent, and it commutes
    with the replacement of the table, whose keys and representatives are
    starters that neither decompose nor take part in a composition. *)
Hypothesis NFC_idempotent :
  forall s, normalize_NFC (normalize_NFC s) = normalize_NFC s.
Hypothesis NFC_punct :
  forall s, normalize_NFC (map punct s) = map punct (normalize_NFC s).

(** C9: [canon] is idempotent, and two strings that differ only by variants
    of the same punctuation mark of the table have the same canonical
    form. *)
Theorem canon_idempotent_equiv :
  (forall s, canon (canon s) = canon s) /\
  (forall s t, Forall2 punct_variant s t -> canon s = canon t).
Proof.
  split.
  - intros s. unfold canon.
    rewrite NFC_punct, NFC_idempotent, map_map.
    apply map_ext. exact punct_idempotent.
  - intros s t H. unfold canon.
    now rewrite <- !NFC_punct, (map_punct_variants s t H).
Qed.

End CanonLaws.

(** ** Order of the chunks of an Update action *)

Lemma ordered_between_le (cs : list Chunk) :
  forall lo hi, ordered_between lo hi cs -> lo <= hi.
Proof.
  induction cs as [|c cs IH]; simpl; intros lo hi H; [exact H|].
  destruct H as [H1 H2]. apply IH in H2.
  pose proof (len_nonneg (del_lines c)). lia.
Qed.

Lemma ordered_between_weaken (cs : list Chunk) :
  forall lo hi hi', hi <= hi' -> ordered_between lo hi cs ->
  ordered_between lo hi' cs.
Proof.
  induction cs as [|c cs IH]; simpl; intros lo hi hi' Hh H; [lia|].
  destruct H as [H1 H2]. split; [exact H1|]. now apply (IH _ hi).
Qed.

Lemma ordered_between_app (cs1 cs2 : list Chunk) :
  forall lo mid hi, ordered_between lo mid cs1 -> ordered_between mid hi cs2 ->
  ordered_between lo hi (cs1 ++ cs2).
Proof.
  induction cs1 as [|c cs1 IH]; simpl; intros lo mid hi H1 H2.
  - destruct cs2 as [|d cs2]; simpl in *.
    + lia.
    + destruct H2 as [H2 H3]. split; [lia|exact H3].
  - destruct H1 as [H1 H1']. split; [exact H1|]. now apply (IH _ mid).
Qed.

Lemma ordered_between_shift (d : Z) (cs : list Chunk) :
  forall lo hi, ordered_between lo hi cs ->
  ordered_between (lo + d) (hi + d) (map (shift_chunk d) cs).
Proof.
  induction cs as [|c cs IH]; simpl; intros lo hi H; [lia|].
  destruct H as [H1 H2]. split; [lia|].
  replace (orig_index c + d + len (del_lines c))
    with (orig_index c + len (del_lines c) + d) by lia.
  now apply IH.
Qed.

Lemma ordered_between_lower (cs : list Chunk) :
  forall lo hi d, ordered_between lo hi cs -> In d cs -> lo <= orig_index d.
Proof.
  induction cs as [|c cs IH]; simpl; intros lo hi d H Hin; [contradiction|].
  destruct H as [H1 H2]. destruct Hin as [<-|Hin]; [exact H1|].
  pose proof (IH _ _ _ H2 Hin). pose proof (len_nonneg (del_lines c)). lia.
Qed.

Lemma ordered_between_monotone (cs : list Chunk) :
  forall lo hi, ordered_between lo hi cs -> chunks_monotone cs.
Proof.
  induction cs as [|c cs IH]; intros lo hi H i j x y Hij Hi Hj.
  - destruct i; discriminate.
  - destruct H as [H1 H2]. destruct j as [|j]; [lia|]. simpl in Hj.
    destruct i as [|i]; simpl in Hi.
    + injection Hi as <-. apply nth_error_In in Hj.
      pose proof (ordered_between_lower _ _ _ _ H2 Hj).
      pose proof (len_nonneg (del_lines c)). lia.
    + apply (IH _ _ H2 i j); [lia|assumption|assumption].
Qed.

Lemma flush_ordered (old delLines insLines : list jsstring)
  (cs : list Chunk) :
  ordered_between 0 (len old - len delLines) cs ->
  ordered_between 0 (len old) (flush old delLines insLines cs).
Proof.
  intros H. pose proof (len_nonneg delLines). unfold flush.
  destruct (negb (Nat.eqb (length insLines) 0)
            || negb (Nat.eqb (length delLines) 0)).
  - apply (ordered_between_app _ _ _ (len old - len delLines)); [exact H|].
    simpl. lia.
  - apply (ordered_between_weaken _ _ (len old - len delLines)); [lia|exact H].
Qed.

Lemma peek_finish_ordered (rest : list jsstring) (index : nat)
  (old delLines insLines : list jsstring) (cs : list Chunk) :
  ordered_between 0 (len old - len delLines) cs ->
  forall ctx cs' e eof,
  Ok (peek_finish rest index old delLines insLines cs)
  = Ok (ctx, cs', e, eof) ->
  ordered_between 0 (len ctx) cs'.
Proof.
  intros H ctx cs' e eof. unfold peek_finish.
  pose proof (flush_ordered old delLines insLines cs H) as Hf.
  destruct rest as [|s rest]; [|destruct (jseqb s END_OF_FILE_PREFIX)];
    intros [= <- <- _ _]; exact Hf.
Qed.

(** The chunks of one hunk are in order within its context block. *)
Lemma peek_loop_ordered (rest : list jsstring) :
  forall index old delLines insLines cs mode ctx cs' e eof,
  ordered_between 0 (len old - len delLines) cs ->
  peek_loop rest index old delLines insLines cs mode = Ok (ctx, cs', e, eof) ->
  ordered_between 0 (len ctx) cs'.
Proof.
  induction rest as [|s rest IH];
    intros index old delLines insLines cs mode ctx cs' e eof Hord H.
  - cbn [peek_loop] in H. eapply peek_finish_ordered; [exact Hord|exact H].
  - cbn [peek_loop] in H.
    destruct (starts_with_any s section_boundaries).
    { eapply peek_finish_ordered; [exact Hord|exact H]. }
    destruct (jseqb s (str "***")).
    { eapply peek_finish_ordered; [exact Hord|exact H]. }
    destruct (startsWith s (str "***")); [discriminate|].
    pose proof (flush_ordered old delLines insLines cs Hord) as Hflush.
    pose proof (len_nonneg delLines) as Hdel.
    destruct (classify s) as [m line].
    destruct m, mode; simpl in H; (eapply IH; [|exact H]);
      try exact Hord;
      rewrite ?len_app; change (len [line]) with 1;
      change (len (@nil jsstring)) with 0;
      try (eapply ordered_between_weaken; [|exact Hflush]; lia);
      try (eapply ordered_between_weaken; [|exact Hord]; lia).
Qed.

Lemma peek_loop_no_eof (rest : list jsstring) :
  forall index old delLines insLines cs mode ctx cs' e eof,
  no_eof_marker rest ->
  peek_loop rest index old delLines insLines cs mode = Ok (ctx, cs', e, eof) ->
  eof = false.
Proof.
  assert (F : forall rest index old delLines insLines cs ctx cs' e eof,
    no_eof_marker rest ->
    Ok (peek_finish rest index old delLines insLines cs)
    = Ok (ctx, cs', e, eof) -> eof = false).
  { intros r index old delLines insLines cs ctx cs' e eof Hno.
    unfold peek_finish. destruct r as [|s r]; [now intros [= _ _ _ <-]|].
    apply Forall_inv in Hno. apply jseqb_false_iff in Hno. rewrite Hno.
    now intros [= _ _ _ <-]. }
  induction rest as [|s rest IH];
    intros index old delLines insLines cs mode ctx cs' e eof Hno H.
  - cbn [peek_loop] in H. eapply F; [exact Hno|exact H].
  - cbn [peek_loop] in H.
    destruct (starts_with_any s section_boundaries);
      [eapply F; [exact Hno|exact H]|].
    destruct (jseqb s (str "***")); [eapply F; [exact Hno|exact H]|].
    destruct (startsWith s (str "***")); [discriminate|].
    apply Forall_inv_tail in Hno.
    destruct (classify s) as [m line].
    destruct m, mode; simpl in H; eapply IH; try exact H; exact Hno.
Qed.

Lemma no_eof_marker_skipn (n : nat) (lines : list jsstring) :
  no_eof_marker lines -> no_eof_marker (skipn n lines).
Proof.
  revert lines. induction n as [|n IH]; intros [|l lines] H; simpl;
    try exact H.
  apply IH. now apply Forall_inv_tail in H.
Qed.

(** Without an end-of-file anchor every hunk is found at or after the
    running position, so the chunks of an Update action stay in order. *)
Lemma parse_hunk_ordered (lines fileLines : list jsstring) :
  no_eof_marker lines ->
  forall acc index cursor fz acc' index' cursor' fz',
  ordered_between 0 index acc ->
  parse_hunk lines fileLines acc index cursor fz
  = Ok (acc', index', cursor', fz') ->
  ordered_between 0 index' acc'.
Proof.
  intros Hno acc index cursor fz acc' index' cursor' fz' Hord H.
  unfold parse_hunk in H.
  destruct (read_str lines cursor (str "@@ ") false) as [[defStr c1]| |];
    cbn [bind] in H; try discriminate.
  destruct (match nth_error lines c1 with
            | Some l =>
                if negb (truthy defStr) && jseqb l (str "@@")
                then (l, S c1) else ([], c1)
            | None => ([], c1)
            end) as [sectionStr c2].
  destruct (negb (truthy defStr || truthy sectionStr || (index =? 0)));
    [discriminate|].
  destruct (peek_next_section lines c2) as [[[[ctx chunks] e] eof]| |] eqn:Ep;
    cbn [bind] in H; try discriminate.
  assert (eof = false) as ->.
  { eapply peek_loop_no_eof; [|exact Ep]. now apply no_eof_marker_skipn. }
  destruct (find_context fileLines ctx index false) as [newIndex fuzz] eqn:Ef.
  destruct (Z.eqb_spec newIndex (-1)) as [|Hfound]; [discriminate|].
  injection H as <- <- _ _.
  unfold find_context in Ef.
  destruct (find_context_core_range _ _ _ _ _ Ef) as [[Hm _]|[Hge _]];
    [contradiction|].
  apply (ordered_between_app _ _ _ newIndex).
  - now apply (ordered_between_weaken _ _ index).
  - replace newIndex with (0 + newIndex) at 1 by lia.
    replace (newIndex + len ctx) with (len ctx + newIndex) by lia.
    apply ordered_between_shift.
    eapply peek_loop_ordered; [|exact Ep]. simpl. lia.
Qed.

(** ** The move-to header *)

Lemma startsWith_both (l : jsstring) :
  forall p q, startsWith l p = true -> startsWith l q = true ->
  startsWith p q = true \/ startsWith q p = true.
Proof.
  induction l as [|c l IH]; intros [|a p] [|b q] Hp Hq; simpl in *;
    try discriminate; auto.
  apply andb_true_iff in Hp as [Ha Hp]. apply andb_true_iff in Hq as [Hb Hq].
  apply N.eqb_eq in Ha, Hb. subst a b. rewrite N.eqb_refl. simpl.
  now apply IH.
Qed.

Lemma startsWith_trans (l : jsstring) :
  forall q p, startsWith l q = true -> startsWith q p = true ->
  startsWith l p = true.
Proof.
  induction l as [|c l IH]; intros [|b q] [|a p] Hq Hp; simpl in *;
    try discriminate; auto.
  apply andb_true_iff in Hq as [Hb Hq]. apply andb_true_iff in Hp as [Ha Hp].
  rewrite andb_true_iff. apply N.eqb_eq in Ha, Hb. subst.
  split; [apply N.eqb_refl|]. now apply (IH q).
Qed.

Lemma startsWith_app (p s : jsstring) : startsWith (p ++ s) p = true.
Proof.
  induction p as [|c p IH]; simpl; [reflexivity|].
  now rewrite N.eqb_refl.
Qed.

Lemma skipn_prefix (p s : jsstring) : skipn (length p) (p ++ s) = s.
Proof. induction p as [|c p IH]; simpl; [reflexivity|exact IH]. Qed.

(** A line that starts with a marker that disagrees with the Update header
    is not an Update header. *)
Lemma not_update_header (l p : jsstring) :
  startsWith p UPDATE_FILE_PREFIX = false ->
  startsWith UPDATE_FILE_PREFIX p = false ->
  startsWith l p = true -> startsWith l UPDATE_FILE_PREFIX = false.
Proof.
  intros H1 H2 Hp. destruct (startsWith l UPDATE_FILE_PREFIX) eqn:E;
    [|reflexivity].
  destruct (startsWith_both l p UPDATE_FILE_PREFIX Hp E); congruence.
Qed.

(** A line that is no boundary for a section or for an added file is not an
    Update header. *)
Lemma starts_with_any_update (l : jsstring) (prefixes : list jsstring) :
  In UPDATE_FILE_PREFIX prefixes ->
  starts_with_any l prefixes = false ->
  startsWith l UPDATE_FILE_PREFIX = false.
Proof.
  intros Hin H. destruct (startsWith l UPDATE_FILE_PREFIX) eqn:E;
    [|reflexivity].
  assert (Ht : starts_with_any l prefixes = true); [|congruence].
  unfold starts_with_any. apply existsb_exists.
  exists UPDATE_FILE_PREFIX. split; [exact Hin|].
  apply (startsWith_trans l UPDATE_FILE_PREFIX); [exact E|reflexivity].
Qed.

Lemma skipn_nth_error {A} (l : list A) :
  forall i, skipn i l = match nth_error l i with
                        | Some x => x :: skipn (S i) l
                        | None => []
                        end.
Proof.
  induction l as [|a l IH]; intros [|i]; simpl; try reflexivity.
  rewrite IH. now destruct l.
Qed.

Section Simulation.

(** Two patch texts read side by side: [J i i'] relates a cursor in the
    lines of the first to a cursor in the lines of the second at which the
    same line stands, and is kept when a line other than an Update header is
    read. *)
Variables lines lines' : list jsstring.
Variable J : nat -> nat -> Prop.

Hypothesis J_nth :
  forall i i', J i i' -> nth_error lines i = nth_error lines' i'.
Hypothesis J_next :
  forall i i' l, J i i' -> nth_error lines i = Some l ->
  startsWith l UPDATE_FILE_PREFIX = false -> J (S i) (S i').

Lemma sim_is_done (i i' : nat) (prefixes : list jsstring) :
  J i i' -> is_done lines' i' prefixes = is_done lines i prefixes.
Proof. intros H. unfold is_done. now rewrite (J_nth _ _ H). Qed.

Lemma sim_read_str (i i' : nat) (prefix s : jsstring) (j : nat) :
  startsWith prefix UPDATE_FILE_PREFIX = false ->
  startsWith UPDATE_FILE_PREFIX prefix = false ->
  J i i' ->
  read_str lines i prefix false = Ok (s, j) ->
  exists j', read_str lines' i' prefix false = Ok (s, j') /\ J j j'.
Proof.
  intros H1 H2 HJ. unfold read_str. rewrite <- (J_nth _ _ HJ).
  destruct (nth_error lines i) as [l|] eqn:E; [|discriminate].
  destruct (startsWith l prefix) eqn:Ep; intros [= <- <-].
  - exists (S i'). split; [reflexivity|].
    apply (J_next _ _ l HJ E). now apply (not_update_header l prefix).
  - exists i'. now split.
Qed.

Lemma sim_peek_finish (i i' : nat) (old delLines insLines : list jsstring)
  (cs : list Chunk) (ctx : list jsstring) (cs' : list Chunk) (e : nat)
  (eof : bool) :
  J i i' ->
  Ok (peek_finish (skipn i lines) i old delLines insLines cs)
  = Ok (ctx, cs', e, eof) ->
  exists e',
    Ok (peek_finish (skipn i' lines') i' old delLines insLines cs)
    = Ok (ctx, cs', e', eof) /\ J e e'.
Proof.
  intros HJ. rewrite (skipn_nth_error lines i), (skipn_nth_error lines' i').
  rewrite <- (J_nth _ _ HJ). unfold peek_finish.
  destruct (nth_error lines i) as [l|] eqn:E.
  - destruct (jseqb l END_OF_FILE_PREFIX) eqn:El; intros [= <- <- <- <-].
    + exists (S i'). split; [reflexivity|].
      apply (J_next _ _ l HJ E). apply jseqb_true_iff in El. now subst l.
    + exists i'. now split.
  - intros [= <- <- <- <-]. exists i'. now split.
Qed.

Lemma sim_peek_loop (n : nat) :
  forall i i' old delLines insLines cs mode ctx cs' e eof,
  (length lines - i <= n)%nat ->
  J i i' ->
  peek_loop (skipn i lines) i old delLines insLines cs mode
  = Ok (ctx, cs', e, eof) ->
  exists e',
    peek_loop (skipn i' lines') i' old delLines insLines cs mode
    = Ok (ctx, cs', e', eof) /\ J e e'.
Proof.
  induction n as [|n IH];
    intros i i' old delLines insLines cs mode ctx cs' e eof Hn HJ H.
  - assert (E : nth_error lines i = None) by (apply nth_error_None; lia).
    assert (E' : nth_error lines' i' = None)
      by now rewrite <- (J_nth _ _ HJ).
    pose proof (sim_peek_finish i i' old delLines insLines cs ctx cs' e eof HJ)
      as Hf.
    rewrite (skipn_nth_error lines i), E in H, Hf.
    rewrite (skipn_nth_error lines' i'), E' in Hf |- *.
    apply Hf. exact H.
  - pose proof (sim_peek_finish i i' old delLines insLines cs ctx cs' e eof HJ)
      as Hf.
    pose proof (J_nth _ _ HJ) as Hnth.
    rewrite (skipn_nth_error lines i) in H, Hf.
    rewrite (skipn_nth_error lines' i') in Hf |- *. rewrite <- Hnth in *.
    destruct (nth_error lines i) as [l|] eqn:E; [|apply Hf; exact H].
    cbn [peek_loop] in H |- *.
    destruct (starts_with_any l section_boundaries) eqn:Eb;
      [apply Hf; exact H|].
    destruct (jseqb l (str "***")); [apply Hf; exact H|].
    destruct (startsWith l (str "***")); [discriminate|].
    assert (HJ' : J (S i) (S i')).
    { apply (J_next _ _ l HJ E).
      apply (starts_with_any_update l section_boundaries); [|exact Eb].
      simpl. tauto. }
    assert (Hn' : (length lines - S i <= n)%nat) by lia.
    destruct (classify l) as [m line].
    destruct m, mode; cbn [Mode_eqb andb negb] in H |- *; eapply IH; eauto.
Qed.

Lemma sim_peek_next_section (i i' : nat) (ctx : list jsstring)
  (cs : list Chunk) (e : nat) (eof : bool) :
  J i i' ->
  peek_next_section lines i = Ok (ctx, cs, e, eof) ->
  exists e', peek_next_section lines' i' = Ok (ctx, cs, e', eof) /\ J e e'.
Proof.
  intros HJ H. unfold peek_next_section in *.
  eapply (sim_peek_loop (length lines - i)); eauto.
Qed.

Lemma sim_parse_add_loop (n : nat) :
  forall i i' acc added e,
  (length lines - i <= n)%nat ->
  J i i' ->
  parse_add_loop (skipn i lines) i acc = Ok (added, e) ->
  exists e', parse_add_loop (skipn i' lines') i' acc = Ok (added, e')
             /\ J e e'.
Proof.
  induction n as [|n IH]; intros i i' acc added e Hn HJ H;
    pose proof (J_nth _ _ HJ) as Hnth;
    rewrite (skipn_nth_error lines i) in H;
    rewrite (skipn_nth_error lines' i'); rewrite <- Hnth.
  - assert (E : nth_error lines i = None) by (apply nth_error_None; lia).
    rewrite E in *. simpl in *. injection H as <- <-. exists i'. now split.
  - destruct (nth_error lines i) as [l|] eqn:E.
    + cbn [parse_add_loop] in H |- *.
      destruct (starts_with_any l add_boundaries) eqn:Eb.
      { injection H as <- <-. exists i'. now split. }
      destruct (negb (startsWith l HUNK_ADD_LINE_PREFIX)); [discriminate|].
      eapply IH; [| |exact H]; [lia|].
      apply (J_next _ _ l HJ E).
      apply (starts_with_any_update l add_boundaries); [|exact Eb].
      simpl. tauto.
    + simpl in *. injection H as <- <-. exists i'. now split.
Qed.

Lemma sim_parse_add_file (i i' : nat) (action : PatchAction) (e : nat) :
  J i i' ->
  parse_add_file lines i = Ok (action, e) ->
  exists e', parse_add_file lines' i' = Ok (action, e') /\ J e e'.
Proof.
  intros HJ H. unfold parse_add_file in *.
  destruct (parse_add_loop (skipn i lines) i []) as [[added c]| |] eqn:E;
    cbn [bind] in H; try discriminate.
  injection H as <- <-.
  destruct (sim_parse_add_loop (length lines - i) i i' [] added c
              (Nat.le_refl _) HJ E) as (c' & E' & HJ').
  exists c'. rewrite E'. now split.
Qed.

Lemma sim_parse_hunk (fileLines : list jsstring) (acc : list Chunk)
  (index : Z) (c c' : nat) (fz : Z) (acc1 : list Chunk) (index1 : Z)
  (e : nat) (fz1 : Z) :
  J c c' ->
  parse_hunk lines fileLines acc index c fz = Ok (acc1, index1, e, fz1) ->
  exists e',
    parse_hunk lines' fileLines acc index c' fz = Ok (acc1, index1, e', fz1)
    /\ J e e'.
Proof.
  intros HJ H. unfold parse_hunk in *.
  destruct (read_str lines c (str "@@ ") false) as [[defStr c1]| |] eqn:Er;
    cbn [bind] in H; try discriminate.
  destruct (sim_read_str _ _ (str "@@ ") _ _ eq_refl eq_refl HJ Er)
    as (c1' & Er' & HJ1).
  rewrite Er'. cbn [bind]. rewrite <- (J_nth _ _ HJ1).
  assert (Hsec : exists sectionStr c2 c2',
    J c2 c2' /\
    match nth_error lines c1 with
    | Some l =>
        if negb (truthy defStr) && jseqb l (str "@@")
        then (l, S c1) else ([], c1)
    | None => ([], c1)
    end = (sectionStr, c2) /\
    match nth_error lines c1 with
    | Some l =>
        if negb (truthy defStr) && jseqb l (str "@@")
        then (l, S c1') else ([], c1')
    | None => ([], c1')
    end = (sectionStr, c2')).
  { destruct (nth_error lines c1) as [l|] eqn:El.
    - destruct (negb (truthy defStr) && jseqb l (str "@@")) eqn:E2.
      + exists l, (S c1), (S c1'). split; [|now split].
        apply (J_next _ _ l HJ1 El).
        apply andb_true_iff in E2 as [_ E2]. apply jseqb_true_iff in E2.
        now subst l.
      + exists [], c1, c1'. now split.
    - exists [], c1, c1'. now split. }
  destruct Hsec as (sectionStr & c2 & c2' & HJ2 & E2 & E2').
  rewrite E2 in H. rewrite E2'.
  destruct (negb (truthy defStr || truthy sectionStr || (index =? 0)));
    [discriminate|].
  destruct (peek_next_section lines c2) as [[[[ctx chunks] e0] eof0]| |] eqn:Ep;
    cbn [bind] in H; try discriminate.
  destruct (sim_peek_next_section _ _ _ _ _ _ HJ2 Ep) as (e' & Ep' & HJe).
  rewrite Ep'. cbn [bind].
  destruct (find_context fileLines ctx index eof0) as [newIndex fuzz0].
  destruct (newIndex =? -1); [destruct eof0; discriminate|].
  injection H as <- <- <- <-. exists e'. now split.
Qed.

Lemma sim_parse_update_loop (fileLines : list jsstring) (fuel : nat) :
  forall acc index c c' fz acc1 e fz1,
  J c c' ->
  parse_update_loop fuel lines fileLines acc index c fz = Ok (acc1, e, fz1) ->
  exists e',
    parse_update_loop fuel lines' fileLines acc index c' fz
    = Ok (acc1, e', fz1) /\ J e e'.
Proof.
  induction fuel as [|fuel IH]; intros acc index c c' fz acc1 e fz1 HJ H;
    [discriminate|].
  cbn [parse_update_loop] in H |- *. rewrite (sim_is_done _ _ _ HJ).
  destruct (is_done lines c update_boundaries).
  { injection H as <- <- <-. exists c'. now split. }
  destruct (parse_hunk lines fileLines acc index c fz)
    as [[[[acc2 index2] c2] fz2]| |] eqn:Eh; cbn [bind] in H;
    try discriminate.
  destruct (sim_parse_hunk _ _ _ _ _ _ _ _ _ _ HJ Eh) as (c2' & Eh' & HJ2).
  rewrite Eh'. cbn [bind]. now apply (IH _ _ c2).
Qed.

Lemma sim_parse_update_file (fuel : nat) (text : jsstring) (c c' : nat)
  (fz : Z) (action : PatchAction) (e : nat) (fz1 : Z) :
  J c c' ->
  parse_update_file fuel lines text c fz = Ok (action, e, fz1) ->
  exists e',
    parse_update_file fuel lines' text c' fz = Ok (action, e', fz1)
    /\ J e e'.
Proof.
  intros HJ H. unfold parse_update_file in *.
  destruct (parse_update_loop fuel lines (split_nl text) [] 0 c fz)
    as [[[cs c1] fz2]| |] eqn:El; cbn [bind] in H; try discriminate.
  injection H as <- <- <-.
  destruct (sim_parse_update_loop _ _ _ _ _ _ _ _ _ _ HJ El)
    as (c1' & El' & HJ1).
  rewrite El'. exists c1'. now split.
Qed.

(** One directive read side by side; [F] relates the actions of the two
    parsers and [good] is what the first parser's actions keep. *)
Variable F : JsRecord PatchAction -> JsRecord PatchAction.
Variable good : JsRecord PatchAction -> Prop.

Hypothesis F_has :
  forall acts x, has_property (F acts) x = has_property acts x.
Hypothesis F_set :
  forall acts x v, good acts -> has_property acts x = false ->
  own_set (F acts) x v = F (own_set acts x v) /\ good (own_set acts x v).

Lemma sim_parse_directive (fuel : nat) (current_files : JsRecord jsstring)
  (p p' q : Parser) :
  J (index p) (index p') ->
  J (S (index p)) (S (index p')) ->
  fuzz p' = fuzz p ->
  actions (patch p') = F (actions (patch p)) ->
  good (actions (patch p)) ->
  parse_directive fuel current_files lines p = Ok q ->
  exists q',
    parse_directive fuel current_files lines' p' = Ok q' /\
    J (index q) (index q') /\ fuzz q' = fuzz q /\
    actions (patch q') = F (actions (patch q)) /\
    good (actions (patch q)).
Proof.
  intros HJ HJS Hfz Hacts Hgood H. unfold parse_directive in *.
  rewrite Hacts, Hfz.
  assert (R : exists path c1 c1',
    read_str lines (index p) UPDATE_FILE_PREFIX false = Ok (path, c1) /\
    read_str lines' (index p') UPDATE_FILE_PREFIX false = Ok (path, c1') /\
    J c1 c1').
  { unfold read_str in *. rewrite <- (J_nth _ _ HJ).
    destruct (nth_error lines (index p)) as [l|]; [|discriminate].
    destruct (startsWith l UPDATE_FILE_PREFIX); eauto 6. }
  destruct R as (path & c1 & c1' & R & R' & HJ1).
  rewrite R in H. rewrite R'. cbn [bind] in H |- *.
  destruct (truthy path).
  { rewrite F_has.
    destruct (has_property (actions (patch p)) path) eqn:Eh; [discriminate|].
    destruct (read_str lines c1 MOVE_FILE_TO_PREFIX false)
      as [[moveTo c2]| |] eqn:Em; cbn [bind] in H; try discriminate.
    destruct (sim_read_str _ _ MOVE_FILE_TO_PREFIX _ _ eq_refl eq_refl HJ1 Em)
      as (c2' & Em' & HJ2).
    rewrite Em'. cbn [bind].
    destruct (negb (has_property current_files path)); [discriminate|].
    destruct (parse_update_file fuel lines _ c2 (fuzz p))
      as [[[action c3] fz3]| |] eqn:Eu; cbn [bind] in H; try discriminate.
    destruct (sim_parse_update_file _ _ _ _ _ _ _ _ HJ2 Eu)
      as (c3' & Eu' & HJ3).
    rewrite Eu'. cbn [bind]. injection H as <-.
    eexists. split; [reflexivity|]. simpl. rewrite Hacts.
    destruct (F_set _ path
                (mkPatchAction (type action) (new_file action)
                   (chunks action) (or_undefined moveTo)) Hgood Eh)
      as [Hs Hg].
    now repeat split. }
  destruct (read_str lines c1 DELETE_FILE_PREFIX false)
    as [[path2 c2]| |] eqn:Ed; cbn [bind] in H; try discriminate.
  destruct (sim_read_str _ _ DELETE_FILE_PREFIX _ _ eq_refl eq_refl HJ1 Ed)
    as (c2' & Ed' & HJ2).
  rewrite Ed'. cbn [bind].
  destruct (truthy path2).
  { rewrite F_has.
    destruct (has_property (actions (patch p)) path2) eqn:Eh; [discriminate|].
    destruct (negb (has_property current_files path2)); [discriminate|].
    injection H as <-. eexists. split; [reflexivity|]. simpl. rewrite Hacts.
    destruct (F_set _ path2 (mkPatchAction DELETE None [] None) Hgood Eh)
      as [Hs Hg].
    now repeat split. }
  destruct (read_str lines c2 ADD_FILE_PREFIX false)
    as [[path3 c3]| |] eqn:Ea; cbn [bind] in H; try discriminate.
  destruct (sim_read_str _ _ ADD_FILE_PREFIX _ _ eq_refl eq_refl HJ2 Ea)
    as (c3' & Ea' & HJ3).
  rewrite Ea'. cbn [bind].
  destruct (truthy path3); [|discriminate].
  rewrite F_has.
  destruct (has_property (actions (patch p)) path3) eqn:Eh; [discriminate|].
  destruct (has_property current_files path3); [discriminate|].
  destruct (parse_add_file lines c3) as [[action c4]| |] eqn:Ef;
    cbn [bind] in H; try discriminate.
  destruct (sim_parse_add_file _ _ _ _ HJ3 Ef) as (c4' & Ef' & HJ4).
  rewrite Ef'. cbn [bind]. injection H as <-.
  eexists. split; [reflexivity|]. simpl. rewrite Hacts.
  destruct (F_set _ path3 action Hgood Eh) as [Hs Hg].
  now repeat split.
Qed.

End Simulation.

Lemma own_get_app {A} (r1 r2 : JsRecord A) (x : jsstring) :
  own_get (r1 ++ r2) x = match own_get r1 x with
                         | Some v => Some v
                         | None => own_get r2 x
                         end.
Proof.
  induction r1 as [|[k v] r1 IH]; simpl; [reflexivity|].
  now destruct (jseqb k x).
Qed.

Lemma own_set_fresh {A} (r : JsRecord A) (x : jsstring) (v : A) :
  own_get r x = None -> own_set r x v = r ++ [(x, v)].
Proof.
  induction r as [|[k w] r IH]; simpl; [reflexivity|].
  destruct (jseqb k x); [discriminate|]. intros H. now rewrite IH.
Qed.

Lemma has_property_false {A} (r : JsRecord A) (x : jsstring) :
  has_property r x = false -> own_get r x = None.
Proof. unfold has_property. now destruct (own_get r x). Qed.

Lemma with_move_path_own_get (path newpath : jsstring)
  (acts : JsRecord PatchAction) (x : jsstring) :
  own_get (with_move_path path newpath acts) x
  = match own_get acts x with
    | Some a => Some (if jseqb x path then set_move_path newpath a else a)
    | None => None
    end.
Proof.
  induction acts as [|[k v] acts IH]; simpl; [reflexivity|].
  destruct (jseqb k path) eqn:Ek; simpl;
    destruct (jseqb k x) eqn:Ex; try exact IH;
    apply jseqb_true_iff in Ex; subst x; now rewrite Ek.
Qed.

Lemma with_move_path_has (path newpath : jsstring)
  (acts : JsRecord PatchAction) (x : jsstring) :
  has_property (with_move_path path newpath acts) x = has_property acts x.
Proof.
  unfold has_property. rewrite with_move_path_own_get.
  now destruct (own_get acts x).
Qed.

Lemma with_move_path_absent (path newpath : jsstring)
  (acts : JsRecord PatchAction) :
  own_get acts path = None -> with_move_path path newpath acts = acts.
Proof.
  induction acts as [|[k v] acts IH]; simpl; [reflexivity|].
  destruct (jseqb k path); [discriminate|]. intros H. now rewrite IH.
Qed.

Lemma with_move_path_app (path newpath : jsstring)
  (a1 a2 : JsRecord PatchAction) :
  with_move_path path newpath (a1 ++ a2)
  = with_move_path path newpath a1 ++ with_move_path path newpath a2.
Proof. apply map_app. Qed.

(** An action in the patch stays when an action for another path is set. *)
Lemma with_move_path_set (path newpath : jsstring)
  (acts : JsRecord PatchAction) (x : jsstring) (v : PatchAction) :
  (exists a, own_get acts path = Some a /\ type a = UPDATE /\
             move_path a = None) ->
  has_property acts x = false ->
  own_set (with_move_path path newpath acts) x v
  = with_move_path path newpath (own_set acts x v) /\
  (exists a, own_get (own_set acts x v) path = Some a /\ type a = UPDATE /\
             move_path a = None).
Proof.
  intros (a & Ha & Ht & Hm) Hx. apply has_property_false in Hx.
  assert (Hne : jseqb x path = false).
  { apply jseqb_false_iff. intros ->. congruence. }
  rewrite (own_set_fresh acts x v Hx). split.
  - rewrite own_set_fresh
      by (rewrite with_move_path_own_get; now rewrite Hx).
    rewrite with_move_path_app. simpl. now rewrite Hne.
  - exists a. rewrite own_get_app, Ha. now repeat split.
Qed.

Lemma parse_update_file_type (fuel : nat) (lines : list jsstring)
  (text : jsstring) (c : nat) (fz : Z) (action : PatchAction) (e : nat)
  (fz1 : Z) :
  parse_update_file fuel lines text c fz = Ok (action, e, fz1) ->
  type action = UPDATE /\ new_file action = None /\ move_path action = None.
Proof.
  unfold parse_update_file.
  destruct (parse_update_loop fuel lines (split_nl text) [] 0 c fz)
    as [[[cs c1] fz2]| |]; cbn [bind]; try discriminate.
  intros [= <- _ _]. now repeat split.
Qed.

Section MoveHeader.

(** A patch whose line [length pre] is the Update header of [path], read
    without and with a move-to header after it. *)
Variables pre post : list jsstring.
Variables path newpath : jsstring.

Hypothesis path_not_empty : path <> [].
Hypothesis newpath_not_empty : newpath <> [].
Hypothesis no_end_before :
  Forall (fun l => startsWith l PATCH_SUFFIX = false) pre.
Hypothesis no_move_after :
  startsWith (nth 0 post []) MOVE_FILE_TO_PREFIX = false.

Local Abbreviation header := (UPDATE_FILE_PREFIX ++ path).
Local Abbreviation move_header := (MOVE_FILE_TO_PREFIX ++ newpath).
Local Abbreviation plain := (pre ++ header :: post).
Local Abbreviation moved := (pre ++ header :: move_header :: post).
Local Abbreviation before :=
  (fun i i' : nat => (i <= length pre)%nat /\ i' = i).
Local Abbreviation after :=
  (fun i i' : nat => (length pre < i)%nat /\ i' = S i).
Local Abbreviation has_update acts :=
  (exists a, own_get acts path = Some a /\ type a = UPDATE /\
             move_path a = None).

Lemma header_at_plain : nth_error plain (length pre) = Some header.
Proof. rewrite nth_error_app2, Nat.sub_diag by lia. reflexivity. Qed.

Lemma header_at_moved : nth_error moved (length pre) = Some header.
Proof. rewrite nth_error_app2, Nat.sub_diag by lia. reflexivity. Qed.

Lemma before_nth (i i' : nat) :
  before i i' -> nth_error plain i = nth_error moved i'.
Proof.
  intros [Hi ->]. destruct (Nat.eq_dec i (length pre)) as [->|Hne].
  - now rewrite header_at_plain, header_at_moved.
  - now rewrite !nth_error_app1 by lia.
Qed.

Lemma before_next (i i' : nat) (l : jsstring) :
  before i i' -> nth_error plain i = Some l ->
  startsWith l UPDATE_FILE_PREFIX = false -> before (S i) (S i').
Proof.
  intros [Hi ->] Hl Hs. split; [|reflexivity].
  destruct (Nat.eq_dec i (length pre)) as [->|Hne]; [|lia].
  rewrite header_at_plain in Hl. assert (E : l = header) by congruence.
  rewrite E, startsWith_app in Hs. discriminate.
Qed.

Lemma after_nth (i i' : nat) :
  after i i' -> nth_error plain i = nth_error moved i'.
Proof.
  intros [Hi ->]. rewrite !nth_error_app2 by lia.
  replace (S i - length pre)%nat with (S (i - length pre)) by lia.
  destruct (i - length pre)%nat as [|m] eqn:E; [lia|]. reflexivity.
Qed.

Lemma after_next (i i' : nat) (l : jsstring) :
  after i i' -> nth_error plain i = Some l ->
  startsWith l UPDATE_FILE_PREFIX = false -> after (S i) (S i').
Proof. intros [Hi ->] _ _. split; [lia|reflexivity]. Qed.

(** Up to the header no line ends the patch. *)
Lemma not_done_before (i : nat) :
  (i <= length pre)%nat -> is_done plain i [PATCH_SUFFIX] = false.
Proof.
  intros Hi. unfold is_done.
  destruct (Nat.eq_dec i (length pre)) as [->|Hne].
  - rewrite header_at_plain. unfold starts_with_any. cbn [existsb].
    change (trim PATCH_SUFFIX) with PATCH_SUFFIX.
    destruct (startsWith header PATCH_SUFFIX) eqn:E; [|reflexivity].
    destruct (startsWith_both header UPDATE_FILE_PREFIX PATCH_SUFFIX
                (startsWith_app _ _) E); discriminate.
  - rewrite nth_error_app1 by lia.
    destruct (nth_error pre i) as [l|] eqn:E.
    + unfold starts_with_any. cbn [existsb].
      change (trim PATCH_SUFFIX) with PATCH_SUFFIX.
      rewrite Forall_forall in no_end_before.
      rewrite (no_end_before l); [reflexivity|].
      eapply nth_error_In; eauto.
    + apply nth_error_None in E. lia.
Qed.

(** After the header the two parsers go side by side. *)
Lemma parse_loop_after (current_files : JsRecord jsstring) (fuel : nat) :
  forall p p' r,
  after (index p) (index p') -> fuzz p' = fuzz p ->
  actions (patch p') = with_move_path path newpath (actions (patch p)) ->
  has_update (actions (patch p)) ->
  parse_loop fuel current_files plain p = Ok r ->
  exists r',
    parse_loop fuel current_files moved p' = Ok r' /\
    after (index r) (index r') /\ fuzz r' = fuzz r /\
    actions (patch r') = with_move_path path newpath (actions (patch r)) /\
    has_update (actions (patch r)).
Proof.
  induction fuel as [|fuel IH]; intros p p' r HJ Hfz Hacts Hgood H;
    [discriminate|].
  cbn [parse_loop] in H |- *.
  rewrite (sim_is_done plain moved _ after_nth _ _ _ HJ).
  destruct (is_done plain (index p) [PATCH_SUFFIX]).
  { injection H as <-. exists p'. now repeat split. }
  destruct (parse_directive fuel current_files plain p) as [q| |] eqn:Ed;
    cbn [bind] in H; try discriminate.
  destruct (sim_parse_directive plain moved _ after_nth after_next
              (with_move_path path newpath) (fun acts => has_update acts)
              (with_move_path_has path newpath)
              (with_move_path_set path newpath)
              fuel current_files p p' q HJ)
    as (q' & Ed' & HJq & Hfq & Haq & Hgq); auto.
  { destruct HJ as [Hi ->]. split; [lia|reflexivity]. }
  rewrite Ed'. cbn [bind]. now apply (IH q).
Qed.

(** The directive at the header: the second parser reads the move-to header
    and records it. *)
Lemma parse_directive_header (current_files : JsRecord jsstring)
  (fuel : nat) (p q : Parser) :
  index p = length pre ->
  parse_directive fuel current_files plain p = Ok q ->
  exists q',
    parse_directive fuel current_files moved p = Ok q' /\
    after (index q) (index q') /\ fuzz q' = fuzz q /\
    actions (patch q') = with_move_path path newpath (actions (patch q)) /\
    has_update (actions (patch q)).
Proof.
  intros Hk H. unfold parse_directive in *. rewrite Hk in *.
  assert (R : forall ls : list jsstring,
    nth_error ls (length pre) = Some header ->
    read_str ls (length pre) UPDATE_FILE_PREFIX false
    = Ok (path, S (length pre))).
  { intros ls E. unfold read_str. rewrite E, startsWith_app.
    now rewrite skipn_prefix. }
  rewrite (R _ header_at_plain) in H. rewrite (R _ header_at_moved).
  cbn [bind] in H |- *.
  assert (Htr : forall s : jsstring, s <> [] -> truthy s = true)
    by (intros [|c s] Hs; [congruence|reflexivity]).
  rewrite (Htr path path_not_empty) in *.
  destruct (has_property (actions (patch p)) path) eqn:Eh; [discriminate|].
  assert (M : read_str moved (S (length pre)) MOVE_FILE_TO_PREFIX false
              = Ok (newpath, S (S (length pre)))).
  { unfold read_str. rewrite nth_error_app2 by lia.
    replace (S (length pre) - length pre)%nat with 1%nat by lia.
    cbn [nth_error]. rewrite startsWith_app. now rewrite skipn_prefix. }
  rewrite M. cbn [bind].
  assert (N : exists l post', post = l :: post' /\
    read_str plain (S (length pre)) MOVE_FILE_TO_PREFIX false
    = Ok ([], S (length pre))).
  { unfold read_str in *. rewrite nth_error_app2 in * by lia.
    replace (S (length pre) - length pre)%nat with 1%nat in * by lia.
    cbn [nth_error] in *. destruct post as [|l post']; [discriminate|].
    exists l, post'. split; [reflexivity|]. simpl in no_move_after |- *.
    now rewrite no_move_after. }
  destruct N as (l & post' & _ & N). rewrite N in H. cbn [bind] in H.
  destruct (negb (has_property current_files path)); [discriminate|].
  destruct (parse_update_file fuel plain _ (S (length pre)) (fuzz p))
    as [[[action c3] fz3]| |] eqn:Eu; cbn [bind] in H; try discriminate.
  destruct (sim_parse_update_file plain moved _ after_nth after_next
              fuel _ (S (length pre)) (S (S (length pre))) _ _ _ _
              (conj (Nat.lt_succ_diag_r _) eq_refl) Eu)
    as (c3' & Eu' & HJ3).
  rewrite Eu'. cbn [bind]. injection H as <-.
  destruct (parse_update_file_type _ _ _ _ _ _ _ _ Eu) as (Ht & _ & _).
  eexists. split; [reflexivity|]. simpl. apply has_property_false in Eh.
  rewrite !(own_set_fresh _ _ _ Eh), with_move_path_app.
  rewrite (with_move_path_absent _ _ _ Eh). simpl. rewrite jseqb_refl.
  unfold set_move_path, or_undefined. simpl.
  rewrite (Htr newpath newpath_not_empty).
  repeat split; try apply HJ3.
  eexists. rewrite own_get_app, Eh. simpl. rewrite jseqb_refl.
  now repeat split.
Qed.

(** Before the header the two parsers are in the same state. *)
Lemma parse_loop_before (current_files : JsRecord jsstring) (fuel : nat) :
  forall p r,
  (index p <= length pre)%nat ->
  parse_loop fuel current_files plain p = Ok r ->
  exists r',
    parse_loop fuel current_files moved p = Ok r' /\
    after (index r) (index r') /\ fuzz r' = fuzz r /\
    actions (patch r') = with_move_path path newpath (actions (patch r)) /\
    has_update (actions (patch r)).
Proof.
  induction fuel as [|fuel IH]; intros p r Hi H; [discriminate|].
  cbn [parse_loop] in H |- *.
  rewrite (sim_is_done plain moved _ before_nth (index p) (index p))
    by now split.
  rewrite (not_done_before _ Hi) in *.
  destruct (parse_directive fuel current_files plain p) as [q| |] eqn:Ed;
    cbn [bind] in H; try discriminate.
  destruct (Nat.eq_dec (index p) (length pre)) as [Hk|Hne].
  - destruct (parse_directive_header _ _ _ _ Hk Ed)
      as (q' & Ed' & HJq & Hfq & Haq & Hgq).
    rewrite Ed'. cbn [bind].
    now apply (parse_loop_after current_files fuel q q' r).
  - destruct (sim_parse_directive plain moved _ before_nth before_next
                (fun acts => acts) (fun _ => True)
                (fun _ _ => eq_refl) (fun _ _ _ _ _ => conj eq_refl I)
                fuel current_files p p q)
      as (q' & Ed' & [Hiq Hq] & Hfq & Haq & _); auto.
    { split; [lia|reflexivity]. }
    assert (q' = q) as ->.
    { destruct q as [qi [qa] qf], q' as [qi' [qa'] qf']. simpl in *.
      now subst. }
    rewrite Ed'. cbn [bind]. now apply IH.
Qed.

(** The envelope of the text with the move-to header passes when that of the
    text without it does. *)
Lemma envelope_moved :
  too_short plain || bad_prefix plain || bad_suffix plain = false ->
  (1 <= length pre)%nat /\
  too_short moved || bad_prefix moved || bad_suffix moved = false.
Proof.
  intros E. apply orb_false_iff in E as [E Esuf].
  apply orb_false_iff in E as [_ Epre].
  assert (Hpre : (1 <= length pre)%nat).
  { destruct pre as [|l0 pre0]; [|simpl; lia]. exfalso.
    unfold bad_prefix in Epre. simpl nth in Epre.
    apply negb_false_iff in Epre.
    change (trim PATCH_PREFIX) with (str "*** Begin Patch") in Epre.
    destruct (startsWith_both header UPDATE_FILE_PREFIX
                (str "*** Begin Patch") (startsWith_app _ _) Epre);
      discriminate. }
  assert (Hpost : (1 <= length post)%nat).
  { destruct post as [|l0 post0]; [|simpl; lia]. exfalso.
    unfold bad_suffix in Esuf. apply negb_false_iff in Esuf.
    rewrite length_app in Esuf. simpl length in Esuf.
    rewrite app_nth2 in Esuf by lia.
    replace (length pre + 1 - 1 - length pre)%nat with 0%nat in Esuf by lia.
    simpl nth in Esuf. apply jseqb_true_iff in Esuf.
    assert (Hs : startsWith (trim PATCH_SUFFIX) UPDATE_FILE_PREFIX = true)
      by (rewrite <- Esuf; apply (startsWith_app UPDATE_FILE_PREFIX path)).
    discriminate. }
  split; [exact Hpre|].
  assert (Hshort : too_short moved = false).
  { unfold too_short. apply Nat.ltb_ge. rewrite length_app. simpl. lia. }
  assert (Hp : bad_prefix moved = bad_prefix plain).
  { unfold bad_prefix. now rewrite !app_nth1 by lia. }
  assert (Hs : bad_suffix moved = bad_suffix plain).
  { unfold bad_suffix. rewrite !length_app. simpl length.
    rewrite !app_nth2 by lia.
    replace (length pre + S (S (length post)) - 1 - length pre)%nat
      with (S (S (length post - 1))) by lia.
    replace (length pre + S (length post) - 1 - length pre)%nat
      with (S (length post - 1)) by lia.
    reflexivity. }
  now rewrite Hshort, Hp, Hs, Epre, Esuf.
Qed.

(** C6, as the code has it: the move-to header is spelled
    [*** Move File to: ]. Take a patch text that [text_to_patch] reads with
    success, in which the line [length pre] is the Update header of a path
    that is not empty, no line before it starts with the end-patch marker
    and the line after it is no move-to header. The text with the line
    [*** Move File to: newpath] put after that header, [newpath] not empty, is
    read with success too, with the same fuzz and the same patch except that
    the Update action of the path has [newpath] as its [move_path]. *)
Theorem move_header_recorded (fuel : nat) (text text' : jsstring)
  (orig : JsRecord jsstring) (P : Patch) (fz : Z) :
  split_nl (trim text) = plain ->
  split_nl (trim text') = moved ->
  text_to_patch fuel text orig = Ok (P, fz) ->
  exists action,
    own_get (actions P) path = Some action /\
    type action = UPDATE /\ move_path action = None /\
    text_to_patch fuel text' orig
    = Ok (mkPatch (with_move_path path newpath (actions P)), fz) /\
    own_get (with_move_path path newpath (actions P)) path
    = Some (set_move_path newpath action).
Proof.
  intros HT HM H. unfold text_to_patch in *. rewrite HT in H. rewrite HM.
  destruct (too_short plain || bad_prefix plain || bad_suffix plain) eqn:Eenv;
    [discriminate|].
  destruct (envelope_moved Eenv) as [Hpre Eenv']. rewrite Eenv'.
  destruct (parse fuel orig plain (mkParser 1 (mkPatch []) 0))
    as [parser| |] eqn:Ep; cbn [bind] in H; try discriminate.
  injection H as <- <-. unfold parse in *.
  destruct (parse_loop fuel orig plain (mkParser 1 (mkPatch []) 0))
    as [r| |] eqn:El; cbn [bind] in Ep; try discriminate.
  destruct (parse_loop_before orig fuel (mkParser 1 (mkPatch []) 0) r Hpre El)
    as (r' & El' & HJ & Hfz & Hacts & (action & Ha & Ht & Hm)).
  rewrite El'. cbn [bind]. unfold startswith in *.
  rewrite <- (after_nth _ _ HJ).
  destruct (nth_error plain (index r)) as [l|]; cbn [bind] in Ep |- *;
    try discriminate.
  destruct (negb (startsWith l (trim PATCH_SUFFIX))); [discriminate|].
  injection Ep as <-. simpl.
  exists action. repeat split; try assumption.
  - rewrite Hfz. destruct (patch r') as [acts']. simpl in Hacts.
    now rewrite Hacts.
  - rewrite with_move_path_own_get, Ha. now rewrite jseqb_refl.
Qed.

End MoveHeader.

(** ** A loop that does not end *)

Lemma starts_with_conflict (l p q : jsstring) :
  startsWith p q = false -> startsWith q p = false ->
  startsWith l p = true -> startsWith l q = false.
Proof.
  intros H1 H2 Hp. destruct (startsWith l q) eqn:E; [|reflexivity].
  destruct (startsWith_both l p q Hp E); congruence.
Qed.

Lemma stuck_line_facts (l : jsstring) :
  stuck_line l ->
  starts_with_any l update_boundaries = false /\
  startsWith l (str "@@ ") = false /\
  jseqb l (str "@@") = false /\
  jseqb l END_OF_FILE_PREFIX = false /\
  (starts_with_any l section_boundaries = true \/ jseqb l (str "***") = true).
Proof.
  intros [(H1 & H2 & H3)| ->].
  - assert (C : forall q, startsWith (str "@@") q = false ->
                          startsWith q (str "@@") = false ->
                          startsWith l q = false)
      by (intros q A B; now apply (starts_with_conflict l (str "@@") q)).
    repeat split.
    + unfold starts_with_any, update_boundaries. cbn [existsb].
      rewrite !C by reflexivity. reflexivity.
    + exact H2.
    + now apply jseqb_false_iff.
    + apply jseqb_false_iff. intros ->. discriminate.
    + left. unfold starts_with_any, section_boundaries. cbn [existsb].
      change (trim (str "@@")) with (str "@@"). now rewrite H1.
  - repeat split; try reflexivity. now right.
Qed.

(** At a stuck line, with nothing of the file matched yet, a turn of the loop
    leaves the chunks, the position in the file, the cursor and the fuzz as
    they were. *)
Lemma parse_hunk_stuck (lines fileLines : list jsstring) (acc : list Chunk)
  (cursor : nat) (fz : Z) (l : jsstring) :
  nth_error lines cursor = Some l -> stuck_line l ->
  parse_hunk lines fileLines acc 0 cursor fz = Ok (acc, 0, cursor, fz).
Proof.
  intros Hl Hs.
  destruct (stuck_line_facts l Hs) as (_ & H2 & H3 & H4 & H5).
  unfold parse_hunk, read_str. rewrite Hl, H2. cbn [bind].
  rewrite Hl. change (truthy []) with false. cbn [negb andb orb]. rewrite H3.
  cbn [Z.eqb negb orb].
  unfold peek_next_section. rewrite (skipn_nth_error lines cursor), Hl.
  cbn [peek_loop].
  assert (Hf : peek_finish (l :: skipn (S cursor) lines) cursor [] [] [] []
               = ([], [], cursor, false)).
  { unfold peek_finish, flush. cbn [length Nat.eqb negb orb]. now rewrite H4. }
  destruct (starts_with_any l section_boundaries) eqn:E1.
  - rewrite Hf. cbn [bind]. unfold find_context. rewrite find_context_core_empty.
    cbn. now rewrite app_nil_r, Z.add_0_r.
  - destruct H5 as [H5|H5]; [discriminate|]. rewrite H5, Hf. cbn [bind].
    unfold find_context. rewrite find_context_core_empty.
    cbn. now rewrite app_nil_r, Z.add_0_r.
Qed.

Lemma parse_update_file_stuck (lines : list jsstring) (text : jsstring)
  (cursor : nat) (fz : Z) (l : jsstring) :
  nth_error lines cursor = Some l -> stuck_line l ->
  forall fuel, parse_update_file fuel lines text cursor fz = OutOfFuel.
Proof.
  intros Hl Hs fuel. unfold parse_update_file.
  assert (L : forall acc,
    parse_update_loop fuel lines (split_nl text) acc 0 cursor fz = OutOfFuel).
  { induction fuel as [|fuel IH]; intros acc; [reflexivity|].
    cbn [parse_update_loop]. unfold is_done. rewrite Hl.
    destruct (stuck_line_facts l Hs) as (H1 & _). rewrite H1.
    rewrite (parse_hunk_stuck lines _ acc cursor fz l Hl Hs). cbn [bind].
    apply IH. }
  now rewrite L.
Qed.

Lemma stuck_line_no_move (l : jsstring) :
  stuck_line l -> startsWith l MOVE_FILE_TO_PREFIX = false.
Proof.
  intros [(H1 & _)| ->]; [|reflexivity].
  now apply (starts_with_conflict l (str "@@")).
Qed.

(** X1: [text_to_patch] does not return on a patch whose first directive is the
    Update header of a known file followed by a stuck line (a line such as
    [@@x], or the bare [***]): whatever the fuel, the parse is still in the
    loop of [parse_update_file]. *)
Theorem text_to_patch_stuck (text : jsstring) (orig : JsRecord jsstring)
  (first path l : jsstring) (rest : list jsstring) :
  split_nl (trim text) = first :: (UPDATE_FILE_PREFIX ++ path) :: l :: rest ->
  startsWith first (str "*** Begin Patch") = true ->
  bad_suffix (split_nl (trim text)) = false ->
  path <> [] -> inherited path = false -> has_property orig path = true ->
  stuck_line l ->
  forall fuel, text_to_patch fuel text orig = OutOfFuel.
Proof.
  intros Hlines Hfirst Hlast Hpath Hinh Horig Hs fuel.
  unfold text_to_patch. rewrite Hlast, Hlines.
  unfold too_short, bad_prefix. cbn [length nth Nat.ltb Nat.leb].
  change (trim PATCH_PREFIX) with (str "*** Begin Patch"). rewrite Hfirst.
  cbn [negb orb]. unfold parse.
  destruct fuel as [|fuel]; [reflexivity|].
  cbn [parse_loop index]. unfold is_done. cbn [nth_error].
  assert (Hend : starts_with_any (UPDATE_FILE_PREFIX ++ path) [PATCH_SUFFIX]
                 = false).
  { unfold starts_with_any. cbn [existsb].
    change (trim PATCH_SUFFIX) with PATCH_SUFFIX.
    rewrite (starts_with_conflict _ UPDATE_FILE_PREFIX PATCH_SUFFIX);
      reflexivity. }
  rewrite Hend. unfold parse_directive, read_str. cbn [index nth_error].
  rewrite startsWith_app, skipn_prefix. cbn [bind].
  assert (Htr : truthy path = true)
    by (destruct path; [congruence|reflexivity]).
  rewrite Htr. cbn [patch actions]. unfold has_property at 1. cbn [own_get].
  rewrite Hinh. cbn [nth_error]. rewrite (stuck_line_no_move l Hs).
  cbn [bind]. rewrite Horig.
  cbn [negb fuzz].
  rewrite (parse_update_file_stuck
             (first :: (UPDATE_FILE_PREFIX ++ path) :: l :: rest) _ 2 0 l
             eq_refl Hs fuel).
  reflexivity.
Qed.

(** ** Joining and splitting lines *)

Lemma split_nl_not_nil (s : jsstring) : split_nl s <> [].
Proof.
  destruct s as [|c s]; simpl; [discriminate|].
  destruct (N.eqb c LF); [discriminate|]. destruct (split_nl s); discriminate.
Qed.

Lemma join_nl_cons (l : jsstring) (ls : list jsstring) :
  ls <> [] -> join_nl (l :: ls) = l ++ LF :: join_nl ls.
Proof. destruct ls; [congruence|reflexivity]. Qed.

Lemma join_split_nl (s : jsstring) : join_nl (split_nl s) = s.
Proof.
  induction s as [|c s IH]; [reflexivity|]. cbn [split_nl].
  destruct (N.eqb_spec c LF) as [->|Hc].
  - rewrite join_nl_cons by apply split_nl_not_nil. now rewrite IH.
  - pose proof (split_nl_not_nil s) as Hne.
    destruct (split_nl s) as [|l ls]; [congruence|].
    destruct ls as [|l' ls].
    + cbn in *. now rewrite IH.
    + rewrite join_nl_cons in * by discriminate.
      cbn [app]. now rewrite IH.
Qed.

Lemma slice_from_zero {A} (l : list A) : slice_from l 0 = l.
Proof. now rewrite slice_from_nonneg by lia. Qed.

(** X3: an Update action without chunks gives the original text back, whatever
    the text: joining the lines of a split restores every character. *)
Theorem get_updated_file_no_chunks (text : jsstring) (action : PatchAction)
  (path : jsstring) :
  type action = UPDATE -> chunks action = [] ->
  _get_updated_file text action path = Ok text.
Proof.
  intros Ht Hc. unfold _get_updated_file. rewrite Ht, Hc. cbn.
  now rewrite slice_from_zero, join_split_nl.
Qed.

Lemma apply_chunks_same_edits (path : jsstring) (origLines : list jsstring)
  (cs1 cs2 : list Chunk) :
  same_edits cs1 cs2 ->
  forall destLines origIndex r,
  apply_chunks path origLines cs1 destLines origIndex = Ok r ->
  apply_chunks path origLines cs2 destLines origIndex = Ok r.
Proof.
  induction 1 as [|c1 c2 cs1 cs2 (Ho & Hd & Hi) _ IH];
    intros destLines origIndex r H; [exact H|].
  cbn [apply_chunks] in H |- *. rewrite <- Ho, <- Hi.
  replace (len (del_lines c2)) with (len (del_lines c1))
    by (unfold len; now rewrite Hd).
  destruct (orig_index c1 >? len origLines); [discriminate|].
  destruct (origIndex >? orig_index c1); [discriminate|].
  now apply IH.
Qed.

(** X4: the commit builder never reads the text of the deleted lines: when it
    accepts an action, it gives the same text for any action that differs from
    it by the text of deleted lines only (it skips as many original lines as
    a chunk deletes, whatever they are). *)
Theorem get_updated_file_ignores_deleted_text (text : jsstring)
  (a1 a2 : PatchAction) (path result : jsstring) :
  type a1 = type a2 -> same_edits (chunks a1) (chunks a2) ->
  _get_updated_file text a1 path = Ok result ->
  _get_updated_file text a2 path = Ok result.
Proof.
  intros Ht Hs H. unfold _get_updated_file in *. rewrite <- Ht.
  destruct (type a1); try discriminate.
  destruct (apply_chunks path (split_nl text) (chunks a1) [] 0)
    as [[d o]| |] eqn:E; cbn [bind] in H; try discriminate.
  now rewrite (apply_chunks_same_edits _ _ _ _ Hs _ _ _ E).
Qed.

(** ** The files a patch needs *)

Lemma existsb_jseqb (x : jsstring) (r : list jsstring) :
  existsb (jseqb x) r = true <-> In x r.
Proof.
  rewrite existsb_exists. split.
  - intros (y & Hy & E). apply jseqb_true_iff in E. now subst.
  - intros H. exists x. split; [exact H|apply jseqb_refl].
Qed.

Lemma set_add_In (r : list jsstring) (x y : jsstring) :
  In y (set_add r x) <-> In y r \/ y = x.
Proof.
  clear normalize_NFC. unfold set_add. destruct (existsb (jseqb x) r) eqn:E.
  - apply existsb_jseqb in E. split; [tauto|]. intros [H| ->]; assumption.
  - rewrite in_app_iff. simpl. intuition.
Qed.

Lemma set_add_NoDup (r : list jsstring) (x : jsstring) :
  NoDup r -> NoDup (set_add r x).
Proof.
  intros H. unfold set_add. destruct (existsb (jseqb x) r) eqn:E; [exact H|].
  assert (Hn : ~ In x r).
  { intros Hin. apply existsb_jseqb in Hin. congruence. }
  clear E. induction H as [|a r Ha Hr IH]; simpl.
  - constructor; [intros []|constructor].
  - constructor.
    + rewrite in_app_iff. simpl. intros [Hin|[->|[]]]; [contradiction|].
      apply Hn. now left.
    + apply IH. intros Hin. apply Hn. now right.
Qed.

Lemma needed_fold (lines : list jsstring) :
  forall acc,
  let result :=
    fold_left
      (fun result line =>
         let result :=
           if startsWith line UPDATE_FILE_PREFIX
           then set_add result (skipn (length UPDATE_FILE_PREFIX) line)
           else result in
         if startsWith line DELETE_FILE_PREFIX
         then set_add result (skipn (length DELETE_FILE_PREFIX) line)
         else result) lines acc in
  (NoDup acc -> NoDup result) /\
  (forall p, In p result <->
             In p acc \/
             exists line, In line lines /\ names_needed_file line p).
Proof.
  clear normalize_NFC. induction lines as [|line lines IH]; intros acc; cbn zeta.
  - simpl. split; [auto|]. intros p. split; [auto|].
    intros [H|(l & [] & _)]; exact H.
  - cbn [fold_left].
    set (acc1 := if startsWith line UPDATE_FILE_PREFIX
                 then set_add acc (skipn (length UPDATE_FILE_PREFIX) line)
                 else acc).
    set (acc2 := if startsWith line DELETE_FILE_PREFIX
                 then set_add acc1 (skipn (length DELETE_FILE_PREFIX) line)
                 else acc1).
    destruct (IH acc2) as [Hnd Hin]. cbn zeta in Hnd, Hin.
    assert (Hacc2 : forall p, In p acc2 <->
                              In p acc \/ names_needed_file line p).
    { intros p. unfold acc2, acc1, names_needed_file.
      destruct (startsWith line UPDATE_FILE_PREFIX);
        destruct (startsWith line DELETE_FILE_PREFIX);
        rewrite ?set_add_In; intuition congruence. }
    split.
    + intros Hacc. apply Hnd. unfold acc2, acc1.
      destruct (startsWith line UPDATE_FILE_PREFIX);
        destruct (startsWith line DELETE_FILE_PREFIX);
        repeat apply set_add_NoDup; exact Hacc.
    + intros p. rewrite Hin, Hacc2. split.
      * intros [[H|H]|(l & Hl & H)]; [now left| |].
        -- right. exists line. split; [now left|exact H].
        -- right. exists l. split; [now right|exact H].
      * intros [H|(l & [<-|Hl] & H)]; [now left; left|now left; right|].
        right. now exists l.
Qed.

(** X5: [identify_files_needed] returns, without repetition, exactly the paths
    of the Update and Delete headers among the lines of the trimmed text. *)
Theorem identify_files_needed_spec (text : jsstring) :
  NoDup (identify_files_needed text) /\
  forall p, In p (identify_files_needed text) <->
            exists line, In line (split_nl (trim text)) /\
                         names_needed_file line p.
Proof.
  unfold identify_files_needed.
  destruct (needed_fold (split_nl (trim text)) []) as [Hnd Hin].
  cbn zeta in Hnd, Hin. split; [apply Hnd; constructor|].
  intros p. rewrite Hin. split; [intros [[]|H]; exact H|now right].
Qed.

(** ** The chunks of one hunk *)

Lemma skipn_length_app {A} (l1 l2 : list A) : skipn (length l1) (l1 ++ l2) = l2.
Proof. induction l1 as [|a l1 IH]; simpl; [reflexivity|exact IH]. Qed.

Lemma lines_between_app (old x : list jsstring) (a b : Z) :
  0 <= a -> a <= b -> b <= len old ->
  lines_between (old ++ x) a b = lines_between old a b.
Proof.
  intros Ha Hab Hb. unfold lines_between, len in *.
  rewrite skipn_app, firstn_app, length_skipn.
  replace (Z.to_nat a - length old)%nat with 0%nat by lia.
  replace (Z.to_nat b - Z.to_nat a - (length old - Z.to_nat a))%nat
    with 0%nat by lia.
  cbn [skipn firstn]. now rewrite app_nil_r.
Qed.

Lemma chunk_deletes_grow (old x : list jsstring) (c : Chunk) :
  chunk_deletes old c -> chunk_deletes (old ++ x) c.
Proof.
  intros [[H0 Hn] Hd]. pose proof (len_nonneg (del_lines c)).
  pose proof (len_nonneg x). split; [split|].
  - exact H0.
  - rewrite len_app. lia.
  - rewrite lines_between_app by lia. exact Hd.
Qed.

Lemma flush_deletes (pre delLines insLines : list jsstring)
  (cs : list Chunk) :
  Forall (chunk_deletes (pre ++ delLines)) cs ->
  Forall (chunk_deletes (pre ++ delLines))
    (flush (pre ++ delLines) delLines insLines cs).
Proof.
  intros H. unfold flush.
  destruct (negb (Nat.eqb (length insLines) 0)
            || negb (Nat.eqb (length delLines) 0)); [|exact H].
  apply Forall_app. split; [exact H|]. constructor; [|constructor].
  pose proof (len_nonneg pre). pose proof (len_nonneg delLines).
  unfold chunk_deletes, chunk_in_file. cbn [orig_index del_lines].
  rewrite len_app. repeat split; try lia.
  unfold lines_between.
  replace (Z.to_nat (len pre + len delLines - len delLines))
    with (length pre) by (unfold len; lia).
  rewrite skipn_length_app.
  replace (Z.to_nat (len pre + len delLines - len delLines + len delLines)
           - length pre)%nat with (length delLines) by (unfold len; lia).
  apply firstn_all.
Qed.

Lemma peek_finish_deletes (rest : list jsstring) (index : nat)
  (old delLines insLines : list jsstring) (cs : list Chunk) :
  (exists pre, old = pre ++ delLines) ->
  Forall (chunk_deletes old) cs ->
  forall ctx cs' e eof,
  Ok (peek_finish rest index old delLines insLines cs)
  = Ok (ctx, cs', e, eof) ->
  Forall (chunk_deletes ctx) cs' /\
  (index <= e <= index + length rest)%nat.
Proof.
  intros [pre ->] H ctx cs' e eof. unfold peek_finish.
  pose proof (flush_deletes pre delLines insLines cs H) as Hf.
  destruct rest as [|s rest]; [|destruct (jseqb s END_OF_FILE_PREFIX)];
    intros [= <- <- <- _]; (split; [exact Hf|simpl; lia]).
Qed.

(** Every chunk of a hunk lies within the context block of the hunk, and
    its deleted lines are the lines of the context block at its
    [orig_index]; the cursor returned is at or after the one given. *)
Lemma peek_loop_deletes (rest : list jsstring) :
  forall index old delLines insLines cs mode ctx cs' e eof,
  (exists pre, old = pre ++ delLines) ->
  (mode = keep -> delLines = []) ->
  Forall (chunk_deletes old) cs ->
  peek_loop rest index old delLines insLines cs mode
  = Ok (ctx, cs', e, eof) ->
  Forall (chunk_deletes ctx) cs' /\
  (index <= e <= index + length rest)%nat.
Proof.
  induction rest as [|s rest IH];
    intros index old delLines insLines cs mode ctx cs' e eof Hold Hkeep Hcs H.
  - cbn [peek_loop] in H.
    eapply peek_finish_deletes; [exact Hold|exact Hcs|exact H].
  - cbn [peek_loop] in H.
    destruct (starts_with_any s section_boundaries);
      [eapply peek_finish_deletes; [exact Hold|exact Hcs|exact H]|].
    destruct (jseqb s (str "***"));
      [eapply peek_finish_deletes; [exact Hold|exact Hcs|exact H]|].
    destruct (startsWith s (str "***")); [discriminate|].
    assert (Hflush : Forall (chunk_deletes old)
                       (flush old delLines insLines cs)).
    { destruct Hold as [pre ->]. now apply flush_deletes. }
    assert (Hgrow : forall x cs0, Forall (chunk_deletes old) cs0 ->
                                  Forall (chunk_deletes (old ++ x)) cs0).
    { intros x cs0 H0. eapply Forall_impl; [|exact H0].
      intros c. apply chunk_deletes_grow. }
    assert (Bound : forall P : Prop,
      P /\ (S index <= e <= S index + length rest)%nat ->
      P /\ (index <= e <= index + length (s :: rest))%nat)
      by (intros P [HP Hb]; split; [exact HP|simpl; lia]).
    apply Bound. destruct (classify s) as [m line].
    destruct m, mode; cbn [Mode_eqb andb negb] in H;
      (eapply IH; [| | |exact H]);
      try (intros Hm; discriminate Hm); try (intros _; reflexivity);
      try exact Hold; try exact Hcs; try exact Hkeep;
      try (exists (old ++ [line]); now rewrite app_nil_r);
      try (apply Hgrow; assumption).
    all: try (destruct Hold as [pre ->]; exists pre; now rewrite app_assoc).
    rewrite (Hkeep eq_refl). exists (old ++ [line]). now rewrite app_nil_r.
Qed.

(** X7: the chunks that [peek_next_section] returns lie within the context
    block it returns, the deleted lines of each are the lines of the context
    block at its [orig_index], and the cursor it returns is between the one
    given and the end of the lines. *)
Theorem peek_next_section_chunks (lines : list jsstring) (i : nat)
  (ctx : list jsstring) (cs : list Chunk) (e : nat) (eof : bool) :
  peek_next_section lines i = Ok (ctx, cs, e, eof) ->
  Forall (chunk_deletes ctx) cs /\
  (i <= e)%nat /\ ((i <= length lines)%nat -> (e <= length lines)%nat).
Proof.
  unfold peek_next_section. intros H.
  destruct (peek_loop_deletes _ _ _ _ _ _ _ _ _ _ _
              (ex_intro _ [] eq_refl) (fun _ => eq_refl) (Forall_nil _) H)
    as [Hc Hb].
  rewrite length_skipn in Hb. repeat split; [exact Hc|lia|lia].
Qed.

(** ** Line feeds *)

Lemma lf_count_app (s t : jsstring) :
  lf_count (s ++ t) = (lf_count s + lf_count t)%nat.
Proof.
  induction s as [|c s IH]; simpl; [reflexivity|].
  destruct (N.eqb c LF); simpl; now rewrite IH.
Qed.

Lemma lf_count_rev (s : jsstring) : lf_count (rev s) = lf_count s.
Proof.
  induction s as [|c s IH]; simpl; [reflexivity|].
  rewrite lf_count_app, IH. simpl. destruct (N.eqb c LF); lia.
Qed.

Lemma lf_count_trimStart (s : jsstring) :
  (lf_count (trimStart s) <= lf_count s)%nat.
Proof.
  induction s as [|c s IH]; simpl; [lia|].
  destruct (is_white_space c); simpl; destruct (N.eqb c LF); lia.
Qed.

Lemma lf_count_trimEnd (s : jsstring) :
  (lf_count (trimEnd s) <= lf_count s)%nat.
Proof.
  unfold trimEnd. rewrite lf_count_rev.
  pose proof (lf_count_trimStart (rev s)). now rewrite lf_count_rev in H.
Qed.

Lemma lf_count_trim (s : jsstring) : (lf_count (trim s) <= lf_count s)%nat.
Proof.
  unfold trim. pose proof (lf_count_trimEnd (trimStart s)).
  pose proof (lf_count_trimStart s). lia.
Qed.

Lemma lf_count_skipn (n : nat) (s : jsstring) :
  (lf_count (skipn n s) <= lf_count s)%nat.
Proof.
  revert s. induction n as [|n IH]; intros [|c s]; simpl; try lia.
  specialize (IH s). destruct (N.eqb c LF); lia.
Qed.

Lemma classify_single (s : jsstring) :
  lf_count s = O -> lf_count (snd (classify s)) = O.
Proof.
  intros H. unfold classify.
  assert (H1 : lf_count (skipn 1 s) = O)
    by (pose proof (lf_count_skipn 1 s); lia).
  destruct s as [|c s]; [reflexivity|].
  destruct (N.eqb c 43); [exact H1|]. destruct (N.eqb c 45); [exact H1|].
  destruct (N.eqb c 32); [exact H1|exact H].
Qed.

Lemma single_lines_map (f : jsstring -> jsstring) (ls : list jsstring) :
  (forall l, (lf_count (f l) <= lf_count l)%nat) ->
  single_lines ls -> single_lines (map f ls).
Proof.
  intros Hf H. unfold single_lines in *. rewrite Forall_map.
  eapply Forall_impl; [|exact H]. intros l Hl. simpl in *.
  specialize (Hf l). lia.
Qed.

Lemma Forall_prefix {A} (P : A -> Prop) (n : nat) (l : list A) :
  Forall P l -> Forall P (firstn n l).
Proof.
  revert l. induction n as [|n IH]; intros [|a l] H; simpl;
    try constructor; [now apply Forall_inv in H|].
  apply IH. now apply Forall_inv_tail in H.
Qed.

Lemma Forall_suffix {A} (P : A -> Prop) (n : nat) (l : list A) :
  Forall P l -> Forall P (skipn n l).
Proof.
  revert l. induction n as [|n IH]; intros [|a l] H; simpl; try exact H.
  apply IH. now apply Forall_inv_tail in H.
Qed.

Lemma single_lines_slice (l : list jsstring) (b e : Z) :
  single_lines l -> single_lines (slice l b e).
Proof.
  intros H. unfold slice. now apply Forall_prefix, Forall_suffix.
Qed.

Lemma lf_count_join (ls : list jsstring) :
  single_lines ls -> lf_count (join_nl ls) = (length ls - 1)%nat.
Proof.
  induction ls as [|l ls IH]; intros H; [reflexivity|].
  pose proof (Forall_inv H) as Hl. apply Forall_inv_tail in H.
  destruct ls as [|l' ls]; [simpl in *; exact Hl|].
  rewrite join_nl_cons by discriminate.
  rewrite lf_count_app. cbn [lf_count]. rewrite N.eqb_refl, (IH H), Hl.
  simpl. lia.
Qed.

Lemma split_nl_single (s : jsstring) : single_lines (split_nl s).
Proof.
  induction s as [|c s IH]; [repeat constructor|]. cbn [split_nl].
  destruct (N.eqb c LF) eqn:Ec; [constructor; [reflexivity|exact IH]|].
  destruct (split_nl s) as [|l ls]; [repeat constructor; simpl; now rewrite Ec|].
  constructor; [|now apply Forall_inv_tail in IH].
  apply Forall_inv in IH. simpl. now rewrite Ec.
Qed.

Lemma table_get_pair (t : list (jschar * jschar)) (c r : jschar) :
  table_get t c = Some r -> In (c, r) t.
Proof.
  induction t as [|[k v] t IH]; simpl; [discriminate|].
  destruct (N.eqb_spec k c) as [->|_]; [intros [= ->]; now left|].
  intros H. right. now apply IH.
Qed.

(** The table neither holds nor gives a line feed. *)
Lemma punct_line_feed (c : jschar) : N.eqb (punct c) LF = N.eqb c LF.
Proof.
  unfold punct. destruct (table_get PUNCT_EQUIV c) as [r|] eqn:E;
    [|reflexivity].
  apply table_get_pair in E. simpl in E.
  repeat (destruct E as [E|E]; [injection E as <- <-; reflexivity|]).
  contradiction.
Qed.

Lemma lf_count_punct (s : jsstring) : lf_count (map punct s) = lf_count s.
Proof.
  induction s as [|c s IH]; simpl; [reflexivity|].
  now rewrite punct_line_feed, IH.
Qed.

(** The length of a window that starts inside the file. *)
Lemma slice_window_length {A} (l : list A) (i n : Z) :
  1 <= n -> 1 <= len l -> i < len l -> 0 <= i \/ len l <= i + n ->
  (1 <= length (slice l i (i + n)))%nat /\
  (length (slice l i (i + n)) = Z.to_nat n -> 0 <= i /\ i + n <= len l).
Proof.
  intros Hn Hl Hi Hs. unfold slice. rewrite length_firstn, length_skipn.
  unfold len in *.
  destruct (Z.ltb_spec i 0); destruct (Z.ltb_spec (i + n) 0); lia.
Qed.

(** ** What a parsed patch carries *)

(** What one turn of the loop of [parse_update_file] has done when it
    returns. *)
Lemma parse_hunk_returns (lines fileLines : list jsstring) (acc : list Chunk)
  (index : Z) (cursor : nat) (fz : Z) (acc' : list Chunk) (index' : Z)
  (cursor' : nat) (fz' : Z) :
  parse_hunk lines fileLines acc index cursor fz
  = Ok (acc', index', cursor', fz') ->
  exists c2 ctx cs eof newIndex fuzz,
    peek_next_section lines c2 = Ok (ctx, cs, cursor', eof) /\
    find_context fileLines ctx index eof = (newIndex, fuzz) /\
    newIndex <> -1 /\
    acc' = acc ++ map (shift_chunk newIndex) cs /\
    index' = newIndex + len ctx /\ fz' = fz + fuzz.
Proof.
  intros H. unfold parse_hunk in H.
  destruct (read_str lines cursor (str "@@ ") false) as [[defStr c1]| |];
    cbn [bind] in H; try discriminate.
  destruct (match nth_error lines c1 with
            | Some l =>
                if negb (truthy defStr) && jseqb l (str "@@")
                then (l, S c1) else ([], c1)
            | None => ([], c1)
            end) as [sectionStr c2].
  destruct (negb (truthy defStr || truthy sectionStr || (index =? 0)));
    [discriminate|].
  destruct (peek_next_section lines c2) as [[[[ctx cs] e] eof]| |] eqn:Ep;
    cbn [bind] in H; try discriminate.
  destruct (find_context fileLines ctx index eof) as [newIndex fuzz] eqn:Ef.
  destruct (Z.eqb_spec newIndex (-1)) as [|Hfound];
    [destruct eof; discriminate|].
  injection H as <- <- <- <-.
  exists c2, ctx, cs, eof, newIndex, fuzz. now repeat split.
Qed.

Lemma find_context_fuzz (lines context : list jsstring) (start : Z)
  (eof : bool) (i f : Z) :
  find_context lines context start eof = (i, f) -> 0 <= f.
Proof.
  unfold find_context. destruct eof.
  - destruct (find_context_core lines context (len lines - len context))
      as [i1 f1] eqn:E1.
    apply find_context_core_range in E1.
    destruct (negb (i1 =? -1)); [intros [= <- <-]; lia|].
    destruct (find_context_core lines context start) as [i2 f2] eqn:E2.
    apply find_context_core_range in E2. intros [= <- <-]. lia.
  - intros H. apply find_context_core_range in H. lia.
Qed.

Lemma parse_update_loop_fuzz (lines fileLines : list jsstring) :
  forall fuel acc index cursor fz acc' cursor' fz',
  parse_update_loop fuel lines fileLines acc index cursor fz
  = Ok (acc', cursor', fz') ->
  fz <= fz'.
Proof.
  induction fuel as [|fuel IH];
    intros acc index cursor fz acc' cursor' fz' H; [discriminate|].
  cbn [parse_update_loop] in H.
  destruct (is_done lines cursor update_boundaries).
  { injection H as _ _ <-. lia. }
  destruct (parse_hunk lines fileLines acc index cursor fz)
    as [[[[acc1 index1] c1] fz1]| |] eqn:Eh; cbn [bind] in H;
    try discriminate.
  apply IH in H.
  destruct (parse_hunk_returns _ _ _ _ _ _ _ _ _ _ Eh)
    as (c2 & ctx & cs & eof & newIndex & fuzz & _ & Ef & _ & _ & _ & ->).
  apply find_context_fuzz in Ef. lia.
Qed.

Lemma parse_directive_fuzz (current_files : JsRecord jsstring)
  (lines : list jsstring) (fuel : nat) (p q : Parser) :
  parse_directive fuel current_files lines p = Ok q -> fuzz p <= fuzz q.
Proof.
  intros H. unfold parse_directive in H.
  destruct (read_str lines (index p) UPDATE_FILE_PREFIX false)
    as [[path c1]| |]; cbn [bind] in H; try discriminate.
  destruct (truthy path).
  { destruct (has_property (actions (patch p)) path); [discriminate|].
    destruct (read_str lines c1 MOVE_FILE_TO_PREFIX false)
      as [[moveTo c2]| |]; cbn [bind] in H; try discriminate.
    destruct (negb (has_property current_files path)); [discriminate|].
    destruct (parse_update_file fuel lines _ c2 (fuzz p))
      as [[[action c3] fz3]| |] eqn:Eu; cbn [bind] in H; try discriminate.
    injection H as <-. simpl.
    unfold parse_update_file in Eu.
    destruct (parse_update_loop fuel lines _ [] 0 c2 (fuzz p))
      as [[[cs c4] fz4]| |] eqn:El; cbn [bind] in Eu; try discriminate.
    injection Eu as _ _ <-. now apply parse_update_loop_fuzz in El. }
  destruct (read_str lines c1 DELETE_FILE_PREFIX false)
    as [[path2 c2]| |]; cbn [bind] in H; try discriminate.
  destruct (truthy path2).
  { destruct (has_property (actions (patch p)) path2); [discriminate|].
    destruct (negb (has_property current_files path2)); [discriminate|].
    injection H as <-. simpl. lia. }
  destruct (read_str lines c2 ADD_FILE_PREFIX false)
    as [[path3 c3]| |]; cbn [bind] in H; try discriminate.
  destruct (truthy path3); [|discriminate].
  destruct (has_property (actions (patch p)) path3); [discriminate|].
  destruct (has_property current_files path3); [discriminate|].
  destruct (parse_add_file lines c3) as [[action c4]| |] eqn:Ea;
    cbn [bind] in H; try discriminate.
  injection H as <-. simpl. lia.
Qed.

Lemma parse_loop_fuzz (current_files : JsRecord jsstring)
  (lines : list jsstring) :
  forall fuel p r,
  parse_loop fuel current_files lines p = Ok r -> fuzz p <= fuzz r.
Proof.
  induction fuel as [|fuel IH]; intros p r H; [discriminate|].
  cbn [parse_loop] in H.
  destruct (is_done lines (index p) [PATCH_SUFFIX]);
    [injection H as <-; lia|].
  destruct (parse_directive fuel current_files lines p) as [q| |] eqn:Ed;
    cbn [bind] in H; try discriminate.
  apply IH in H. apply parse_directive_fuzz in Ed. lia.
Qed.

(** What [parse] returns is what its loop has left, the cursor apart. *)
Lemma parse_returns (fuel : nat) (current_files : JsRecord jsstring)
  (lines : list jsstring) (p r : Parser) :
  parse fuel current_files lines p = Ok r ->
  exists q, parse_loop fuel current_files lines p = Ok q /\
            patch r = patch q /\ fuzz r = fuzz q.
Proof.
  unfold parse.
  destruct (parse_loop fuel current_files lines p) as [q| |];
    cbn [bind]; try discriminate.
  destruct (startswith lines (index q) (trim PATCH_SUFFIX)) as [ok| |];
    cbn [bind]; try discriminate.
  destruct (negb ok); [discriminate|]. intros [= <-]. now exists q.
Qed.

Lemma text_to_patch_returns (fuel : nat) (text : jsstring)
  (orig : JsRecord jsstring) (p : Patch) (fz : Z) :
  text_to_patch fuel text orig = Ok (p, fz) ->
  exists q,
    parse_loop fuel orig (split_nl (trim text)) (mkParser 1 (mkPatch []) 0)
    = Ok q /\ p = patch q /\ fz = fuzz q.
Proof.
  unfold text_to_patch.
  destruct (too_short _ || bad_prefix _ || bad_suffix _); [discriminate|].
  destruct (parse fuel orig (split_nl (trim text)) (mkParser 1 (mkPatch []) 0))
    as [r| |] eqn:Ep; cbn [bind]; try discriminate.
  intros [= <- <-]. apply parse_returns in Ep as (q & Hq & -> & ->).
  now exists q.
Qed.

(** X8: the fuzz of a patch that parses is never negative: every hunk adds 0,
    1 or 100, and 10000 more where it was anchored at the end of the file
    and found elsewhere. *)
Theorem text_to_patch_fuzz_nonneg (fuel : nat) (text : jsstring)
  (orig : JsRecord jsstring) (p : Patch) (fz : Z) :
  text_to_patch fuel text orig = Ok (p, fz) -> 0 <= fz.
Proof.
  intros H. apply text_to_patch_returns in H as (q & Hq & _ & ->).
  apply parse_loop_fuzz in Hq. exact Hq.
Qed.

Lemma Forall_own_set {A} (P : jsstring * A -> Prop) (r : JsRecord A)
  (k : jsstring) (v : A) :
  Forall P r -> P (k, v) -> Forall P (own_set r k v).
Proof.
  intros H Hv. induction r as [|[k' v'] r IH]; simpl.
  - constructor; [exact Hv|constructor].
  - destruct (jseqb k' k) eqn:E.
    + apply jseqb_true_iff in E. subst k'.
      constructor; [exact Hv|]. now apply Forall_inv_tail in H.
    + constructor; [now apply Forall_inv in H|].
      apply IH. now apply Forall_inv_tail in H.
Qed.

Lemma In_insert_indexed {A} (n : N) (e : jsstring * A)
  (l : list (N * (jsstring * A))) (x : N * (jsstring * A)) :
  In x (insert_indexed n e l) -> x = (n, e) \/ In x l.
Proof.
  induction l as [|[m e'] l IH]; simpl.
  - intros [<-|[]]. now left.
  - destruct (n <=? m)%N; simpl.
    + intros [<-|H]; [now left|now right].
    + intros [<-|H]; [right; now left|].
      destruct (IH H) as [->|Hl]; [now left|right; now right].
Qed.

Lemma In_indexed_entries {A} (r : JsRecord A) (n : N) (e : jsstring * A) :
  In (n, e) (indexed_entries r) -> In e r.
Proof.
  induction r as [|[k v] r IH]; simpl; [auto|].
  destruct (array_index k) as [m|]; [|intros H; right; now apply IH].
  intros H. apply In_insert_indexed in H as [[= _ ->]|H]; [now left|].
  right. now apply IH.
Qed.

(** [Object.entries] lists own entries only. *)
Lemma In_Object_entries {A} (r : JsRecord A) (e : jsstring * A) :
  In e (Object_entries r) -> In e r.
Proof.
  unfold Object_entries. rewrite in_app_iff, in_map_iff, filter_In.
  intros [([n e'] & <- & H)|[H _]]; [|exact H].
  now apply In_indexed_entries in H.
Qed.

Section ActionInvariant.

Variable Q : jsstring -> list Chunk -> Prop.
Variable current_files : JsRecord jsstring.
Variable lines : list jsstring.

Hypothesis update_has :
  forall fuel text cursor fz action cursor' fz',
  parse_update_file fuel lines text cursor fz = Ok (action, cursor', fz') ->
  Q text (chunks action).

Lemma parse_directive_has (fuel : nat) (p q : Parser) :
  Forall (action_has Q current_files) (actions (patch p)) ->
  parse_directive fuel current_files lines p = Ok q ->
  Forall (action_has Q current_files) (actions (patch q)).
Proof.
  intros Hp H. unfold parse_directive in H.
  destruct (read_str lines (index p) UPDATE_FILE_PREFIX false)
    as [[path c1]| |]; cbn [bind] in H; try discriminate.
  destruct (truthy path).
  { destruct (has_property (actions (patch p)) path) eqn:Edup;
      [discriminate|].
    destruct (read_str lines c1 MOVE_FILE_TO_PREFIX false)
      as [[moveTo c2]| |]; cbn [bind] in H; try discriminate.
    destruct (has_property current_files path) eqn:Ehas; [|discriminate].
    cbn [negb] in H.
    assert (Hown : exists text, own_get current_files path = Some text).
    { unfold has_property in Edup, Ehas.
      destruct (own_get (actions (patch p)) path); [discriminate|].
      destruct (own_get current_files path) as [t|]; [now exists t|].
      congruence. }
    destruct Hown as (text & Hown). rewrite Hown in H.
    destruct (parse_update_file fuel lines text c2 (fuzz p))
      as [[[action c3] fz3]| |] eqn:Eu; cbn [bind] in H; try discriminate.
    injection H as <-. apply Forall_own_set; [exact Hp|].
    intros _. exists text. split; [exact Hown|]. simpl.
    eapply update_has. exact Eu. }
  destruct (read_str lines c1 DELETE_FILE_PREFIX false)
    as [[path2 c2]| |]; cbn [bind] in H; try discriminate.
  destruct (truthy path2).
  { destruct (has_property (actions (patch p)) path2); [discriminate|].
    destruct (negb (has_property current_files path2)); [discriminate|].
    injection H as <-. apply Forall_own_set; [exact Hp|].
    intros Ht. discriminate. }
  destruct (read_str lines c2 ADD_FILE_PREFIX false)
    as [[path3 c3]| |]; cbn [bind] in H; try discriminate.
  destruct (truthy path3); [|discriminate].
  destruct (has_property (actions (patch p)) path3); [discriminate|].
  destruct (has_property current_files path3); [discriminate|].
  destruct (parse_add_file lines c3) as [[action c4]| |] eqn:Ea;
    cbn [bind] in H; try discriminate.
  injection H as <-. apply Forall_own_set; [exact Hp|].
  unfold parse_add_file in Ea.
  destruct (parse_add_loop (skipn c3 lines) c3 []) as [[added c5]| |];
    cbn [bind] in Ea; try discriminate.
  injection Ea as <- _. intros Ht. discriminate.
Qed.

Lemma parse_loop_has :
  forall fuel p r,
  Forall (action_has Q current_files) (actions (patch p)) ->
  parse_loop fuel current_files lines p = Ok r ->
  Forall (action_has Q current_files) (actions (patch r)).
Proof.
  induction fuel as [|fuel IH]; intros p r Hp H; [discriminate|].
  cbn [parse_loop] in H.
  destruct (is_done lines (index p) [PATCH_SUFFIX]);
    [injection H as <-; exact Hp|].
  destruct (parse_directive fuel current_files lines p) as [q| |] eqn:Ed;
    cbn [bind] in H; try discriminate.
  apply IH in H; [exact H|].
  eapply parse_directive_has; [exact Hp|exact Ed].
Qed.

End ActionInvariant.

(** Chunks in order that end within the file are accepted. *)
Lemma ordered_accepted (n : Z) (cs : list Chunk) :
  forall lo hi, ordered_between lo hi cs -> hi <= n ->
  ~ chunk_out_of_order n cs lo.
Proof.
  induction cs as [|c cs IH]; intros lo hi H Hn; simpl; [auto|].
  destruct H as (Hlo & H). pose proof (ordered_between_le _ _ _ H) as Hle.
  pose proof (len_nonneg (del_lines c)).
  intros [Hc|[Hc|Hc]]; try lia. exact (IH _ _ H Hn Hc).
Qed.

(** Where every Update action is accepted, the commit is built. *)
Lemma commit_entries_accepted (orig : JsRecord jsstring) :
  forall entries acc,
  Forall (action_has (fun text => chunks_accepted (len (split_nl text)))
            orig) entries ->
  exists cs, commit_entries entries orig acc = Ok cs.
Proof.
  induction entries as [|[pathKey action] entries IH]; intros acc H.
  - now exists acc.
  - pose proof (Forall_inv H) as Ha. apply Forall_inv_tail in H.
    cbn [commit_entries]. destruct (type action) eqn:Et;
      try (now apply IH).
    destruct (Ha Et) as (text & Hown & Hacc). simpl in Hown, Hacc.
    rewrite Hown. unfold _get_updated_file. rewrite Et.
    destruct (apply_chunks_in_order pathKey (split_nl text) (chunks action)
                [] 0 ltac:(lia) Hacc) as (d & o & -> & _ & _).
    cbn [bind]. now apply IH.
Qed.

(** One hunk adds its chunks where its context was found. *)
Lemma shift_chunk_in_file (n newIndex : Z) (ctx : list jsstring)
  (cs : list Chunk) :
  0 <= newIndex -> newIndex + len ctx <= n ->
  Forall (chunk_deletes ctx) cs ->
  Forall (chunk_in_file n) (map (shift_chunk newIndex) cs).
Proof.
  intros H0 Hn H. rewrite Forall_map. eapply Forall_impl; [|exact H].
  intros c ((Hlo & Hhi) & _). unfold chunk_in_file, shift_chunk. simpl. lia.
Qed.

Lemma peek_loop_single (rest : list jsstring) :
  forall index old delLines insLines cs mode ctx cs' e eof,
  single_lines rest -> single_lines old ->
  peek_loop rest index old delLines insLines cs mode = Ok (ctx, cs', e, eof) ->
  single_lines ctx.
Proof.
  assert (F : forall rest index old delLines insLines cs ctx cs' e eof,
    single_lines old ->
    Ok (peek_finish rest index old delLines insLines cs)
    = Ok (ctx, cs', e, eof) -> single_lines ctx).
  { intros r index old delLines insLines cs ctx cs' e eof Ho.
    unfold peek_finish.
    destruct r as [|s r]; [|destruct (jseqb s END_OF_FILE_PREFIX)];
      intros [= <- _ _ _]; exact Ho. }
  induction rest as [|s rest IH];
    intros index old delLines insLines cs mode ctx cs' e eof Hr Ho H.
  - cbn [peek_loop] in H. eapply F; [exact Ho|exact H].
  - cbn [peek_loop] in H.
    destruct (starts_with_any s section_boundaries);
      [eapply F; [exact Ho|exact H]|].
    destruct (jseqb s (str "***")); [eapply F; [exact Ho|exact H]|].
    destruct (startsWith s (str "***")); [discriminate|].
    pose proof (classify_single s (Forall_inv Hr)) as Hline.
    apply Forall_inv_tail in Hr.
    destruct (classify s) as [m line]. simpl in Hline.
    assert (Ho' : single_lines (old ++ [line])).
    { apply Forall_app. split; [exact Ho|]. now constructor. }
    destruct m, mode; simpl in H; eapply IH; try exact H; assumption.
Qed.

Section LineFeeds.

(** Normalisation neither adds nor removes a line feed: U+000A has no
    decomposition and is part of none. *)
Hypothesis NFC_line_feeds :
  forall s, lf_count (normalize_NFC s) = lf_count s.

Lemma lf_count_canon (s : jsstring) : lf_count (canon s) = lf_count s.
Proof. unfold canon. now rewrite lf_count_punct, NFC_line_feeds. Qed.

(** Two blocks of lines that compare equal have the same number of lines,
    unless one is empty and the other a single line. *)
Lemma canon_eq_lengths (a b : list jsstring) :
  single_lines a -> single_lines b ->
  jseqb (canon (join_nl a)) (canon (join_nl b)) = true ->
  (length a - 1 = length b - 1)%nat.
Proof.
  intros Ha Hb H. apply jseqb_true_iff in H.
  apply (f_equal lf_count) in H. rewrite !lf_count_canon in H.
  now rewrite !lf_count_join in H.
Qed.

Lemma hit_lengths (lines context : list jsstring) (i : Z) :
  single_lines lines -> single_lines context ->
  hit_exact lines context i = true \/ hit_trimEnd lines context i = true \/
  hit_trim lines context i = true ->
  (length (slice lines i (i + len context)) - 1 = length context - 1)%nat.
Proof.
  intros Hl Hc [H|[H|H]].
  - apply canon_eq_lengths in H; [exact H| |exact Hc].
    now apply single_lines_slice.
  - apply canon_eq_lengths in H; [now rewrite !length_map in H| |];
      apply single_lines_map; try apply lf_count_trimEnd; try exact Hc.
    now apply single_lines_slice.
  - apply canon_eq_lengths in H; [now rewrite !length_map in H| |];
      apply single_lines_map; try apply lf_count_trim; try exact Hc.
    now apply single_lines_slice.
Qed.

(** A window that matches a context that is not empty lies inside the
    file. *)
Lemma hit_in_file (lines context : list jsstring) (i : Z) :
  single_lines lines -> single_lines context -> context <> [] ->
  1 <= len lines -> i < len lines ->
  0 <= i \/ len lines <= i + len context ->
  hit_exact lines context i = true \/ hit_trimEnd lines context i = true \/
  hit_trim lines context i = true ->
  0 <= i /\ i + len context <= len lines.
Proof.
  intros Hl Hc Hne H1 Hi Hs H.
  pose proof (hit_lengths lines context i Hl Hc H) as E.
  assert (Hn : 1 <= len context).
  { destruct context; [congruence|]. unfold len. simpl. lia. }
  destruct (slice_window_length lines i (len context) Hn H1 Hi Hs)
    as (Hw & Hin).
  apply Hin. unfold len in *. lia.
Qed.

Lemma find_context_core_in_file (lines context : list jsstring)
  (start i f : Z) :
  single_lines lines -> single_lines context -> context <> [] ->
  1 <= len lines ->
  0 <= start \/ start = len lines - len context ->
  find_context_core lines context start = (i, f) ->
  (i = -1 /\ f = 0) \/
  (start <= i /\ 0 <= i /\ i + len context <= len lines /\ 0 <= f).
Proof.
  intros Hl Hc Hne H1 Hs H.
  destruct (find_context_core_cases lines context start)
    as [[E _]|[_ [(j & Hj & R)|[_ [(j & Hj & R)|[_ [(j & Hj & R)|[_ R]]]]]]]];
    [congruence| | | |]; rewrite H in R; injection R as -> ->;
    try (now left);
    destruct Hj as (Hr & Hh & _); right;
    assert (Hin : 0 <= j /\ j + len context <= len lines)
      by (apply hit_in_file; try assumption; try lia; auto);
    lia.
Qed.

(** What [find_context] finds lies inside the file. *)
Lemma find_context_in_file (lines context : list jsstring) (start : Z)
  (eof : bool) (i f : Z) :
  single_lines lines -> single_lines context ->
  1 <= len lines -> 0 <= start <= len lines ->
  find_context lines context start eof = (i, f) ->
  (i = -1 \/ (0 <= i /\ i + len context <= len lines)) /\ 0 <= f.
Proof.
  intros Hl Hc H1 Hs H.
  destruct context as [|c context].
  { unfold find_context in H. rewrite !find_context_core_empty in H.
    change (len (@nil jsstring)) with 0 in *.
    destruct eof; [|injection H as <- <-; lia].
    rewrite Z.sub_0_r in H.
    destruct (Z.eqb_spec (len lines) (-1)); [lia|]. simpl in H.
    injection H as <- <-. lia. }
  set (ctx := c :: context) in *.
  assert (Hne : ctx <> []) by discriminate.
  unfold find_context in H. destruct eof.
  - destruct (find_context_core lines ctx (len lines - len ctx))
      as [i1 f1] eqn:E1.
    apply find_context_core_in_file in E1; try assumption; [|now right].
    destruct (Z.eqb_spec i1 (-1)) as [->|Hn]; simpl in H.
    + destruct (find_context_core lines ctx start) as [i2 f2] eqn:E2.
      apply find_context_core_in_file in E2; try assumption; [|left; lia].
      injection H as <- <-. lia.
    + injection H as <- <-. lia.
  - apply find_context_core_in_file in H; try assumption; [|left; lia]. lia.
Qed.

(** One hunk leaves the running position and its chunks inside the
    file. *)
Lemma parse_hunk_in_file (lines fileLines : list jsstring)
  (acc : list Chunk) (index : Z) (cursor : nat) (fz : Z) (acc' : list Chunk)
  (index' : Z) (cursor' : nat) (fz' : Z) :
  single_lines lines -> single_lines fileLines -> 1 <= len fileLines ->
  0 <= index <= len fileLines ->
  parse_hunk lines fileLines acc index cursor fz
  = Ok (acc', index', cursor', fz') ->
  0 <= index' <= len fileLines /\
  (chunks_in_file (len fileLines) acc ->
   chunks_in_file (len fileLines) acc').
Proof.
  intros Hl Hf H1 Hi H.
  destruct (parse_hunk_returns _ _ _ _ _ _ _ _ _ _ H)
    as (c2 & ctx & cs & eof & newIndex & fuzz & Ep & Ef & Hfound & -> & ->
        & _).
  unfold peek_next_section in Ep.
  assert (Hctx : single_lines ctx).
  { eapply peek_loop_single; [| |exact Ep]; [|constructor].
    now apply Forall_suffix. }
  apply peek_loop_deletes in Ep as (Hdel & _);
    [|now exists []|reflexivity|constructor].
  destruct (find_context_in_file _ _ _ _ _ _ Hf Hctx H1 Hi Ef)
    as ([Hm|(Hlo & Hhi)] & _); [contradiction|].
  pose proof (len_nonneg ctx). split; [lia|].
  intros Hacc. apply Forall_app. split; [exact Hacc|].
  now apply (shift_chunk_in_file _ _ ctx).
Qed.

Lemma parse_update_loop_in_file (lines fileLines : list jsstring) :
  single_lines lines -> single_lines fileLines -> 1 <= len fileLines ->
  forall fuel acc index cursor fz acc' cursor' fz',
  0 <= index <= len fileLines ->
  chunks_in_file (len fileLines) acc ->
  parse_update_loop fuel lines fileLines acc index cursor fz
  = Ok (acc', cursor', fz') ->
  chunks_in_file (len fileLines) acc'.
Proof.
  intros Hl Hf H1. induction fuel as [|fuel IH];
    intros acc index cursor fz acc' cursor' fz' Hi Hacc H; [discriminate|].
  cbn [parse_update_loop] in H.
  destruct (is_done lines cursor update_boundaries).
  { injection H as <- _ _. exact Hacc. }
  destruct (parse_hunk lines fileLines acc index cursor fz)
    as [[[[acc1 index1] c1] fz1]| |] eqn:Eh; cbn [bind] in H;
    try discriminate.
  destruct (parse_hunk_in_file _ _ _ _ _ _ _ _ _ _ Hl Hf H1 Hi Eh)
    as (Hi1 & Hacc1).
  eapply IH; [exact Hi1|exact (Hacc1 Hacc)|exact H].
Qed.

Lemma parse_update_loop_accepted (lines fileLines : list jsstring) :
  no_eof_marker lines ->
  single_lines lines -> single_lines fileLines -> 1 <= len fileLines ->
  forall fuel acc index cursor fz acc' cursor' fz',
  0 <= index <= len fileLines ->
  ordered_between 0 index acc ->
  parse_update_loop fuel lines fileLines acc index cursor fz
  = Ok (acc', cursor', fz') ->
  exists hi, hi <= len fileLines /\ ordered_between 0 hi acc'.
Proof.
  intros Hno Hl Hf H1. induction fuel as [|fuel IH];
    intros acc index cursor fz acc' cursor' fz' Hi Hacc H; [discriminate|].
  cbn [parse_update_loop] in H.
  destruct (is_done lines cursor update_boundaries).
  { injection H as <- _ _. exists index. split; [lia|exact Hacc]. }
  destruct (parse_hunk lines fileLines acc index cursor fz)
    as [[[[acc1 index1] c1] fz1]| |] eqn:Eh; cbn [bind] in H;
    try discriminate.
  destruct (parse_hunk_in_file _ _ _ _ _ _ _ _ _ _ Hl Hf H1 Hi Eh)
    as (Hi1 & _).
  eapply IH; [exact Hi1| |exact H].
  eapply parse_hunk_ordered; [exact Hno|exact Hacc|exact Eh].
Qed.

Lemma split_nl_len (s : jsstring) : 1 <= len (split_nl s).
Proof.
  pose proof (split_nl_not_nil s). unfold len.
  destruct (split_nl s); [congruence|]. simpl. lia.
Qed.

(** X9: every chunk of an Update action of a patch that parses lies within the
    file the action updates: it starts at a line of the file, and the lines
    it deletes end at or before the last one. *)
Theorem parsed_chunks_in_file (fuel : nat) (text : jsstring)
  (orig : JsRecord jsstring) (p : Patch) (fz : Z) :
  text_to_patch fuel text orig = Ok (p, fz) ->
  forall path action,
  In (path, action) (actions p) -> type action = UPDATE ->
  exists old,
    own_get orig path = Some old /\
    Forall (chunk_in_file (len (split_nl old))) (chunks action).
Proof.
  intros H path action Hin Ht.
  apply text_to_patch_returns in H as (q & Hq & -> & _).
  apply (parse_loop_has (fun old => chunks_in_file (len (split_nl old))))
    in Hq; [|
    |constructor].
  - rewrite Forall_forall in Hq. exact (Hq _ Hin Ht).
  - intros fuel' old c fz0 a c' fz' Hu. unfold parse_update_file in Hu.
    destruct (parse_update_loop fuel' _ (split_nl old) [] 0 c fz0)
      as [[[cs c4] fz4]| |] eqn:El; cbn [bind] in Hu; try discriminate.
    injection Hu as <- _ _. simpl.
    eapply parse_update_loop_in_file; [| | | | |exact El];
      try apply split_nl_single; try apply split_nl_len; [|constructor].
    pose proof (split_nl_len old). lia.
Qed.

(** X10: a patch with no line equal to the end-of-file marker that parses
    against the files is turned into a commit: [patch_to_commit] throws on
    no chunk of it. *)
Theorem parsed_patch_commits (fuel : nat) (text : jsstring)
  (orig : JsRecord jsstring) (p : Patch) (fz : Z) :
  no_eof_marker (split_nl (trim text)) ->
  text_to_patch fuel text orig = Ok (p, fz) ->
  exists commit, patch_to_commit p orig = Ok commit.
Proof.
  intros Hno H.
  apply text_to_patch_returns in H as (q & Hq & -> & _).
  apply (parse_loop_has (fun old => chunks_accepted (len (split_nl old))))
    in Hq; [|
    |constructor].
  - unfold patch_to_commit.
    destruct (commit_entries_accepted orig
                (Object_entries (actions (patch q))) []) as (cs & ->).
    + rewrite Forall_forall in *. intros e He. apply Hq.
      now apply In_Object_entries.
    + cbn [bind]. now eexists.
  - intros fuel' old c fz0 a c' fz' Hu. unfold parse_update_file in Hu.
    destruct (parse_update_loop fuel' _ (split_nl old) [] 0 c fz0)
      as [[[cs c4] fz4]| |] eqn:El; cbn [bind] in Hu; try discriminate.
    injection Hu as <- _ _. simpl.
    pose proof (split_nl_len old) as H1.
    eapply parse_update_loop_accepted in El as (hi & Hhi & Hord);
      try apply split_nl_single; try exact Hno; try exact H1;
      [|lia|simpl; lia].
    unfold chunks_accepted. eapply ordered_accepted; [exact Hord|exact Hhi].
Qed.

End LineFeeds.

(** ** Termination *)

Lemma peek_loop_cursor (rest : list jsstring) :
  forall index old delLines insLines cs mode ctx cs' e eof,
  peek_loop rest index old delLines insLines cs mode = Ok (ctx, cs', e, eof) ->
  (index <= e <= index + length rest)%nat.
Proof.
  assert (F : forall rest index old delLines insLines cs ctx cs' e eof,
    Ok (peek_finish rest index old delLines insLines cs)
    = Ok (ctx, cs', e, eof) -> (index <= e <= index + length rest)%nat).
  { intros r index old delLines insLines cs ctx cs' e eof.
    unfold peek_finish.
    destruct r as [|s r]; [|destruct (jseqb s END_OF_FILE_PREFIX)];
      intros [= _ _ <- _]; simpl; lia. }
  induction rest as [|s rest IH];
    intros index old delLines insLines cs mode ctx cs' e eof H.
  - cbn [peek_loop] in H. now apply F in H.
  - cbn [peek_loop] in H.
    destruct (starts_with_any s section_boundaries); [now apply F in H|].
    destruct (jseqb s (str "***")); [now apply F in H|].
    destruct (startsWith s (str "***")); [discriminate|].
    destruct (classify s) as [m line].
    destruct m, mode; simpl in H; apply IH in H; simpl; lia.
Qed.

Lemma peek_loop_total (rest : list jsstring) :
  forall index old delLines insLines cs mode,
  peek_loop rest index old delLines insLines cs mode <> OutOfFuel.
Proof.
  induction rest as [|s rest IH]; intros index old delLines insLines cs mode;
    cbn [peek_loop]; [discriminate|].
  destruct (starts_with_any s section_boundaries); [discriminate|].
  destruct (jseqb s (str "***")); [discriminate|].
  destruct (startsWith s (str "***")); [discriminate|].
  destruct (classify s) as [m line].
  destruct m, mode; simpl; apply IH.
Qed.

Lemma read_str_cursor (lines : list jsstring) (c : nat) (prefix : jsstring)
  (b : bool) (s : jsstring) (c' : nat) :
  read_str lines c prefix b = Ok (s, c') ->
  (c <= c' <= length lines)%nat /\ (truthy s = true -> c' = S c).
Proof.
  unfold read_str. destruct (nth_error lines c) as [l|] eqn:E; [|discriminate].
  assert (Hc : (c < length lines)%nat)
    by (apply nth_error_Some; congruence).
  destruct (startsWith l prefix); intros [= <- <-].
  - split; [lia|auto].
  - split; [lia|discriminate].
Qed.

Lemma read_str_total (lines : list jsstring) (c : nat) (prefix : jsstring)
  (b : bool) : read_str lines c prefix b <> OutOfFuel.
Proof.
  unfold read_str. destruct (nth_error lines c) as [l|]; [|discriminate].
  destruct (startsWith l prefix); discriminate.
Qed.

Lemma parse_hunk_total (lines fileLines : list jsstring) (acc : list Chunk)
  (index : Z) (cursor : nat) (fz : Z) :
  parse_hunk lines fileLines acc index cursor fz <> OutOfFuel.
Proof.
  unfold parse_hunk.
  pose proof (read_str_total lines cursor (str "@@ ") false) as Hr.
  destruct (read_str lines cursor (str "@@ ") false) as [[defStr c1]| |];
    cbn [bind]; try discriminate; [|congruence].
  destruct (match nth_error lines c1 with
            | Some l =>
                if negb (truthy defStr) && jseqb l (str "@@")
                then (l, S c1) else ([], c1)
            | None => ([], c1)
            end) as [sectionStr c2].
  destruct (negb (truthy defStr || truthy sectionStr || (index =? 0)));
    [discriminate|].
  pose proof (peek_loop_total (skipn c2 lines) c2 [] [] [] [] keep) as Hp.
  unfold peek_next_section.
  destruct (peek_loop (skipn c2 lines) c2 [] [] [] [] keep)
    as [[[[ctx cs] e] eof]| |]; cbn [bind]; try discriminate; [|congruence].
  destruct (find_context fileLines ctx index eof) as [newIndex fuzz].
  destruct (newIndex =? -1); [destruct eof|]; discriminate.
Qed.

(** A hunk that starts at a line that is not stuck reads at least that
    line. *)
Lemma parse_hunk_advances (lines fileLines : list jsstring)
  (acc : list Chunk) (index : Z) (cursor : nat) (fz : Z) (l : jsstring)
  (acc' : list Chunk) (index' : Z) (cursor' : nat) (fz' : Z) :
  nth_error lines cursor = Some l ->
  starts_with_any l update_boundaries = false ->
  ~ stuck_line l ->
  parse_hunk lines fileLines acc index cursor fz
  = Ok (acc', index', cursor', fz') ->
  (cursor < cursor' <= length lines)%nat.
Proof.
  intros Hl Hb Hs H.
  assert (Hc : (cursor < length lines)%nat)
    by (apply nth_error_Some; congruence).
  assert (P : forall c2 ctx cs eof,
             (c2 <= length lines)%nat ->
             peek_next_section lines c2 = Ok (ctx, cs, cursor', eof) ->
             (c2 <= cursor' <= length lines)%nat).
  { intros c2 ctx cs eof Hc2 Hp. unfold peek_next_section in Hp.
    apply peek_loop_cursor in Hp. rewrite length_skipn in Hp. lia. }
  unfold parse_hunk in H. unfold read_str in H. rewrite Hl in H.
  destruct (startsWith l (str "@@ ")) eqn:Edef; cbn [bind] in H.
  - destruct (match nth_error lines (S cursor) with
              | Some l0 =>
                  if negb (truthy (skipn (length (str "@@ ")) l))
                     && jseqb l0 (str "@@")
                  then (l0, S (S cursor)) else ([], S cursor)
              | None => ([], S cursor)
              end) as [sectionStr c2] eqn:Es.
    assert (Hc2 : (S cursor <= c2 <= length lines)%nat).
    { destruct (nth_error lines (S cursor)) as [l0|] eqn:E0.
      - assert ((S cursor < length lines)%nat)
          by (apply nth_error_Some; congruence).
        destruct (negb _ && jseqb l0 (str "@@")); injection Es as _ <-; lia.
      - injection Es as _ <-. lia. }
    destruct (negb (_ || _ || (index =? 0))); [discriminate|].
    destruct (peek_next_section lines c2) as [[[[ctx cs] e] eof]| |] eqn:Ep;
      cbn [bind] in H; try discriminate.
    destruct (find_context fileLines ctx index eof) as [newIndex fuzz].
    destruct (newIndex =? -1); [destruct eof; discriminate|].
    injection H as _ _ <- _. apply P in Ep; lia.
  - rewrite Hl in H. cbn [truthy length Nat.eqb negb andb] in H.
    destruct (jseqb l (str "@@")) eqn:Esec.
    + destruct (negb (_ || _ || (index =? 0))); [discriminate|].
      destruct (peek_next_section lines (S cursor))
        as [[[[ctx cs] e] eof]| |] eqn:Ep; cbn [bind] in H; try discriminate.
      destruct (find_context fileLines ctx index eof) as [newIndex fuzz].
      destruct (newIndex =? -1); [destruct eof; discriminate|].
      injection H as _ _ <- _. apply P in Ep; lia.
    + destruct (negb (_ || _ || (index =? 0))); [discriminate|].
      destruct (peek_next_section lines cursor)
        as [[[[ctx cs] e] eof]| |] eqn:Ep; cbn [bind] in H; try discriminate.
      destruct (find_context fileLines ctx index eof) as [newIndex fuzz].
      destruct (newIndex =? -1); [destruct eof; discriminate|].
      injection H as _ _ <- _.
      unfold peek_next_section in Ep. rewrite skipn_nth_error, Hl in Ep.
      cbn [peek_loop] in Ep.
      assert (Hsec : starts_with_any l section_boundaries = false).
      { unfold starts_with_any, section_boundaries. cbn [existsb].
        change (trim (str "@@")) with (str "@@").
        destruct (startsWith l (str "@@")) eqn:E2.
        - exfalso. apply Hs. left. repeat split; try assumption.
          now apply jseqb_false_iff.
        - exact Hb. }
      rewrite Hsec in Ep.
      destruct (jseqb l (str "***")) eqn:E3.
      { exfalso. apply Hs. right. now apply jseqb_true_iff. }
      destruct (startsWith l (str "***")); [discriminate|].
      destruct (classify l) as [m line].
      destruct m; cbn [Mode_eqb andb negb] in Ep;
        apply peek_loop_cursor in Ep; rewrite length_skipn in Ep; lia.
Qed.

Lemma parse_update_loop_cursor (lines fileLines : list jsstring) :
  Forall (fun l => ~ stuck_line l) lines ->
  forall fuel acc index cursor fz,
  (cursor <= length lines)%nat ->
  (length lines + 1 <= fuel + cursor)%nat ->
  parse_update_loop fuel lines fileLines acc index cursor fz <> OutOfFuel /\
  forall acc' cursor' fz',
    parse_update_loop fuel lines fileLines acc index cursor fz
    = Ok (acc', cursor', fz') ->
    (cursor <= cursor' <= length lines)%nat.
Proof.
  intros Hs. induction fuel as [|fuel IH]; intros acc index cursor fz Hc Hf;
    [lia|].
  cbn [parse_update_loop]. unfold is_done.
  destruct (nth_error lines cursor) as [l|] eqn:El.
  2:{ split; [discriminate|]. intros acc' cursor' fz' [= _ <- _]. lia. }
  destruct (starts_with_any l update_boundaries) eqn:Eb.
  { split; [discriminate|]. intros acc' cursor' fz' [= _ <- _]. lia. }
  pose proof (parse_hunk_total lines fileLines acc index cursor fz) as Ht.
  destruct (parse_hunk lines fileLines acc index cursor fz)
    as [[[[acc1 index1] c1] fz1]| |] eqn:Eh; cbn [bind];
    [|split; discriminate|congruence].
  assert (Hl : ~ stuck_line l).
  { rewrite Forall_forall in Hs. apply Hs. eapply nth_error_In. exact El. }
  pose proof (parse_hunk_advances _ _ _ _ _ _ _ _ _ _ _ El Eb Hl Eh) as Ha.
  destruct (IH acc1 index1 c1 fz1) as (Hne & Hb); [lia|lia|].
  split; [exact Hne|]. intros acc' cursor' fz' H. apply Hb in H. lia.
Qed.

Lemma parse_add_loop_cursor (rest : list jsstring) :
  forall index acc,
  parse_add_loop rest index acc <> OutOfFuel /\
  forall acc' e, parse_add_loop rest index acc = Ok (acc', e) ->
                 (index <= e <= index + length rest)%nat.
Proof.
  induction rest as [|s rest IH]; intros index acc; cbn [parse_add_loop].
  - split; [discriminate|]. intros acc' e [= _ <-]. simpl. lia.
  - destruct (starts_with_any s add_boundaries).
    { split; [discriminate|]. intros acc' e [= _ <-]. simpl. lia. }
    destruct (negb (startsWith s HUNK_ADD_LINE_PREFIX));
      [split; discriminate|].
    destruct (IH (S index) (acc ++ [skipn 1 s])) as (Hne & Hb).
    split; [exact Hne|]. intros acc' e H. apply Hb in H. simpl. lia.
Qed.

(** One directive reads at least its header line. *)
Lemma parse_directive_cursor (current_files : JsRecord jsstring)
  (lines : list jsstring) (fuel : nat) (p : Parser) :
  Forall (fun l => ~ stuck_line l) lines ->
  (length lines <= fuel + index p)%nat ->
  parse_directive fuel current_files lines p <> OutOfFuel /\
  forall q, parse_directive fuel current_files lines p = Ok q ->
            (index p < index q <= length lines)%nat.
Proof.
  intros Hs Hf. unfold parse_directive.
  pose proof (read_str_total lines (index p) UPDATE_FILE_PREFIX false) as T1.
  destruct (read_str lines (index p) UPDATE_FILE_PREFIX false)
    as [[path c1]| |] eqn:E1; cbn [bind]; [|split; discriminate|congruence].
  apply read_str_cursor in E1 as (B1 & A1).
  destruct (truthy path).
  { specialize (A1 eq_refl).
    destruct (has_property (actions (patch p)) path); [split; discriminate|].
    pose proof (read_str_total lines c1 MOVE_FILE_TO_PREFIX false) as T2.
    destruct (read_str lines c1 MOVE_FILE_TO_PREFIX false)
      as [[moveTo c2]| |] eqn:E2; cbn [bind];
      [|split; discriminate|congruence].
    apply read_str_cursor in E2 as (B2 & _).
    destruct (negb (has_property current_files path));
      [split; discriminate|].
    unfold parse_update_file.
    match goal with
    | |- context [parse_update_loop fuel lines ?fl [] 0 c2 (fuzz p)] =>
        destruct (parse_update_loop_cursor lines fl Hs fuel [] 0 c2 (fuzz p))
          as (Hne & Hb); [lia|lia|];
        destruct (parse_update_loop fuel lines fl [] 0 c2 (fuzz p))
          as [[[cs c3] fz3]| |]; cbn [bind];
          [|split; discriminate|congruence]
    end.
    split; [discriminate|]. intros q [= <-]. simpl.
    specialize (Hb _ _ _ eq_refl). lia. }
  pose proof (read_str_total lines c1 DELETE_FILE_PREFIX false) as T2.
  destruct (read_str lines c1 DELETE_FILE_PREFIX false)
    as [[path2 c2]| |] eqn:E2; cbn [bind]; [|split; discriminate|congruence].
  apply read_str_cursor in E2 as (B2 & A2).
  destruct (truthy path2).
  { specialize (A2 eq_refl).
    destruct (has_property (actions (patch p)) path2); [split; discriminate|].
    destruct (negb (has_property current_files path2));
      [split; discriminate|].
    split; [discriminate|]. intros q [= <-]. simpl. lia. }
  pose proof (read_str_total lines c2 ADD_FILE_PREFIX false) as T3.
  destruct (read_str lines c2 ADD_FILE_PREFIX false)
    as [[path3 c3]| |] eqn:E3; cbn [bind]; [|split; discriminate|congruence].
  apply read_str_cursor in E3 as (B3 & A3).
  destruct (truthy path3); [|split; discriminate].
  specialize (A3 eq_refl).
  destruct (has_property (actions (patch p)) path3); [split; discriminate|].
  destruct (has_property current_files path3); [split; discriminate|].
  unfold parse_add_file.
  destruct (parse_add_loop_cursor (skipn c3 lines) c3 []) as (Hne & Hb).
  destruct (parse_add_loop (skipn c3 lines) c3 []) as [[added c4]| |];
    cbn [bind]; [|split; discriminate|congruence].
  split; [discriminate|]. intros q [= <-]. simpl.
  specialize (Hb _ _ eq_refl). rewrite length_skipn in Hb. lia.
Qed.

Lemma parse_loop_total (current_files : JsRecord jsstring)
  (lines : list jsstring) :
  Forall (fun l => ~ stuck_line l) lines ->
  forall fuel p,
  (index p <= length lines)%nat ->
  (length lines + 1 <= fuel + index p)%nat ->
  parse_loop fuel current_files lines p <> OutOfFuel.
Proof.
  intros Hs. induction fuel as [|fuel IH]; intros p Hp Hf; [lia|].
  cbn [parse_loop].
  destruct (is_done lines (index p) [PATCH_SUFFIX]); [discriminate|].
  destruct (parse_directive_cursor current_files lines fuel p Hs)
    as (Hne & Hb); [lia|].
  destruct (parse_directive fuel current_files lines p) as [q| |];
    cbn [bind]; [|discriminate|congruence].
  specialize (Hb q eq_refl). apply IH; lia.
Qed.

(** More fuel changes no result. *)
Lemma parse_update_loop_more (lines fileLines : list jsstring) :
  forall fuel acc index cursor fz fuel',
  parse_update_loop fuel lines fileLines acc index cursor fz <> OutOfFuel ->
  (fuel <= fuel')%nat ->
  parse_update_loop fuel' lines fileLines acc index cursor fz
  = parse_update_loop fuel lines fileLines acc index cursor fz.
Proof.
  induction fuel as [|fuel IH]; intros acc index cursor fz fuel' H Hle;
    [now contradiction H|].
  destruct fuel' as [|fuel']; [lia|]. cbn [parse_update_loop] in *.
  destruct (is_done lines cursor update_boundaries); [reflexivity|].
  destruct (parse_hunk lines fileLines acc index cursor fz)
    as [[[[acc1 index1] c1] fz1]| |]; cbn [bind] in *; try reflexivity.
  apply IH; [exact H|lia].
Qed.

Lemma parse_directive_more (current_files : JsRecord jsstring)
  (lines : list jsstring) (fuel fuel' : nat) (p : Parser) :
  parse_directive fuel current_files lines p <> OutOfFuel ->
  (fuel <= fuel')%nat ->
  parse_directive fuel' current_files lines p
  = parse_directive fuel current_files lines p.
Proof.
  intros H Hle. unfold parse_directive in *.
  destruct (read_str lines (index p) UPDATE_FILE_PREFIX false)
    as [[path c1]| |]; cbn [bind] in *; try reflexivity.
  destruct (truthy path); [|reflexivity].
  destruct (has_property (actions (patch p)) path); [reflexivity|].
  destruct (read_str lines c1 MOVE_FILE_TO_PREFIX false)
    as [[moveTo c2]| |]; cbn [bind] in *; try reflexivity.
  destruct (negb (has_property current_files path)); [reflexivity|].
  unfold parse_update_file in *.
  rewrite (parse_update_loop_more lines _ fuel [] 0 c2 (fuzz p) fuel');
    [reflexivity| |exact Hle].
  intros E. apply H. now rewrite E.
Qed.

Lemma parse_loop_more (current_files : JsRecord jsstring)
  (lines : list jsstring) :
  forall fuel p fuel',
  parse_loop fuel current_files lines p <> OutOfFuel ->
  (fuel <= fuel')%nat ->
  parse_loop fuel' current_files lines p
  = parse_loop fuel current_files lines p.
Proof.
  induction fuel as [|fuel IH]; intros p fuel' H Hle; [now contradiction H|].
  destruct fuel' as [|fuel']; [lia|]. cbn [parse_loop] in *.
  destruct (is_done lines (index p) [PATCH_SUFFIX]); [reflexivity|].
  rewrite (parse_directive_more current_files lines fuel fuel' p);
    [|intros E; apply H; now rewrite E|lia].
  destruct (parse_directive fuel current_files lines p) as [q| |];
    cbn [bind] in *; try reflexivity.
  apply IH; [exact H|lia].
Qed.

(** X2: [text_to_patch] returns or throws on every patch text none of whose
    lines is stuck: with fuel for one turn of a loop per line of the text
    the result is there, and more fuel does not change it. *)
Theorem text_to_patch_terminates (text : jsstring)
  (orig : JsRecord jsstring) :
  Forall (fun l => ~ stuck_line l) (split_nl (trim text)) ->
  exists r,
    r <> OutOfFuel /\
    forall fuel, (length (split_nl (trim text)) <= fuel)%nat ->
                 text_to_patch fuel text orig = r.
Proof.
  intros Hs. set (lines := split_nl (trim text)) in *.
  unfold text_to_patch. fold lines.
  destruct (too_short lines || bad_prefix lines || bad_suffix lines) eqn:Eenv.
  { eexists. split; [|intros fuel _; reflexivity]. discriminate. }
  assert (Hlen : (2 <= length lines)%nat).
  { apply orb_false_iff in Eenv as (E & _).
    apply orb_false_iff in E as (E & _). unfold too_short in E.
    apply Nat.ltb_ge in E. exact E. }
  set (p0 := mkParser 1 (mkPatch []) 0).
  assert (Hne : parse_loop (length lines) orig lines p0 <> OutOfFuel).
  { apply parse_loop_total; [exact Hs|simpl; lia|simpl; lia]. }
  exists (parser <- parse (length lines) orig lines p0 ;;
          Ok (patch parser, fuzz parser)).
  split.
  - unfold parse.
    destruct (parse_loop (length lines) orig lines p0) as [q| |];
      cbn [bind]; [|discriminate|congruence].
    unfold startswith. destruct (nth_error lines (index q)); cbn [bind];
      [|discriminate].
    destruct (negb _); cbn [bind]; discriminate.
  - intros fuel Hf. unfold parse.
    now rewrite (parse_loop_more orig lines (length lines) p0 fuel Hne Hf).
Qed.

(** ** Loading the files a patch needs *)

Lemma own_get_own_set {A} (r : JsRecord A) (k k' : jsstring) (v : A) :
  own_get (own_set r k v) k'
  = if jseqb k k' then Some v else own_get r k'.
Proof.
  induction r as [|[k0 v0] r IH]; simpl; [reflexivity|].
  destruct (jseqb k0 k) eqn:E0; simpl.
  - apply jseqb_true_iff in E0. subst k0. now destruct (jseqb k k').
  - rewrite IH. destruct (jseqb k0 k') eqn:E1; [|reflexivity].
    apply jseqb_true_iff in E1. subst k0. apply jseqb_false_iff in E0.
    destruct (jseqb k k') eqn:E2; [|reflexivity].
    apply jseqb_true_iff in E2. congruence.
Qed.

Lemma has_property_own_set {A} (r : JsRecord A) (k k' : jsstring) (v : A) :
  k' = k \/ has_property r k' = true ->
  has_property (own_set r k v) k' = true.
Proof.
  unfold has_property. rewrite own_get_own_set. intros [->|H].
  - now rewrite jseqb_refl.
  - now destruct (jseqb k k').
Qed.

Lemma has_property_assign_string (orig : JsRecord jsstring)
  (p content k : jsstring) :
  k = p \/ has_property orig k = true ->
  has_property (assign_string orig p content) k = true.
Proof.
  unfold assign_string. destruct (jseqb p (str "__proto__")) eqn:E;
    [|apply has_property_own_set].
  apply jseqb_true_iff in E. subst p. intros [->|H]; [|exact H].
  unfold has_property. now destruct (own_get orig (str "__proto__")).
Qed.

(** Every path that [load_files] is given is a property of what it
    returns. *)
Lemma load_files_from_has (World : Type)
  (openFn : jsstring -> World -> World * completion jsstring)
  (paths : list jsstring) :
  forall orig w w' orig',
  load_files_from World openFn paths orig w = (w', Ok orig') ->
  forall p, In p paths \/ has_property orig p = true ->
            has_property orig' p = true.
Proof.
  induction paths as [|x paths IH]; intros orig w w' orig' H p Hp;
    cbn [load_files_from] in H.
  - injection H as _ <-. now destruct Hp.
  - destruct (openFn x w) as [w1 [content|e]]; [|discriminate].
    apply (IH _ _ _ _ H). destruct Hp as [[->|Hp]|Hp]; [right|now left|right];
      apply has_property_assign_string; auto.
Qed.

Lemma read_str_header (lines : list jsstring) (c : nat)
  (prefix path : jsstring) (c' : nat) :
  read_str lines c prefix false = Ok (path, c') -> truthy path = true ->
  exists line, In line lines /\ startsWith line prefix = true /\
               path = skipn (length prefix) line.
Proof.
  unfold read_str. destruct (nth_error lines c) as [l|] eqn:E; [|discriminate].
  destruct (startsWith l prefix) eqn:Es; intros [= <- _] Ht; [|discriminate].
  exists l. repeat split; [|exact Es]. eapply nth_error_In. exact E.
Qed.

Lemma read_str_quiet (lines : list jsstring) (c : nat) (prefix : jsstring)
  (b : bool) (m : jsstring) :
  read_str lines c prefix b = Throw (DiffError m) ->
  missing_file_message m = false.
Proof.
  unfold read_str. destruct (nth_error lines c) as [l|].
  - destruct (startsWith l prefix); discriminate.
  - intros [= <-]. reflexivity.
Qed.

Lemma peek_loop_quiet (rest : list jsstring) :
  forall index old delLines insLines cs mode m,
  peek_loop rest index old delLines insLines cs mode = Throw (DiffError m) ->
  missing_file_message m = false.
Proof.
  induction rest as [|s rest IH];
    intros index old delLines insLines cs mode m H; cbn [peek_loop] in H;
    [discriminate|].
  destruct (starts_with_any s section_boundaries); [discriminate|].
  destruct (jseqb s (str "***")); [discriminate|].
  destruct (startsWith s (str "***")); [injection H as <-; reflexivity|].
  destruct (classify s) as [md line].
  destruct md, mode; simpl in H; now apply IH in H.
Qed.

Lemma parse_hunk_quiet (lines fileLines : list jsstring) (acc : list Chunk)
  (index : Z) (cursor : nat) (fz : Z) (m : jsstring) :
  parse_hunk lines fileLines acc index cursor fz = Throw (DiffError m) ->
  missing_file_message m = false.
Proof.
  unfold parse_hunk. intros H.
  destruct (read_str lines cursor (str "@@ ") false) as [[defStr c1]| |]
    eqn:Er; cbn [bind] in H; try discriminate;
    [|injection H as ->; now apply read_str_quiet in Er].
  destruct (match nth_error lines c1 with
            | Some l =>
                if negb (truthy defStr) && jseqb l (str "@@")
                then (l, S c1) else ([], c1)
            | None => ([], c1)
            end) as [sectionStr c2].
  destruct (negb (truthy defStr || truthy sectionStr || (index =? 0)));
    [injection H as <-; reflexivity|].
  unfold peek_next_section in H.
  destruct (peek_loop (skipn c2 lines) c2 [] [] [] [] keep)
    as [[[[ctx cs] e] eof]| |] eqn:Ep; cbn [bind] in H; try discriminate;
    [|injection H as ->; now apply peek_loop_quiet in Ep].
  destruct (find_context fileLines ctx index eof) as [newIndex fuzz].
  destruct (newIndex =? -1); [|discriminate].
  destruct eof; injection H as <-; reflexivity.
Qed.

Lemma parse_update_loop_quiet (lines fileLines : list jsstring) :
  forall fuel acc index cursor fz m,
  parse_update_loop fuel lines fileLines acc index cursor fz
  = Throw (DiffError m) ->
  missing_file_message m = false.
Proof.
  induction fuel as [|fuel IH]; intros acc index cursor fz m H;
    [discriminate|].
  cbn [parse_update_loop] in H.
  destruct (is_done lines cursor update_boundaries); [discriminate|].
  destruct (parse_hunk lines fileLines acc index cursor fz)
    as [[[[acc1 index1] c1] fz1]| |] eqn:Eh; cbn [bind] in H;
    try discriminate.
  - now apply IH in H.
  - injection H as ->. now apply parse_hunk_quiet in Eh.
Qed.

Lemma parse_add_loop_quiet (rest : list jsstring) :
  forall index acc m,
  parse_add_loop rest index acc = Throw (DiffError m) ->
  missing_file_message m = false.
Proof.
  induction rest as [|s rest IH]; intros index acc m H;
    cbn [parse_add_loop] in H; [discriminate|].
  destruct (starts_with_any s add_boundaries); [discriminate|].
  destruct (negb (startsWith s HUNK_ADD_LINE_PREFIX));
    [injection H as <-; reflexivity|].
  now apply IH in H.
Qed.

Section Loaded.

Variable current_files : JsRecord jsstring.
Variable lines : list jsstring.

(** The files hold every path that an Update or a Delete header of the
    patch names. *)
Hypothesis loaded :
  forall line path, In line lines -> names_needed_file line path ->
  has_property current_files path = true.

Lemma parse_directive_quiet (fuel : nat) (p : Parser) (m : jsstring) :
  parse_directive fuel current_files lines p = Throw (DiffError m) ->
  missing_file_message m = false.
Proof.
  intros H. unfold parse_directive in H.
  destruct (read_str lines (index p) UPDATE_FILE_PREFIX false)
    as [[path c1]| |] eqn:E1; cbn [bind] in H; try discriminate;
    [|injection H as ->; now apply read_str_quiet in E1].
  destruct (truthy path) eqn:T1.
  { destruct (has_property (actions (patch p)) path);
      [injection H as <-; reflexivity|].
    destruct (read_str lines c1 MOVE_FILE_TO_PREFIX false)
      as [[moveTo c2]| |] eqn:E2; cbn [bind] in H; try discriminate;
      [|injection H as ->; now apply read_str_quiet in E2].
    destruct (read_str_header _ _ _ _ _ E1 T1) as (line & Hin & Hs & Hp).
    rewrite (loaded line path Hin) in H by (left; now split).
    cbn [negb] in H. unfold parse_update_file in H.
    match type of H with
    | context [parse_update_loop fuel lines ?fl [] 0 c2 (fuzz p)] =>
        destruct (parse_update_loop fuel lines fl [] 0 c2 (fuzz p))
          as [[[cs c3] fz3]| |] eqn:El; cbn [bind] in H; try discriminate
    end.
    injection H as ->. now apply parse_update_loop_quiet in El. }
  destruct (read_str lines c1 DELETE_FILE_PREFIX false)
    as [[path2 c2]| |] eqn:E2; cbn [bind] in H; try discriminate;
    [|injection H as ->; now apply read_str_quiet in E2].
  destruct (truthy path2) eqn:T2.
  { destruct (has_property (actions (patch p)) path2);
      [injection H as <-; reflexivity|].
    destruct (read_str_header _ _ _ _ _ E2 T2) as (line & Hin & Hs & Hp).
    rewrite (loaded line path2 Hin) in H by (right; now split).
    discriminate. }
  destruct (read_str lines c2 ADD_FILE_PREFIX false)
    as [[path3 c3]| |] eqn:E3; cbn [bind] in H; try discriminate;
    [|injection H as ->; now apply read_str_quiet in E3].
  destruct (truthy path3); [|injection H as <-; reflexivity].
  destruct (has_property (actions (patch p)) path3);
    [injection H as <-; reflexivity|].
  destruct (has_property current_files path3);
    [injection H as <-; reflexivity|].
  unfold parse_add_file in H.
  destruct (parse_add_loop (skipn c3 lines) c3 []) as [[added c4]| |] eqn:Ea;
    cbn [bind] in H; try discriminate.
  injection H as ->. now apply parse_add_loop_quiet in Ea.
Qed.

Lemma parse_loop_quiet :
  forall fuel p m,
  parse_loop fuel current_files lines p = Throw (DiffError m) ->
  missing_file_message m = false.
Proof.
  induction fuel as [|fuel IH]; intros p m H; [discriminate|].
  cbn [parse_loop] in H.
  destruct (is_done lines (index p) [PATCH_SUFFIX]); [discriminate|].
  destruct (parse_directive fuel current_files lines p) as [q| |] eqn:Ed;
    cbn [bind] in H; try discriminate.
  - now apply IH in H.
  - injection H as ->. now apply parse_directive_quiet in Ed.
Qed.

End Loaded.

(** X11: on the files that [load_files] has read for the paths of
    [identify_files_needed], as [process_patch] calls them, the parser never
    reports a missing file: a file that cannot be opened is reported by
    [load_files], before the patch is parsed. *)
Theorem loaded_files_never_missing (World : Type)
  (openFn : jsstring -> World -> World * completion jsstring)
  (text : jsstring) (w w' : World) (orig : JsRecord jsstring) (fuel : nat)
  (m : jsstring) :
  load_files World openFn (identify_files_needed text) w = (w', Ok orig) ->
  text_to_patch fuel text orig = Throw (DiffError m) ->
  missing_file_message m = false.
Proof.
  intros Hload H.
  assert (loaded : forall line path,
            In line (split_nl (trim text)) -> names_needed_file line path ->
            has_property orig path = true).
  { intros line path Hin Hn. unfold load_files in Hload.
    apply (load_files_from_has _ _ _ _ _ _ _ Hload). left.
    unfold identify_files_needed.
    destruct (needed_fold (split_nl (trim text)) []) as [_ Hiff].
    cbn zeta in Hiff. apply Hiff. right. now exists line. }
  unfold text_to_patch in H.
  destruct (too_short _ || bad_prefix _ || bad_suffix _).
  { injection H as <-. destruct (too_short _); [reflexivity|].
    destruct (bad_prefix _); [reflexivity|].
    destruct (bad_suffix _); reflexivity. }
  unfold parse in H.
  destruct (parse_loop fuel orig (split_nl (trim text))
              (mkParser 1 (mkPatch []) 0)) as [q| |] eqn:El;
    cbn [bind] in H; try discriminate.
  - unfold startswith in H.
    destruct (nth_error (split_nl (trim text)) (index q)); cbn [bind] in H;
      [|discriminate].
    destruct (negb _); cbn [bind] in H; [|discriminate].
    injection H as <-. reflexivity.
  - injection H as ->. eapply parse_loop_quiet; [exact loaded|exact El].
Qed.

(** ** Paths that are names of [Object.prototype] *)

Lemma inherited_truthy (path : jsstring) :
  inherited path = true -> truthy path = true.
Proof.
  unfold inherited. rewrite existsb_exists. intros (k & Hk & E).
  apply jseqb_true_iff in E. subst k. simpl in Hk.
  repeat (destruct Hk as [<-|Hk]; [reflexivity|]). contradiction.
Qed.

Lemma envelope_passes (first : jsstring) (rest : list jsstring) :
  startsWith first (str "*** Begin Patch") = true ->
  rest <> [] ->
  bad_suffix (first :: rest) = false ->
  too_short (first :: rest) || bad_prefix (first :: rest)
  || bad_suffix (first :: rest) = false.
Proof.
  intros Hf Hr Hl. rewrite Hl. unfold too_short, bad_prefix. cbn [nth].
  change (trim PATCH_PREFIX) with (str "*** Begin Patch"). rewrite Hf.
  destruct rest; [congruence|reflexivity].
Qed.

(** X12: a directive whose path is a property name that every object inherits,
    such as [constructor] or [toString], is rejected as a duplicate, though
    the patch has no action for the path: here as the first directive of the
    patch, for each of the three headers. *)
Theorem prototype_path_rejected (text : jsstring) (orig : JsRecord jsstring)
  (first prefix message path : jsstring) (rest : list jsstring) (fuel : nat) :
  In (prefix, message) header_kinds ->
  split_nl (trim text) = first :: (prefix ++ path) :: rest ->
  startsWith first (str "*** Begin Patch") = true ->
  bad_suffix (split_nl (trim text)) = false ->
  inherited path = true ->
  text_to_patch (S fuel) text orig = Throw (DiffError (message ++ path)).
Proof.
  intros Hk Hlines Hfirst Hlast Hinh.
  pose proof (inherited_truthy path Hinh) as Htr.
  unfold text_to_patch. rewrite Hlines in *.
  rewrite envelope_passes by (try assumption; discriminate).
  unfold parse. cbn [parse_loop index]. unfold is_done. cbn [nth_error].
  assert (Hend : starts_with_any (prefix ++ path) [PATCH_SUFFIX] = false).
  { unfold starts_with_any. cbn [existsb].
    change (trim PATCH_SUFFIX) with PATCH_SUFFIX.
    rewrite (starts_with_conflict _ prefix PATCH_SUFFIX);
      [reflexivity| | |apply startsWith_app];
      simpl in Hk; destruct Hk as [[= <- _]|[[= <- _]|[[= <- _]|[]]]];
      reflexivity. }
  rewrite Hend. unfold parse_directive, read_str. cbn [index nth_error].
  simpl in Hk. destruct Hk as [[= <- <-]|[[= <- <-]|[[= <- <-]|[]]]].
  - rewrite startsWith_app, skipn_prefix. cbn [bind]. rewrite Htr.
    cbn [patch actions]. unfold has_property. cbn [own_get].
    rewrite Hinh. reflexivity.
  - rewrite (starts_with_conflict _ DELETE_FILE_PREFIX UPDATE_FILE_PREFIX)
      by (try reflexivity; apply startsWith_app).
    cbn [bind truthy length Nat.eqb negb nth_error].
    rewrite startsWith_app, skipn_prefix. cbn [bind]. rewrite Htr.
    cbn [patch actions]. unfold has_property. cbn [own_get].
    rewrite Hinh. reflexivity.
  - rewrite (starts_with_conflict _ ADD_FILE_PREFIX UPDATE_FILE_PREFIX)
      by (try reflexivity; apply startsWith_app).
    cbn [bind truthy length Nat.eqb negb nth_error].
    rewrite (starts_with_conflict _ ADD_FILE_PREFIX DELETE_FILE_PREFIX)
      by (try reflexivity; apply startsWith_app).
    cbn [bind truthy length Nat.eqb negb nth_error].
    rewrite startsWith_app, skipn_prefix. cbn [bind]. rewrite Htr.
    cbn [patch actions]. unfold has_property. cbn [own_get].
    rewrite Hinh. reflexivity.
Qed.

(** ** A patch of one directive, from the text to the accessors *)

Lemma needed_nothing (lines acc : list jsstring) :
  Forall (fun l => startsWith l UPDATE_FILE_PREFIX = false /\
                   startsWith l DELETE_FILE_PREFIX = false) lines ->
  fold_left
    (fun result line =>
       let result :=
         if startsWith line UPDATE_FILE_PREFIX
         then set_add result (skipn (length UPDATE_FILE_PREFIX) line)
         else result in
       if startsWith line DELETE_FILE_PREFIX
       then set_add result (skipn (length DELETE_FILE_PREFIX) line)
       else result) lines acc = acc.
Proof.
  induction 1 as [|l lines [H1 H2] _ IH]; [reflexivity|].
  cbn [fold_left]. now rewrite H1, H2.
Qed.

Lemma Object_entries_one {A} (k : jsstring) (v : A) :
  Object_entries [(k, v)] = [(k, v)].
Proof.
  unfold Object_entries. cbn [indexed_entries filter fst].
  now destruct (array_index k).
Qed.

Lemma last_line (first : jsstring) (mid : list jsstring) (l : jsstring) :
  nth (length (first :: mid ++ [l]) - 1) (first :: mid ++ [l]) [] = l.
Proof.
  change (first :: mid ++ [l]) with ((first :: mid) ++ [l]).
  rewrite length_app, app_nth2; cbn [length]; [|lia].
  replace (S (length mid) + 1 - 1 - S (length mid))%nat with 0%nat by lia.
  reflexivity.
Qed.

Lemma parse_add_loop_body (body rest : list jsstring) :
  forall index acc,
  parse_add_loop (add_lines body ++ PATCH_SUFFIX :: rest) index acc
  = Ok (acc ++ body, (index + length body)%nat).
Proof.
  induction body as [|l body IH]; intros index acc.
  - simpl. now rewrite app_nil_r, Nat.add_0_r.
  - cbn [add_lines map app parse_add_loop].
    change (starts_with_any (HUNK_ADD_LINE_PREFIX ++ l) add_boundaries)
      with false.
    change (startsWith (HUNK_ADD_LINE_PREFIX ++ l) HUNK_ADD_LINE_PREFIX)
      with true.
    cbn [negb]. change (skipn 1 (HUNK_ADD_LINE_PREFIX ++ l)) with l.
    fold (add_lines body). rewrite IH, <- app_assoc. cbn [length app].
    now rewrite Nat.add_succ_r.
Qed.

Lemma nth_error_after {A} (l1 : list A) (x : A) (l2 : list A) :
  nth_error (l1 ++ x :: l2) (length l1) = Some x.
Proof. now rewrite nth_error_app2, Nat.sub_diag. Qed.

Lemma read_str_at (lines : list jsstring) (c : nat) (prefix l : jsstring) :
  nth_error lines c = Some l ->
  read_str lines c prefix false
  = if startsWith l prefix then Ok (skipn (length prefix) l, S c)
    else Ok ([], c).
Proof. intros H. unfold read_str. now rewrite H. Qed.

(** The directive at an Add header. *)
Lemma parse_directive_add (fuel : nat) (current_files : JsRecord jsstring)
  (lines : list jsstring) (p : Parser) (path : jsstring) :
  nth_error lines (index p) = Some (ADD_FILE_PREFIX ++ path) ->
  path <> [] ->
  has_property (actions (patch p)) path = false ->
  has_property current_files path = false ->
  parse_directive fuel current_files lines p
  = ('(action, cursor) <- parse_add_file lines (S (index p)) ;;
     Ok (set_action p path action cursor (fuzz p))).
Proof.
  intros H Hpath Hdup Hcur.
  assert (Htr : truthy path = true)
    by (destruct path; [congruence|reflexivity]).
  unfold parse_directive.
  rewrite (read_str_at _ _ UPDATE_FILE_PREFIX _ H).
  rewrite (starts_with_conflict _ ADD_FILE_PREFIX UPDATE_FILE_PREFIX)
    by (try reflexivity; apply startsWith_app).
  cbn [bind]. change (truthy []) with false. cbv iota.
  rewrite (read_str_at _ _ DELETE_FILE_PREFIX _ H).
  rewrite (starts_with_conflict _ ADD_FILE_PREFIX DELETE_FILE_PREFIX)
    by (try reflexivity; apply startsWith_app).
  cbn [bind]. change (truthy []) with false. cbv iota.
  rewrite (read_str_at _ _ ADD_FILE_PREFIX _ H).
  rewrite startsWith_app, skipn_prefix. cbn [bind].
  now rewrite Htr, Hdup, Hcur.
Qed.

(** The directive at a Delete header. *)
Lemma parse_directive_delete (fuel : nat) (current_files : JsRecord jsstring)
  (lines : list jsstring) (p : Parser) (path : jsstring) :
  nth_error lines (index p) = Some (DELETE_FILE_PREFIX ++ path) ->
  path <> [] ->
  has_property (actions (patch p)) path = false ->
  has_property current_files path = true ->
  parse_directive fuel current_files lines p
  = Ok (set_action p path (mkPatchAction DELETE None [] None)
          (S (index p)) (fuzz p)).
Proof.
  intros H Hpath Hdup Hcur.
  assert (Htr : truthy path = true)
    by (destruct path; [congruence|reflexivity]).
  unfold parse_directive.
  rewrite (read_str_at _ _ UPDATE_FILE_PREFIX _ H).
  rewrite (starts_with_conflict _ DELETE_FILE_PREFIX UPDATE_FILE_PREFIX)
    by (try reflexivity; apply startsWith_app).
  cbn [bind]. change (truthy []) with false. cbv iota.
  rewrite (read_str_at _ _ DELETE_FILE_PREFIX _ H).
  rewrite startsWith_app, skipn_prefix. cbn [bind].
  now rewrite Htr, Hdup, Hcur.
Qed.

Lemma header_not_end (prefix path : jsstring) :
  In prefix [UPDATE_FILE_PREFIX; DELETE_FILE_PREFIX; ADD_FILE_PREFIX] ->
  starts_with_any (prefix ++ path) [PATCH_SUFFIX] = false.
Proof.
  intros Hk. unfold starts_with_any. cbn [existsb].
  change (trim PATCH_SUFFIX) with PATCH_SUFFIX.
  rewrite (starts_with_conflict _ prefix PATCH_SUFFIX);
    [reflexivity| | |apply startsWith_app];
    simpl in Hk; destruct Hk as [<-|[<-|[<-|[]]]]; reflexivity.
Qed.

Lemma parse_loop_step (fuel : nat) (current_files : JsRecord jsstring)
  (lines : list jsstring) (p : Parser) :
  parse_loop (S fuel) current_files lines p
  = if is_done lines (index p) [PATCH_SUFFIX] then Ok p
    else q <- parse_directive fuel current_files lines p ;;
         parse_loop fuel current_files lines q.
Proof. reflexivity. Qed.

Lemma is_done_at (lines : list jsstring) (c : nat) (l : jsstring)
  (prefixes : list jsstring) :
  nth_error lines c = Some l ->
  is_done lines c prefixes = starts_with_any l prefixes.
Proof. intros H. unfold is_done. now rewrite H. Qed.

(** The patch of one Add directive is read as one Add action. *)
Lemma text_to_patch_add_file (text : jsstring) (orig : JsRecord jsstring)
  (path : jsstring) (body : list jsstring) (fuel : nat) :
  split_nl (trim text)
  = str "*** Begin Patch" :: (ADD_FILE_PREFIX ++ path)
    :: add_lines body ++ [PATCH_SUFFIX] ->
  path <> [] -> inherited path = false -> has_property orig path = false ->
  text_to_patch (S (S fuel)) text orig
  = Ok (mkPatch [(path, mkPatchAction ADD (Some (join_nl body)) [] None)], 0).
Proof.
  intros Hlines Hpath Hinh Horig.
  unfold text_to_patch. rewrite Hlines.
  rewrite envelope_passes; [|reflexivity|discriminate|].
  2:{ unfold bad_suffix. apply negb_false_iff, jseqb_true_iff.
      exact (last_line _ ((ADD_FILE_PREFIX ++ path) :: add_lines body) _). }
  set (lines := str "*** Begin Patch" :: (ADD_FILE_PREFIX ++ path)
                :: add_lines body ++ [PATCH_SUFFIX]).
  assert (Hend : nth_error lines (2 + length body) = Some PATCH_SUFFIX).
  { change lines
      with ((str "*** Begin Patch" :: (ADD_FILE_PREFIX ++ path)
             :: add_lines body) ++ [PATCH_SUFFIX]).
    replace (2 + length body)%nat
      with (length (str "*** Begin Patch" :: (ADD_FILE_PREFIX ++ path)
                    :: add_lines body))
      by (unfold add_lines; cbn [length]; now rewrite length_map).
    apply nth_error_after. }
  unfold parse. rewrite parse_loop_step.
  rewrite (is_done_at lines 1 (ADD_FILE_PREFIX ++ path)) by reflexivity.
  rewrite header_not_end by (simpl; auto).
  rewrite (parse_directive_add _ _ _ _ path)
    by (try assumption; reflexivity).
  unfold parse_add_file. cbn [index].
  change (skipn 2 lines) with (add_lines body ++ [PATCH_SUFFIX]).
  rewrite parse_add_loop_body. cbn [bind app fuzz].
  unfold set_action. cbn [patch actions own_set].
  rewrite parse_loop_step. cbn [index].
  rewrite (is_done_at _ _ _ _ Hend).
  change (starts_with_any PATCH_SUFFIX [PATCH_SUFFIX]) with true.
  cbn [bind index]. unfold startswith. rewrite Hend.
  reflexivity.
Qed.

(** X13: a patch that is one Add directive writes the file, the lines of the
    body without their [+] joined by line feeds, and nothing else: no file is
    opened and none removed. The path is not empty and is no name of
    [Object.prototype]. *)
Theorem process_patch_add_file (World : Type)
  (openFn : jsstring -> World -> World * completion jsstring)
  (writeFn : jsstring -> jsstring -> World -> World * completion unit)
  (removeFn : jsstring -> World -> World * completion unit)
  (text path : jsstring) (body : list jsstring) (fuel : nat) (w : World) :
  startsWith text PATCH_PREFIX = true ->
  split_nl (trim text)
  = str "*** Begin Patch" :: (ADD_FILE_PREFIX ++ path)
    :: add_lines body ++ [PATCH_SUFFIX] ->
  path <> [] -> inherited path = false ->
  process_patch World openFn writeFn removeFn (S (S fuel)) text w
  = match writeFn path (join_nl body) w with
    | (w', Returns _) => (w', Ok (str "Done!"))
    | (w', Throws e) => (w', Throw e)
    end.
Proof.
  intros Hstart Hlines Hpath Hinh. unfold process_patch. rewrite Hstart.
  cbn [negb].
  assert (Hneeded : identify_files_needed text = []).
  { unfold identify_files_needed. rewrite Hlines. apply needed_nothing.
    constructor; [split; reflexivity|]. constructor.
    { split; apply (starts_with_conflict _ ADD_FILE_PREFIX);
        try reflexivity; apply startsWith_app. }
    apply Forall_app. split; [|repeat constructor].
    unfold add_lines. rewrite Forall_map. apply Forall_forall.
    intros l _. split; reflexivity. }
  rewrite Hneeded. cbn [load_files load_files_from].
  rewrite (text_to_patch_add_file text [] path body fuel Hlines Hpath Hinh)
    by (unfold has_property; cbn [own_get]; exact Hinh).
  unfold patch_to_commit. cbn [actions]. rewrite Object_entries_one.
  cbn [commit_entries type new_file own_set bind].
  unfold apply_commit. cbn [changes]. rewrite Object_entries_one.
  cbn [apply_entries change_type new_content or_empty].
  destruct (writeFn path (join_nl body) w) as [w' [u|e]]; reflexivity.
Qed.

(** X14: a patch that is one Delete directive opens the file and then removes
    it; a file that cannot be opened is reported as not found and is not
    removed, and nothing is written. The path is not empty and is no name of
    [Object.prototype]. *)
Theorem process_patch_delete_file (World : Type)
  (openFn : jsstring -> World -> World * completion jsstring)
  (writeFn : jsstring -> jsstring -> World -> World * completion unit)
  (removeFn : jsstring -> World -> World * completion unit)
  (text path : jsstring) (fuel : nat) (w : World) :
  startsWith text PATCH_PREFIX = true ->
  split_nl (trim text)
  = [str "*** Begin Patch"; DELETE_FILE_PREFIX ++ path; PATCH_SUFFIX] ->
  path <> [] -> inherited path = false ->
  process_patch World openFn writeFn removeFn (S (S fuel)) text w
  = match openFn path w with
    | (w1, Returns _) =>
        match removeFn path w1 with
        | (w2, Returns _) => (w2, Ok (str "Done!"))
        | (w2, Throws e) => (w2, Throw e)
        end
    | (w1, Throws _) =>
        (w1, Throw (DiffError (str "File not found: " ++ path)))
    end.
Proof.
  intros Hstart Hlines Hpath Hinh. unfold process_patch. rewrite Hstart.
  cbn [negb].
  assert (Hneeded : identify_files_needed text = [path]).
  { unfold identify_files_needed. rewrite Hlines. cbn [fold_left].
    change (startsWith (str "*** Begin Patch") UPDATE_FILE_PREFIX) with false.
    change (startsWith (str "*** Begin Patch") DELETE_FILE_PREFIX) with false.
    change (startsWith PATCH_SUFFIX UPDATE_FILE_PREFIX) with false.
    change (startsWith PATCH_SUFFIX DELETE_FILE_PREFIX) with false.
    rewrite (starts_with_conflict _ DELETE_FILE_PREFIX UPDATE_FILE_PREFIX)
      by (try reflexivity; apply startsWith_app).
    now rewrite startsWith_app, skipn_prefix. }
  rewrite Hneeded. cbn [load_files load_files_from].
  destruct (openFn path w) as [w1 [content|e]]; [|reflexivity].
  assert (Hproto : jseqb path (str "__proto__") = false).
  { apply jseqb_false_iff. intros ->. discriminate Hinh. }
  unfold assign_string. rewrite Hproto. cbn [own_set].
  assert (Hparse : text_to_patch (S (S fuel)) text [(path, content)]
                   = Ok (mkPatch [(path, mkPatchAction DELETE None [] None)],
                         0)).
  { unfold text_to_patch. rewrite Hlines.
    rewrite envelope_passes; [|reflexivity|discriminate|reflexivity].
    unfold parse. rewrite parse_loop_step.
    rewrite (is_done_at _ 1 (DELETE_FILE_PREFIX ++ path)) by reflexivity.
    rewrite header_not_end by (simpl; auto).
    rewrite (parse_directive_delete _ _ _ _ path)
      by (try assumption; try reflexivity;
          unfold has_property; cbn [own_get]; now rewrite jseqb_refl).
    cbn [bind index fuzz]. unfold set_action. cbn [patch actions own_set].
    rewrite parse_loop_step. cbn [index].
    rewrite (is_done_at _ 2 PATCH_SUFFIX) by reflexivity.
    change (starts_with_any PATCH_SUFFIX [PATCH_SUFFIX]) with true.
    cbn [bind index]. reflexivity. }
  rewrite Hparse.
  unfold patch_to_commit. cbn [actions]. rewrite Object_entries_one.
  cbn [commit_entries type own_set bind own_get]. rewrite jseqb_refl.
  unfold apply_commit. cbn [changes]. rewrite Object_entries_one.
  cbn [apply_entries change_type].
  destruct (removeFn path w1) as [w2 [u|e]]; reflexivity.
Qed.

(** ** The paths of a patch *)

Lemma added_fold (lines : list jsstring) :
  forall acc,
  let result :=
    fold_left
      (fun result line =>
         if startsWith line ADD_FILE_PREFIX
         then set_add result (skipn (length ADD_FILE_PREFIX) line)
         else result) lines acc in
  (NoDup acc -> NoDup result) /\
  (forall p, In p result <->
             In p acc \/
             exists line, In line lines /\ names_added_file line p).
Proof.
  clear normalize_NFC. induction lines as [|line lines IH]; intros acc; cbn zeta.
  - simpl. split; [auto|]. intros p. split; [auto|].
    intros [H|(l & [] & _)]; exact H.
  - cbn [fold_left].
    set (acc1 := if startsWith line ADD_FILE_PREFIX
                 then set_add acc (skipn (length ADD_FILE_PREFIX) line)
                 else acc).
    destruct (IH acc1) as [Hnd Hin]. cbn zeta in Hnd, Hin.
    assert (Hacc1 : forall p, In p acc1 <->
                              In p acc \/ names_added_file line p).
    { intros p. unfold acc1, names_added_file.
      destruct (startsWith line ADD_FILE_PREFIX);
        rewrite ?set_add_In; intuition congruence. }
    split.
    + intros Hacc. apply Hnd. unfold acc1.
      destruct (startsWith line ADD_FILE_PREFIX);
        repeat apply set_add_NoDup; exact Hacc.
    + intros p. rewrite Hin, Hacc1. split.
      * intros [[H|H]|(l & Hl & H)]; [now left| |].
        -- right. exists line. split; [now left|exact H].
        -- right. exists l. split; [now right|exact H].
      * intros [H|(l & [<-|Hl] & H)]; [now left; left|now left; right|].
        right. now exists l.
Qed.

(** X6: [identify_files_added] returns, without repetition, exactly the paths
    of the Add headers among the lines of the trimmed text. *)
Theorem identify_files_added_spec (text : jsstring) :
  NoDup (identify_files_added text) /\
  forall p, In p (identify_files_added text) <->
            exists line, In line (split_nl (trim text)) /\
                         names_added_file line p.
Proof.
  unfold identify_files_added.
  destruct (added_fold (split_nl (trim text)) []) as [Hnd Hin].
  cbn zeta in Hnd, Hin. split; [apply Hnd; constructor|].
  intros p. rewrite Hin. split; [intros [[]|H]; exact H|now right].
Qed.

(** The header that an action of the patch was read at. *)
Lemma parse_directive_headers (current_files : JsRecord jsstring)
  (lines : list jsstring) (fuel : nat) (p q : Parser) :
  Forall (fun e => exists line, In line lines /\
                   match type (snd e) with
                   | ADD => names_added_file line (fst e)
                   | _ => names_needed_file line (fst e)
                   end) (actions (patch p)) ->
  parse_directive fuel current_files lines p = Ok q ->
  Forall (fun e => exists line, In line lines /\
                   match type (snd e) with
                   | ADD => names_added_file line (fst e)
                   | _ => names_needed_file line (fst e)
                   end) (actions (patch q)).
Proof.
  intros Hp H. unfold parse_directive in H.
  destruct (read_str lines (index p) UPDATE_FILE_PREFIX false)
    as [[path c1]| |] eqn:E1; cbn [bind] in H; try discriminate.
  destruct (truthy path) eqn:T1.
  { destruct (has_property (actions (patch p)) path); [discriminate|].
    destruct (read_str lines c1 MOVE_FILE_TO_PREFIX false)
      as [[moveTo c2]| |]; cbn [bind] in H; try discriminate.
    destruct (negb (has_property current_files path)); [discriminate|].
    destruct (parse_update_file fuel lines _ c2 (fuzz p))
      as [[[action c3] fz3]| |] eqn:Eu; cbn [bind] in H; try discriminate.
    injection H as <-. apply Forall_own_set; [exact Hp|].
    apply parse_update_file_type in Eu as (Et & _).
    destruct (read_str_header _ _ _ _ _ E1 T1) as (line & Hin & Hs & Hpath).
    exists line. split; [exact Hin|]. cbn [snd fst type]. rewrite Et.
    left. now split. }
  destruct (read_str lines c1 DELETE_FILE_PREFIX false)
    as [[path2 c2]| |] eqn:E2; cbn [bind] in H; try discriminate.
  destruct (truthy path2) eqn:T2.
  { destruct (has_property (actions (patch p)) path2); [discriminate|].
    destruct (negb (has_property current_files path2)); [discriminate|].
    injection H as <-. apply Forall_own_set; [exact Hp|].
    destruct (read_str_header _ _ _ _ _ E2 T2) as (line & Hin & Hs & Hpath).
    exists line. split; [exact Hin|]. right. now split. }
  destruct (read_str lines c2 ADD_FILE_PREFIX false)
    as [[path3 c3]| |] eqn:E3; cbn [bind] in H; try discriminate.
  destruct (truthy path3) eqn:T3; [|discriminate].
  destruct (has_property (actions (patch p)) path3); [discriminate|].
  destruct (has_property current_files path3); [discriminate|].
  destruct (parse_add_file lines c3) as [[action c4]| |] eqn:Ea;
    cbn [bind] in H; try discriminate.
  injection H as <-. apply Forall_own_set; [exact Hp|].
  unfold parse_add_file in Ea.
  destruct (parse_add_loop (skipn c3 lines) c3 []) as [[added c5]| |];
    cbn [bind] in Ea; try discriminate.
  injection Ea as <- _.
  destruct (read_str_header _ _ _ _ _ E3 T3) as (line & Hin & Hs & Hpath).
  exists line. split; [exact Hin|]. now split.
Qed.

Lemma parse_loop_headers (current_files : JsRecord jsstring)
  (lines : list jsstring) :
  forall fuel p r,
  Forall (fun e => exists line, In line lines /\
                   match type (snd e) with
                   | ADD => names_added_file line (fst e)
                   | _ => names_needed_file line (fst e)
                   end) (actions (patch p)) ->
  parse_loop fuel current_files lines p = Ok r ->
  Forall (fun e => exists line, In line lines /\
                   match type (snd e) with
                   | ADD => names_added_file line (fst e)
                   | _ => names_needed_file line (fst e)
                   end) (actions (patch r)).
Proof.
  induction fuel as [|fuel IH]; intros p r Hp H; [discriminate|].
  cbn [parse_loop] in H.
  destruct (is_done lines (index p) [PATCH_SUFFIX]);
    [injection H as <-; exact Hp|].
  destruct (parse_directive fuel current_files lines p) as [q| |] eqn:Ed;
    cbn [bind] in H; try discriminate.
  apply IH in H; [exact H|].
  eapply parse_directive_headers; [exact Hp|exact Ed].
Qed.

(** X15: the two scans of the text agree with the parser: every path the patch
    adds is among those of [identify_files_added], and every path it updates
    or deletes is among those of [identify_files_needed]. *)
Theorem parsed_paths_identified (fuel : nat) (text : jsstring)
  (orig : JsRecord jsstring) (p : Patch) (fz : Z) :
  text_to_patch fuel text orig = Ok (p, fz) ->
  forall path action, In (path, action) (actions p) ->
  match type action with
  | ADD => In path (identify_files_added text)
  | _ => In path (identify_files_needed text)
  end.
Proof.
  intros H path action Hin.
  apply text_to_patch_returns in H as (q & Hq & -> & _).
  apply parse_loop_headers in Hq; [|constructor].
  rewrite Forall_forall in Hq. destruct (Hq _ Hin) as (line & Hl & Hn).
  cbn [fst snd] in Hn.
  destruct (added_fold (split_nl (trim text)) []) as [_ Ha].
  destruct (needed_fold (split_nl (trim text)) []) as [_ Hu].
  cbn zeta in Ha, Hu. unfold identify_files_added, identify_files_needed.
  destruct (type action); [apply Ha|apply Hu|apply Hu]; right; now exists line.
Qed.

(** ** The errors of the parser *)

Section LastLine.

Variable lines : list jsstring.

(** The last line is the end marker: a line that does not start with it has
    a line after it. *)
Hypothesis not_last :
  forall c l, nth_error lines c = Some l ->
  startsWith l PATCH_SUFFIX = false -> (S c < length lines)%nat.

Lemma read_str_inside (c : nat) (prefix : jsstring) :
  (c < length lines)%nat ->
  startsWith prefix PATCH_SUFFIX = false ->
  startsWith PATCH_SUFFIX prefix = false ->
  exists s c', read_str lines c prefix false = Ok (s, c') /\
               (c' < length lines)%nat.
Proof.
  intros Hc H1 H2. unfold read_str.
  destruct (nth_error lines c) as [l|] eqn:E.
  2:{ apply nth_error_None in E. lia. }
  destruct (startsWith l prefix) eqn:Es; [|now eauto].
  do 2 eexists. split; [reflexivity|]. apply (not_last c l E).
  now apply (starts_with_conflict l prefix).
Qed.

Lemma boundary_not_last (c : nat) (l : jsstring) (prefixes : list jsstring) :
  nth_error lines c = Some l -> In PATCH_SUFFIX prefixes ->
  starts_with_any l prefixes = false -> (S c < length lines)%nat.
Proof.
  intros E Hin H. apply (not_last c l E).
  unfold starts_with_any in H.
  destruct (startsWith l PATCH_SUFFIX) eqn:Es; [|reflexivity].
  assert (existsb (fun p => startsWith l (trim p)) prefixes = true);
    [|congruence].
  apply existsb_exists. exists PATCH_SUFFIX. split; [exact Hin|exact Es].
Qed.

Lemma peek_loop_inside (rest : list jsstring) :
  forall index old delLines insLines cs mode,
  skipn index lines = rest -> (index < length lines)%nat ->
  match peek_loop rest index old delLines insLines cs mode with
  | Ok (_, _, e, _) => (e < length lines)%nat
  | Throw e => parser_error e
  | OutOfFuel => True
  end.
Proof.
  assert (F : forall rest index old delLines insLines cs,
    skipn index lines = rest -> (index < length lines)%nat ->
    let '(_, _, e, _) := peek_finish rest index old delLines insLines cs in
    (e < length lines)%nat).
  { intros r index old delLines insLines cs Hr Hi. unfold peek_finish.
    destruct r as [|s r]; [exact Hi|].
    destruct (jseqb s END_OF_FILE_PREFIX) eqn:E; [|exact Hi].
    apply jseqb_true_iff in E. subst s.
    apply (not_last index END_OF_FILE_PREFIX); [|reflexivity].
    rewrite skipn_nth_error in Hr.
    destruct (nth_error lines index); congruence. }
  induction rest as [|s rest IH];
    intros index old delLines insLines cs mode Hr Hi; cbn [peek_loop].
  - specialize (F [] index old delLines insLines cs Hr Hi).
    now destruct (peek_finish [] index old delLines insLines cs)
      as [[[? ?] ?] ?].
  - specialize (F (s :: rest) index old delLines insLines cs Hr Hi).
    destruct (peek_finish (s :: rest) index old delLines insLines cs)
      as [[[? ?] e0] ?].
    destruct (starts_with_any s section_boundaries) eqn:Eb; [exact F|].
    destruct (jseqb s (str "***")); [exact F|].
    destruct (startsWith s (str "***")).
    { eexists. split; reflexivity. }
    assert (Hs : nth_error lines index = Some s /\
                 skipn (S index) lines = rest).
    { rewrite skipn_nth_error in Hr.
      destruct (nth_error lines index); [|discriminate].
      injection Hr as E1 E2. split; [now rewrite E1|exact E2]. }
    destruct Hs as (Hs & Hrest).
    assert (Hi' : (S index < length lines)%nat).
    { apply (boundary_not_last index s section_boundaries Hs); [|exact Eb].
      simpl. auto. }
    destruct (classify s) as [m line].
    destruct m, mode; cbn [Mode_eqb andb negb]; apply IH; assumption.
Qed.

Lemma parse_hunk_inside (fileLines : list jsstring) (acc : list Chunk)
  (index : Z) (cursor : nat) (fz : Z) :
  (cursor < length lines)%nat ->
  match parse_hunk lines fileLines acc index cursor fz with
  | Ok (_, _, cursor', _) => (cursor' < length lines)%nat
  | Throw e => parser_error e
  | OutOfFuel => True
  end.
Proof.
  intros Hc. unfold parse_hunk.
  destruct (read_str_inside cursor (str "@@ ") Hc eq_refl eq_refl)
    as (defStr & c1 & -> & Hc1). cbn [bind].
  destruct (match nth_error lines c1 with
            | Some l =>
                if negb (truthy defStr) && jseqb l (str "@@")
                then (l, S c1) else ([], c1)
            | None => ([], c1)
            end) as [sectionStr c2] eqn:Es.
  assert (Hc2 : (c2 < length lines)%nat).
  { destruct (nth_error lines c1) as [l|] eqn:E1; [|now injection Es as _ <-].
    destruct (negb (truthy defStr)); cbn [andb] in Es;
      [|now injection Es as _ <-].
    destruct (jseqb l (str "@@")) eqn:E2; [|now injection Es as _ <-].
    injection Es as _ <-. apply jseqb_true_iff in E2. subst l.
    now apply (not_last c1 (str "@@")). }
  destruct (negb (truthy defStr || truthy sectionStr || (index =? 0))).
  { eexists. split; reflexivity. }
  unfold peek_next_section.
  pose proof (peek_loop_inside (skipn c2 lines) c2 [] [] [] [] keep eq_refl
                Hc2) as Hp.
  destruct (peek_loop (skipn c2 lines) c2 [] [] [] [] keep)
    as [[[[ctx cs] e] eof]| |]; cbn [bind]; try exact Hp.
  destruct (find_context fileLines ctx index eof) as [newIndex fuzz].
  destruct (newIndex =? -1); [|exact Hp].
  destruct eof; eexists; split; reflexivity.
Qed.

Lemma parse_update_loop_inside (fileLines : list jsstring) :
  forall fuel acc index cursor fz,
  (cursor < length lines)%nat ->
  match parse_update_loop fuel lines fileLines acc index cursor fz with
  | Ok (_, cursor', _) => (cursor' < length lines)%nat
  | Throw e => parser_error e
  | OutOfFuel => True
  end.
Proof.
  induction fuel as [|fuel IH]; intros acc index cursor fz Hc; [exact I|].
  cbn [parse_update_loop].
  destruct (is_done lines cursor update_boundaries); [exact Hc|].
  pose proof (parse_hunk_inside fileLines acc index cursor fz Hc) as Hh.
  destruct (parse_hunk lines fileLines acc index cursor fz)
    as [[[[acc1 index1] c1] fz1]| |]; cbn [bind]; try exact Hh.
  now apply IH.
Qed.

Lemma parse_add_loop_inside (rest : list jsstring) :
  forall index acc,
  skipn index lines = rest -> (index < length lines)%nat ->
  match parse_add_loop rest index acc with
  | Ok (_, e) => (e < length lines)%nat
  | Throw e => parser_error e
  | OutOfFuel => True
  end.
Proof.
  induction rest as [|s rest IH]; intros index acc Hr Hi;
    cbn [parse_add_loop]; [exact Hi|].
  destruct (starts_with_any s add_boundaries) eqn:Eb; [exact Hi|].
  destruct (negb (startsWith s HUNK_ADD_LINE_PREFIX)).
  { eexists. split; reflexivity. }
  assert (Hs : nth_error lines index = Some s /\
               skipn (S index) lines = rest).
  { rewrite skipn_nth_error in Hr.
    destruct (nth_error lines index); [|discriminate].
    injection Hr as E1 E2. split; [now rewrite E1|exact E2]. }
  destruct Hs as (Hs & Hrest). apply IH; [exact Hrest|].
  apply (boundary_not_last index s add_boundaries Hs); [|exact Eb].
  simpl. auto.
Qed.

Lemma parse_directive_inside (current_files : JsRecord jsstring)
  (fuel : nat) (p : Parser) :
  (index p < length lines)%nat ->
  match parse_directive fuel current_files lines p with
  | Ok q => (index q < length lines)%nat
  | Throw e => parser_error e
  | OutOfFuel => True
  end.
Proof.
  intros Hp. unfold parse_directive.
  destruct (read_str_inside (index p) UPDATE_FILE_PREFIX Hp eq_refl eq_refl)
    as (path & c1 & -> & Hc1). cbn [bind].
  destruct (truthy path).
  { destruct (has_property (actions (patch p)) path).
    { eexists. split; reflexivity. }
    destruct (read_str_inside c1 MOVE_FILE_TO_PREFIX Hc1 eq_refl eq_refl)
      as (moveTo & c2 & -> & Hc2). cbn [bind].
    destruct (negb (has_property current_files path)).
    { eexists. split; reflexivity. }
    unfold parse_update_file.
    match goal with
    | |- context [parse_update_loop fuel lines ?fl [] 0 c2 (fuzz p)] =>
        pose proof (parse_update_loop_inside fl fuel [] 0 c2 (fuzz p) Hc2)
          as Hu;
        destruct (parse_update_loop fuel lines fl [] 0 c2 (fuzz p))
          as [[[cs c3] fz3]| |]; cbn [bind]; exact Hu
    end. }
  destruct (read_str_inside c1 DELETE_FILE_PREFIX Hc1 eq_refl eq_refl)
    as (path2 & c2 & -> & Hc2). cbn [bind].
  destruct (truthy path2).
  { destruct (has_property (actions (patch p)) path2).
    { eexists. split; reflexivity. }
    destruct (negb (has_property current_files path2)); [|exact Hc2].
    eexists. split; reflexivity. }
  destruct (read_str_inside c2 ADD_FILE_PREFIX Hc2 eq_refl eq_refl)
    as (path3 & c3 & -> & Hc3). cbn [bind].
  destruct (truthy path3); [|eexists; split; reflexivity].
  destruct (has_property (actions (patch p)) path3).
  { eexists. split; reflexivity. }
  destruct (has_property current_files path3).
  { eexists. split; reflexivity. }
  unfold parse_add_file.
  pose proof (parse_add_loop_inside (skipn c3 lines) c3 [] eq_refl Hc3) as Ha.
  destruct (parse_add_loop (skipn c3 lines) c3 []) as [[added c4]| |];
    cbn [bind]; exact Ha.
Qed.

Lemma parse_loop_inside (current_files : JsRecord jsstring) :
  forall fuel p,
  (index p < length lines)%nat ->
  match parse_loop fuel current_files lines p with
  | Ok r => (index r < length lines)%nat /\
            is_done lines (index r) [PATCH_SUFFIX] = true
  | Throw e => parser_error e
  | OutOfFuel => True
  end.
Proof.
  induction fuel as [|fuel IH]; intros p Hp; [exact I|].
  cbn [parse_loop].
  destruct (is_done lines (index p) [PATCH_SUFFIX]) eqn:Ed; [now split|].
  pose proof (parse_directive_inside current_files fuel p Hp) as Hd.
  destruct (parse_directive fuel current_files lines p) as [q| |];
    cbn [bind]; try exact Hd.
  now apply IH.
Qed.

(** The loop of [parse] stops at a line that starts with the end marker,
    so the check after it passes. *)
Lemma parse_inside (current_files : JsRecord jsstring) (fuel : nat)
  (p : Parser) (e : exn) :
  (index p < length lines)%nat ->
  parse fuel current_files lines p = Throw e -> parser_error e.
Proof.
  intros Hp H. unfold parse in H.
  pose proof (parse_loop_inside current_files fuel p Hp) as Hl.
  destruct (parse_loop fuel current_files lines p) as [q| |];
    cbn [bind] in H; try discriminate; [|now injection H as <-].
  destruct Hl as (Hq & Hd). unfold is_done in Hd. unfold startswith in H.
  destruct (nth_error lines (index q)) as [l|] eqn:E.
  2:{ apply nth_error_None in E. lia. }
  unfold starts_with_any in Hd. cbn [existsb] in Hd.
  rewrite orb_false_r in Hd. cbn [bind] in H. rewrite Hd in H.
  discriminate.
Qed.

End LastLine.

(** X16: every exception that [text_to_patch] throws is a patch error whose
    message starts in one of twelve ways. The last line of the text being
    the end marker, the parser never reads past it: the error of [read_str]
    on an index past the lines, the error [Missing End Patch] and a read of
    a line that does not exist are not among them. *)
Theorem text_to_patch_errors (fuel : nat) (text : jsstring)
  (orig : JsRecord jsstring) (e : exn) :
  text_to_patch fuel text orig = Throw e -> parser_error e.
Proof.
  unfold text_to_patch. set (lines := split_nl (trim text)).
  destruct (too_short lines || bad_prefix lines || bad_suffix lines) eqn:Eenv.
  { intros [= <-]. eexists. split; [reflexivity|].
    destruct (too_short lines); [reflexivity|].
    destruct (bad_prefix lines); [reflexivity|].
    destruct (bad_suffix lines); reflexivity. }
  apply orb_false_iff in Eenv as (Eenv & Elast).
  apply orb_false_iff in Eenv as (Eshort & _).
  unfold too_short in Eshort. apply Nat.ltb_ge in Eshort.
  unfold bad_suffix in Elast. apply negb_false_iff, jseqb_true_iff in Elast.
  destruct (parse fuel orig lines (mkParser 1 (mkPatch []) 0)) as [r| |]
    eqn:Ep; cbn [bind]; try discriminate.
  intros [= <-].
  apply (parse_inside lines) with (current_files := orig) (fuel := fuel)
                                  (p := mkParser 1 (mkPatch []) 0);
    [|cbn [index]; lia|exact Ep].
  intros c l Hc Hl.
  assert (Hlt : (c < length lines)%nat) by (apply nth_error_Some; congruence).
  destruct (Nat.eq_dec c (length lines - 1)) as [->|Hne]; [|lia].
  exfalso. rewrite (nth_error_nth' lines [] Hlt) in Hc.
  injection Hc as <-. rewrite Elast in Hl. discriminate.
Qed.

(** ** A hunk and the lines it is applied to *)

Lemma firstn_plus {A} (a b : nat) (l : list A) :
  firstn (a + b) l = firstn a l ++ firstn b (skipn a l).
Proof.
  revert l. induction a as [|a IH]; intros [|x l]; simpl; try reflexivity.
  - now rewrite firstn_nil.
  - now rewrite IH.
Qed.

Lemma lines_between_split (l : list jsstring) (a b c : Z) :
  0 <= a -> a <= b -> b <= c ->
  lines_between l a c = lines_between l a b ++ lines_between l b c.
Proof.
  intros Ha Hab Hbc. unfold lines_between.
  replace (Z.to_nat c - Z.to_nat a)%nat
    with ((Z.to_nat b - Z.to_nat a) + (Z.to_nat c - Z.to_nat b))%nat by lia.
  rewrite firstn_plus, skipn_skipn.
  now replace (Z.to_nat b - Z.to_nat a + Z.to_nat a)%nat with (Z.to_nat b)
    by lia.
Qed.

Lemma lines_between_all (l : list jsstring) (a : Z) :
  lines_between l a (len l) = lines_from l a.
Proof.
  unfold lines_between, lines_from, len. rewrite Nat2Z.id.
  apply firstn_all2. rewrite length_skipn. lia.
Qed.

Lemma lines_between_none (l : list jsstring) (a : Z) :
  lines_between l a a = [].
Proof. unfold lines_between. now rewrite Nat.sub_diag. Qed.

Lemma lines_between_one (l : list jsstring) (n : nat) :
  lines_between l (Z.of_nat n) (Z.of_nat n + 1) = firstn 1 (skipn n l).
Proof.
  unfold lines_between. rewrite Nat2Z.id.
  now replace (Z.to_nat (Z.of_nat n + 1) - n)%nat with 1%nat by lia.
Qed.

Lemma lines_between_shift (pre w : list jsstring) (a b : Z) :
  0 <= a -> a <= b ->
  lines_between (pre ++ w) (a + len pre) (b + len pre) = lines_between w a b.
Proof.
  intros Ha Hab. unfold lines_between, len.
  replace (Z.to_nat (b + Z.of_nat (length pre))
           - Z.to_nat (a + Z.of_nat (length pre)))%nat
    with (Z.to_nat b - Z.to_nat a)%nat by lia.
  replace (Z.to_nat (a + Z.of_nat (length pre)))
    with (Z.to_nat a + length pre)%nat by lia.
  now rewrite <- skipn_skipn, skipn_length_app.
Qed.

Lemma lines_from_shift (pre w : list jsstring) (a : Z) :
  0 <= a -> lines_from (pre ++ w) (a + len pre) = lines_from w a.
Proof.
  intros Ha. unfold lines_from, len.
  replace (Z.to_nat (a + Z.of_nat (length pre)))
    with (Z.to_nat a + length pre)%nat by lia.
  now rewrite <- skipn_skipn, skipn_length_app.
Qed.

Lemma lines_between_before (pre w : list jsstring) :
  lines_between (pre ++ w) 0 (len pre) = pre.
Proof.
  unfold lines_between, len. rewrite Nat2Z.id. cbn [Z.to_nat skipn].
  rewrite Nat.sub_0_r, firstn_app, Nat.sub_diag, firstn_all. cbn [firstn].
  now rewrite app_nil_r.
Qed.

Lemma rebuilt_emitted (w : list jsstring) (cs : list Chunk) :
  forall c, rebuilt w cs c = emitted w cs c (len w).
Proof.
  induction cs as [|ch cs IH]; intros c; simpl.
  - now rewrite lines_between_all.
  - now rewrite IH.
Qed.

Lemma emitted_snoc (w : list jsstring) (k k' : Z) (del ins : list jsstring)
  (cs : list Chunk) :
  forall c,
  emitted w (cs ++ [mkChunk k del ins]) c k'
  = emitted w cs c k ++ ins ++ lines_between w (k + len del) k'.
Proof.
  induction cs as [|ch cs IH]; intros c; simpl; [reflexivity|].
  now rewrite IH, <- !app_assoc.
Qed.

Lemma emitted_extend (w : list jsstring) (cs : list Chunk) (k k' : Z) :
  k <= k' ->
  forall c, 0 <= c -> ordered_between c k cs ->
  emitted w cs c k' = emitted w cs c k ++ lines_between w k k'.
Proof.
  intros Hk. induction cs as [|ch cs IH]; intros c Hc H; simpl in *.
  - now apply lines_between_split.
  - destruct H as (Hlo & H). pose proof (len_nonneg (del_lines ch)).
    rewrite IH by (try assumption; lia). now rewrite <- !app_assoc.
Qed.

(** The chunks of a hunk found at line [len pre] of a file, on that
    file. *)
Lemma rebuilt_shift (pre w : list jsstring) (cs : list Chunk) :
  forall c hi, 0 <= c -> ordered_between c hi cs ->
  rebuilt (pre ++ w) (map (shift_chunk (len pre)) cs) (c + len pre)
  = rebuilt w cs c.
Proof.
  induction cs as [|ch cs IH]; intros c hi Hc H; simpl in *.
  - now apply lines_from_shift.
  - destruct H as (Hlo & H). pose proof (len_nonneg (del_lines ch)).
    rewrite lines_between_shift by lia.
    replace (orig_index ch + len pre + len (del_lines ch))
      with (orig_index ch + len (del_lines ch) + len pre) by lia.
    now rewrite (IH _ hi) by (try assumption; lia).
Qed.

Lemma rebuilt_before (pre w : list jsstring) (cs : list Chunk) (hi : Z) :
  ordered_between 0 hi cs ->
  rebuilt (pre ++ w) (map (shift_chunk (len pre)) cs) 0
  = pre ++ rebuilt w cs 0.
Proof.
  intros H. rewrite <- (rebuilt_shift pre w cs 0 hi) by (try assumption; lia).
  pose proof (len_nonneg pre) as Hp.
  destruct cs as [|ch cs]; simpl in *.
  - unfold lines_from, len. rewrite Nat2Z.id. cbn [Z.to_nat skipn].
    now rewrite skipn_length_app.
  - destruct H as (Hlo & _).
    rewrite (lines_between_split _ 0 (len pre)) by lia.
    now rewrite lines_between_before, <- app_assoc.
Qed.

Lemma hunk_apply_snoc (body : list (Mode * jsstring)) (m : Mode)
  (line : jsstring) :
  forall w,
  hunk_apply (body ++ [(m, line)]) w
  = hunk_apply body w
    ++ match m with
       | add => [line]
       | delete => []
       | keep =>
           firstn 1
             (skipn (length (filter (fun ml => negb (Mode_eqb (fst ml) add))
                               body)) w)
       end.
Proof.
  induction body as [|[m0 l0] body IH]; intros w.
  - destruct m; simpl; now rewrite ?app_nil_r.
  - destruct m0; cbn [app hunk_apply filter fst Mode_eqb negb length];
      rewrite IH; rewrite ?skipn_skipn, <- ?app_assoc;
      rewrite ?Nat.add_1_r; reflexivity.
Qed.

Lemma hunk_old_snoc (done : list jsstring) (s : jsstring) :
  hunk_old (done ++ [s])
  = hunk_old done
    ++ (if Mode_eqb (fst (classify s)) add then [] else [snd (classify s)]).
Proof.
  unfold hunk_old. rewrite map_app, filter_app, map_app. cbn [map filter].
  now destruct (Mode_eqb (fst (classify s)) add).
Qed.

Lemma hunk_old_length (done : list jsstring) :
  length (filter (fun ml => negb (Mode_eqb (fst ml) add)) (map classify done))
  = length (hunk_old done).
Proof. unfold hunk_old. now rewrite length_map. Qed.

(** On its own old side a hunk gives its new side. *)
Lemma hunk_apply_old (body : list jsstring) :
  hunk_apply (map classify body) (hunk_old body) = hunk_new body.
Proof.
  unfold hunk_old, hunk_new.
  induction body as [|s body IH]; [reflexivity|].
  cbn [map]. destruct (classify s) as [m line].
  destruct m; cbn [filter fst snd Mode_eqb negb map hunk_apply skipn firstn];
    rewrite IH; reflexivity.
Qed.

Lemma peek_state_add (done old del ins : list jsstring) (cs : list Chunk)
  (mode : Mode) (s line : jsstring) :
  classify s = (add, line) ->
  peek_state done old del ins cs mode ->
  peek_state (done ++ [s]) old del (ins ++ [line]) cs add.
Proof.
  intros Hc (Hold & _ & pre & Hpre & Hord & Hnew).
  unfold peek_state. rewrite hunk_old_snoc, Hc. cbn [fst snd Mode_eqb].
  rewrite app_nil_r. split; [exact Hold|]. split; [discriminate|].
  exists pre. repeat split; try assumption.
  intros w. rewrite map_app. cbn [map]. rewrite Hc, hunk_apply_snoc.
  now rewrite app_assoc, Hnew.
Qed.

Lemma peek_state_delete (done old del ins : list jsstring) (cs : list Chunk)
  (mode : Mode) (s line : jsstring) :
  classify s = (delete, line) ->
  peek_state done old del ins cs mode ->
  peek_state (done ++ [s]) (old ++ [line]) (del ++ [line]) ins cs delete.
Proof.
  intros Hc (Hold & _ & pre & Hpre & Hord & Hnew).
  unfold peek_state. rewrite hunk_old_snoc, Hc. cbn [fst snd Mode_eqb].
  rewrite Hold. split; [reflexivity|]. split; [discriminate|].
  exists pre. split; [now rewrite Hpre, app_assoc|]. split; [exact Hord|].
  intros w. rewrite map_app. cbn [map]. rewrite Hc, hunk_apply_snoc.
  now rewrite app_nil_r.
Qed.

Lemma peek_state_keep (done old : list jsstring) (cs : list Chunk)
  (s line : jsstring) :
  classify s = (keep, line) ->
  peek_state done old [] [] cs keep ->
  peek_state (done ++ [s]) (old ++ [line]) [] [] cs keep.
Proof.
  intros Hc (Hold & _ & pre & Hpre & Hord & Hnew).
  rewrite app_nil_r in Hpre. subst pre.
  unfold peek_state. rewrite hunk_old_snoc, Hc. cbn [fst snd Mode_eqb].
  rewrite Hold. split; [reflexivity|]. split; [now split|].
  exists (old ++ [line]). rewrite !app_nil_r, len_app.
  change (len [line]) with 1. split; [reflexivity|].
  split; [apply (ordered_between_weaken _ _ (len old)); [lia|exact Hord]|].
  intros w. rewrite map_app. cbn [map]. rewrite Hc, hunk_apply_snoc.
  rewrite (emitted_extend _ _ (len old)) by (try assumption; lia).
  specialize (Hnew w). rewrite app_nil_r in Hnew. rewrite Hnew.
  rewrite hunk_old_length, Hold. unfold len.
  now rewrite lines_between_one, app_nil_r.
Qed.

Lemma peek_state_flush (done old del ins : list jsstring) (cs : list Chunk)
  (mode : Mode) :
  peek_state done old del ins cs mode ->
  peek_state done old [] [] (flush old del ins cs) keep.
Proof.
  intros (Hold & _ & pre & Hpre & Hord & Hnew). unfold peek_state.
  split; [exact Hold|]. split; [now split|].
  exists old. rewrite !app_nil_r. split; [reflexivity|].
  assert (Hlen : len old = len pre + len del) by (now rewrite Hpre, len_app).
  pose proof (len_nonneg del) as Hdel.
  split.
  { apply flush_ordered. now replace (len old - len del) with (len pre)
      by lia. }
  intros w. rewrite app_nil_r. unfold flush.
  destruct (negb (Nat.eqb (length ins) 0) || negb (Nat.eqb (length del) 0))
    eqn:E.
  - replace (len old - len del) with (len pre) by lia.
    rewrite emitted_snoc.
    replace (len pre + len del) with (len old) by lia.
    now rewrite lines_between_none, app_nil_r.
  - apply orb_false_iff in E as (Ei & Ed).
    apply negb_false_iff, Nat.eqb_eq in Ei, Ed.
    destruct ins; [|discriminate]. destruct del; [|discriminate].
    rewrite app_nil_r in Hpre. subst pre.
    specialize (Hnew w). now rewrite app_nil_r in Hnew.
Qed.

Lemma peek_loop_applies (rest : list jsstring) :
  forall index done old del ins cs mode ctx cs' e eof,
  peek_state done old del ins cs mode ->
  peek_loop rest index old del ins cs mode = Ok (ctx, cs', e, eof) ->
  exists body rest',
    rest = body ++ rest' /\
    e = (index + length body + (if eof then 1 else 0))%nat /\
    ctx = hunk_old (done ++ body) /\
    forall w, emitted w cs' 0 (len ctx)
              = hunk_apply (map classify (done ++ body)) w.
Proof.
  assert (F : forall rest index done old del ins cs mode ctx cs' e eof,
    peek_state done old del ins cs mode ->
    Ok (peek_finish rest index old del ins cs) = Ok (ctx, cs', e, eof) ->
    exists body rest',
      rest = body ++ rest' /\
      e = (index + length body + (if eof then 1 else 0))%nat /\
      ctx = hunk_old (done ++ body) /\
      forall w, emitted w cs' 0 (len ctx)
                = hunk_apply (map classify (done ++ body)) w).
  { intros r index done old del ins cs mode ctx cs' e eof Hst H.
    exists [], r. rewrite app_nil_r. cbn [app length].
    assert (E : ctx = old /\ cs' = flush old del ins cs /\
                e = (index + (if eof then 1 else 0))%nat).
    { unfold peek_finish in H.
      destruct r as [|s r]; [|destruct (jseqb s END_OF_FILE_PREFIX)];
        injection H as <- <- <- <-; repeat split; lia. }
    destruct E as (-> & -> & ->).
    split; [reflexivity|]. split; [lia|].
    split; [symmetry; exact (proj1 Hst)|].
    apply peek_state_flush in Hst.
    destruct Hst as (_ & _ & pre & Hpre & _ & Hnew).
    rewrite app_nil_r in Hpre. subst pre.
    intros w. specialize (Hnew w). now rewrite app_nil_r in Hnew. }
  induction rest as [|s rest IH];
    intros index done old del ins cs mode ctx cs' e eof Hst H.
  - cbn [peek_loop] in H. now apply (F _ _ _ _ _ _ _ _ _ _ _ _ Hst).
  - cbn [peek_loop] in H.
    destruct (starts_with_any s section_boundaries);
      [now apply (F _ _ _ _ _ _ _ _ _ _ _ _ Hst)|].
    destruct (jseqb s (str "***"));
      [now apply (F _ _ _ _ _ _ _ _ _ _ _ _ Hst)|].
    destruct (startsWith s (str "***")); [discriminate|].
    assert (Step : forall old1 del1 ins1 cs1 mode1,
      peek_state (done ++ [s]) old1 del1 ins1 cs1 mode1 ->
      peek_loop rest (S index) old1 del1 ins1 cs1 mode1
      = Ok (ctx, cs', e, eof) ->
      exists body rest',
        s :: rest = body ++ rest' /\
        e = (index + length body + (if eof then 1 else 0))%nat /\
        ctx = hunk_old (done ++ body) /\
        forall w, emitted w cs' 0 (len ctx)
                  = hunk_apply (map classify (done ++ body)) w).
    { intros old1 del1 ins1 cs1 mode1 Hst1 H1.
      destruct (IH _ _ _ _ _ _ _ _ _ _ _ Hst1 H1)
        as (body & rest' & -> & -> & Hctx & Hr).
      exists (s :: body), rest'. rewrite <- app_assoc in Hctx, Hr.
      repeat split; try assumption. cbn [length]. lia. }
    destruct (classify s) as [m line] eqn:Hc.
    destruct m.
    + destruct mode; cbn [Mode_eqb andb negb] in H.
      * destruct Hst as (Hold & Hk & Hrest).
        destruct (Hk eq_refl) as [-> ->].
        apply (Step _ _ _ _ _ (peek_state_keep _ _ _ _ _ Hc
                                 (conj Hold (conj Hk Hrest))) H).
      * apply (Step _ _ _ _ _ (peek_state_keep _ _ _ _ _ Hc
                                 (peek_state_flush _ _ _ _ _ _ Hst)) H).
      * apply (Step _ _ _ _ _ (peek_state_keep _ _ _ _ _ Hc
                                 (peek_state_flush _ _ _ _ _ _ Hst)) H).
    + assert (H' : peek_loop rest (S index) old del (ins ++ [line]) cs add
                   = Ok (ctx, cs', e, eof))
        by (destruct mode; exact H).
      apply (Step _ _ _ _ _ (peek_state_add _ _ _ _ _ _ _ _ Hc Hst) H').
    + assert (H' : peek_loop rest (S index) (old ++ [line]) (del ++ [line])
                     ins cs delete = Ok (ctx, cs', e, eof))
        by (destruct mode; exact H).
      apply (Step _ _ _ _ _ (peek_state_delete _ _ _ _ _ _ _ _ Hc Hst) H').
Qed.

(** The hunk read at [i]: its lines, and what its chunks do to any
    lines. *)
Lemma peek_next_section_body (lines : list jsstring) (i : nat)
  (ctx : list jsstring) (cs : list Chunk) (e : nat) (eof : bool) :
  peek_next_section lines i = Ok (ctx, cs, e, eof) ->
  exists body rest,
    skipn i lines = body ++ rest /\
    e = (i + length body + (if eof then 1 else 0))%nat /\
    ctx = hunk_old body /\
    ordered_between 0 (len ctx) cs /\
    forall w, emitted w cs 0 (len ctx) = hunk_apply (map classify body) w.
Proof.
  intros H. unfold peek_next_section in H.
  assert (Hord : ordered_between 0 (len ctx) cs).
  { eapply peek_loop_ordered; [|exact H]. simpl. lia. }
  apply (peek_loop_applies _ _ []) in H.
  - destruct H as (body & rest & Hs & He & Hctx & Hr). cbn [app] in *.
    exists body, rest. now repeat split.
  - split; [reflexivity|]. split; [now split|].
    exists []. split; [reflexivity|]. split; [|intros w; reflexivity].
    change (0 <= 0). lia.
Qed.

Lemma ordered_between_from (cs : list Chunk) (lo lo' hi : Z) :
  lo' <= lo -> ordered_between lo hi cs -> ordered_between lo' hi cs.
Proof.
  intros Hl H. destruct cs as [|c cs]; simpl in *; [lia|].
  destruct H as (H1 & H2). split; [lia|exact H2].
Qed.

(** X17: what a hunk does to a file. [peek_next_section] reads a block of
    lines (and the end-of-file marker after it, when there is one); the
    context block it returns is the lines of the block that are not
    additions. When the block is found at line [len pre] of a file, the
    loop of [_get_updated_file], run with the chunks moved there as
    [parse_update_file] moves them, accepts them and gives the lines
    before, then the block applied to the lines from there on (a context
    line keeps the line of the file, a deleted line drops it, an added line
    is put in), then the lines of the file after them. On its own context
    block the hunk gives its lines that are not deletions. *)
Theorem peek_next_section_applies (lines : list jsstring) (i : nat)
  (ctx : list jsstring) (cs : list Chunk) (e : nat) (eof : bool) :
  peek_next_section lines i = Ok (ctx, cs, e, eof) ->
  exists body rest,
    skipn i lines = body ++ rest /\
    e = (i + length body + (if eof then 1 else 0))%nat /\
    ctx = hunk_old body /\
    hunk_apply (map classify body) ctx = hunk_new body /\
    forall path pre w, (length ctx <= length w)%nat ->
    exists destLines origIndex,
      apply_chunks path (pre ++ w) (map (shift_chunk (len pre)) cs) [] 0
      = Ok (destLines, origIndex) /\
      destLines ++ slice_from (pre ++ w) origIndex
      = pre ++ hunk_apply (map classify body) w ++ skipn (length ctx) w.
Proof.
  intros H.
  destruct (peek_next_section_body _ _ _ _ _ _ H)
    as (body & rest & Hs & He & Hctx & Hord & Hr).
  exists body, rest. repeat split; try assumption.
  { rewrite Hctx. apply hunk_apply_old. }
  intros path pre w Hw.
  assert (Hw' : len ctx <= len w) by (unfold len; lia).
  pose proof (len_nonneg pre) as Hp.
  destruct (apply_chunks_in_order path (pre ++ w)
              (map (shift_chunk (len pre)) cs) [] 0 ltac:(lia))
    as (d & o & Ha & _ & Hd).
  { apply (ordered_accepted _ _ 0 (len ctx + len pre)).
    - apply (ordered_between_from _ (0 + len pre)); [lia|].
      now apply ordered_between_shift.
    - rewrite len_app. lia. }
  exists d, o. split; [exact Ha|]. rewrite Hd. cbn [app].
  rewrite (rebuilt_before _ _ _ (len ctx)) by exact Hord.
  rewrite rebuilt_emitted.
  rewrite (emitted_extend _ _ (len ctx)) by (try assumption; lia).
  rewrite Hr, lines_between_all. unfold lines_from, len.
  now rewrite Nat2Z.id.
Qed.

(** ** An Update action and the file it updates *)

Lemma lines_from_split (l : list jsstring) (a b : Z) :
  0 <= a -> a <= b ->
  lines_from l a = lines_between l a b ++ lines_from l b.
Proof.
  intros Ha Hab. unfold lines_from, lines_between.
  replace (Z.to_nat b) with ((Z.to_nat b - Z.to_nat a) + Z.to_nat a)%nat at 2
    by lia.
  now rewrite <- skipn_skipn, firstn_skipn.
Qed.

Lemma rebuilt_from (l : list jsstring) (cs : list Chunk) (c k hi : Z) :
  0 <= c -> c <= k -> ordered_between k hi cs ->
  rebuilt l cs c = lines_between l c k ++ rebuilt l cs k.
Proof.
  intros Hc Hk H. destruct cs as [|ch cs]; simpl in *.
  - now apply lines_from_split.
  - destruct H as (Hlo & _).
    rewrite (lines_between_split l c k) by lia. now rewrite <- app_assoc.
Qed.

Lemma emitted_from (l : list jsstring) (cs : list Chunk) (c k hi : Z) :
  0 <= c -> c <= k -> ordered_between k hi cs ->
  emitted l cs c hi = lines_between l c k ++ emitted l cs k hi.
Proof.
  intros Hc Hk H. destruct cs as [|ch cs]; simpl in *.
  - now apply lines_between_split.
  - destruct H as (Hlo & _).
    rewrite (lines_between_split l c k) by lia. now rewrite <- app_assoc.
Qed.

Lemma rebuilt_app (l : list jsstring) (cs1 cs2 : list Chunk) (k hi : Z) :
  ordered_between k hi cs2 ->
  forall c, 0 <= c -> ordered_between c k cs1 ->
  rebuilt l (cs1 ++ cs2) c = emitted l cs1 c k ++ rebuilt l cs2 k.
Proof.
  intros H2. induction cs1 as [|ch cs1 IH]; intros c Hc H1; simpl in *.
  - now apply (rebuilt_from _ _ _ _ hi).
  - destruct H1 as (Hlo & H1). pose proof (len_nonneg (del_lines ch)).
    rewrite IH by (try assumption; lia). now rewrite <- !app_assoc.
Qed.

Lemma emitted_shift (pre w : list jsstring) (cs : list Chunk) (k : Z) :
  forall c, 0 <= c -> ordered_between c k cs ->
  emitted (pre ++ w) (map (shift_chunk (len pre)) cs) (c + len pre)
    (k + len pre)
  = emitted w cs c k.
Proof.
  induction cs as [|ch cs IH]; intros c Hc H; simpl in *.
  - now apply lines_between_shift.
  - destruct H as (Hlo & H). pose proof (len_nonneg (del_lines ch)).
    rewrite lines_between_shift by lia.
    replace (orig_index ch + len pre + len (del_lines ch))
      with (orig_index ch + len (del_lines ch) + len pre) by lia.
    now rewrite IH by (try assumption; lia).
Qed.

(** ** The hunks the parser reads *)

Lemma jseqb_startsWith (s p : jsstring) :
  jseqb s p = true -> startsWith s p = true.
Proof.
  intros H. apply jseqb_true_iff in H. subst s.
  rewrite <- (app_nil_r p) at 1. apply startsWith_app.
Qed.

Lemma hunk_body_prefix (rest : list jsstring) :
  firstn (length (hunk_body rest)) rest = hunk_body rest.
Proof.
  induction rest as [|s rest IH]; [reflexivity|]. cbn [hunk_body].
  destruct (starts_with_any s section_boundaries || startsWith s (str "***"));
    [reflexivity|].
  cbn [length firstn]. now rewrite IH.
Qed.

(** The loop of [peek_next_section] stops where [hunk_body] does. *)
Lemma peek_loop_reads (rest : list jsstring) :
  forall index old del ins cs mode ctx cs' e eof,
  peek_loop rest index old del ins cs mode = Ok (ctx, cs', e, eof) ->
  eof = match nth_error rest (length (hunk_body rest)) with
        | Some l => jseqb l END_OF_FILE_PREFIX
        | None => false
        end /\
  e = (index + length (hunk_body rest) + (if eof then 1 else 0))%nat.
Proof.
  induction rest as [|s rest IH];
    intros index old del ins cs mode ctx cs' e eof H.
  - cbn [peek_loop peek_finish] in H. injection H as _ _ <- <-.
    cbn [hunk_body length nth_error]. split; [reflexivity|lia].
  - cbn [peek_loop hunk_body] in *.
    assert (F : Ok (peek_finish (s :: rest) index old del ins cs)
                = Ok (ctx, cs', e, eof) ->
                eof = jseqb s END_OF_FILE_PREFIX /\
                e = (index + 0 + (if eof then 1 else 0))%nat).
    { unfold peek_finish. destruct (jseqb s END_OF_FILE_PREFIX);
        intros [= _ _ <- <-]; split; try reflexivity; lia. }
    destruct (starts_with_any s section_boundaries); cbn [orb];
      [exact (F H)|].
    destruct (jseqb s (str "***")) eqn:E3.
    { rewrite (jseqb_startsWith _ _ E3). exact (F H). }
    destruct (startsWith s (str "***")); [discriminate|].
    cbn [length nth_error].
    destruct (classify s) as [m line].
    destruct m, mode; cbn [Mode_eqb andb negb] in H;
      apply IH in H as [He Hx]; (split; [exact He|lia]).
Qed.

(** The hunk read at [i]: its lines are those of [hunk_body]. *)
Lemma peek_next_section_reads (lines : list jsstring) (i : nat)
  (ctx : list jsstring) (cs : list Chunk) (e : nat) (eof : bool) :
  peek_next_section lines i = Ok (ctx, cs, e, eof) ->
  eof = match nth_error lines (i + length (hunk_body (skipn i lines))) with
        | Some l => jseqb l END_OF_FILE_PREFIX
        | None => false
        end /\
  e = (i + length (hunk_body (skipn i lines)) + (if eof then 1 else 0))%nat /\
  ctx = hunk_old (hunk_body (skipn i lines)) /\
  ordered_between 0 (len ctx) cs /\
  forall w, emitted w cs 0 (len ctx)
            = hunk_apply (map classify (hunk_body (skipn i lines))) w.
Proof.
  intros H.
  destruct (peek_next_section_body _ _ _ _ _ _ H)
    as (body & rest & Hs & He & Hctx & Hord & Hr).
  unfold peek_next_section in H. apply peek_loop_reads in H as (Heof & He').
  rewrite nth_error_skipn in Heof.
  assert (Hb : body = hunk_body (skipn i lines)).
  { rewrite <- hunk_body_prefix.
    replace (length (hunk_body (skipn i lines))) with (length body) by lia.
    rewrite Hs, firstn_app, Nat.sub_diag, firstn_all. cbn [firstn].
    now rewrite app_nil_r. }
  subst body. now repeat split.
Qed.

(** One turn of the loop of [parse_update_file]: the hunk at the cursor is
    read, found in the file, and its chunks are moved there. *)
Lemma parse_hunk_step (lines fileLines : list jsstring) (acc : list Chunk)
  (index : Z) (cursor : nat) (fz : Z) (acc' : list Chunk) (index' : Z)
  (cursor' : nat) (fz' : Z) :
  parse_hunk lines fileLines acc index cursor fz
  = Ok (acc', index', cursor', fz') ->
  exists cs newIndex fuzz,
    cursor' = hunk_end lines cursor /\
    find_context fileLines (hunk_old (hunk_lines lines cursor)) index
      (hunk_eof lines cursor) = (newIndex, fuzz) /\
    newIndex <> -1 /\
    acc' = acc ++ map (shift_chunk newIndex) cs /\
    index' = newIndex + len (hunk_old (hunk_lines lines cursor)) /\
    ordered_between 0 (len (hunk_old (hunk_lines lines cursor))) cs /\
    forall w, emitted w cs 0 (len (hunk_old (hunk_lines lines cursor)))
              = hunk_apply (map classify (hunk_lines lines cursor)) w.
Proof.
  intros H.
  assert (R : exists ctx cs eof newIndex fuzz,
    peek_next_section lines (hunk_start lines cursor)
    = Ok (ctx, cs, cursor', eof) /\
    find_context fileLines ctx index eof = (newIndex, fuzz) /\
    newIndex <> -1 /\
    acc' = acc ++ map (shift_chunk newIndex) cs /\
    index' = newIndex + len ctx).
  { unfold parse_hunk, read_str in H. unfold hunk_start.
    destruct (nth_error lines cursor) as [l|] eqn:E0; [|discriminate].
    destruct (startsWith l (str "@@ ")) eqn:Es; cbn [bind] in H.
    - destruct (nth_error lines (S cursor)) as [l'|].
      + destruct (negb (truthy (skipn (length (str "@@ ")) l))
                  && jseqb l' (str "@@")); hunk_found H.
      + hunk_found H.
    - rewrite E0 in H.
      change (negb (truthy []) && jseqb l (str "@@"))
        with (jseqb l (str "@@")) in H.
      destruct (jseqb l (str "@@")); hunk_found H. }
  destruct R as (ctx & cs & eof & newIndex & fuzz & Ep & Ef & Hfound & Hacc
                 & Hi).
  destruct (peek_next_section_reads _ _ _ _ _ _ Ep)
    as (Heof & He & Hctx & Hord & Hr).
  change (hunk_body (skipn (hunk_start lines cursor) lines))
    with (hunk_lines lines cursor) in *.
  assert (Heof' : eof = hunk_eof lines cursor) by exact Heof.
  subst eof ctx. exists cs, newIndex, fuzz. now repeat split.
Qed.

Lemma hunk_start_le (lines : list jsstring) (c : nat) :
  (c <= hunk_start lines c <= c + 2)%nat.
Proof.
  unfold hunk_start. destruct (nth_error lines c) as [l|]; [|lia].
  destruct (startsWith l (str "@@ ")).
  - destruct (nth_error lines (S c)) as [l'|]; [|lia].
    destruct (negb (truthy (skipn (length (str "@@ ")) l))
              && jseqb l' (str "@@")); lia.
  - destruct (jseqb l (str "@@")); lia.
Qed.

Lemma hunk_end_le (lines : list jsstring) (c : nat) :
  (c <= hunk_end lines c)%nat.
Proof. unfold hunk_end. pose proof (hunk_start_le lines c). lia. Qed.

(** A turn that reads no line is repeated for ever. *)
Lemma parse_update_loop_stalls (lines fileLines : list jsstring) :
  forall fuel acc index cursor fz r,
  is_done lines cursor update_boundaries = false ->
  hunk_end lines cursor = cursor ->
  parse_update_loop fuel lines fileLines acc index cursor fz <> Ok r.
Proof.
  induction fuel as [|fuel IH]; intros acc index cursor fz r Hd He H;
    [discriminate|].
  cbn [parse_update_loop] in H. rewrite Hd in H.
  destruct (parse_hunk lines fileLines acc index cursor fz)
    as [[[[acc1 index1] c1] fz1]| |] eqn:Eh; cbn [bind] in H;
    try discriminate.
  destruct (parse_hunk_step _ _ _ _ _ _ _ _ _ _ Eh) as (cs & ni & fu & Hc & _).
  rewrite He in Hc. subst c1. exact (IH _ _ _ _ _ Hd He H).
Qed.

Lemma read_hunks_done (lines : list jsstring) (fuel c : nat) :
  is_done lines c update_boundaries = true ->
  fst (read_hunks fuel lines c) = [].
Proof.
  intros H. destruct fuel as [|fuel]; [reflexivity|].
  cbn [read_hunks]. now rewrite H.
Qed.

Lemma read_hunks_step (lines : list jsstring) (fuel c : nat) :
  (length lines <= fuel + c)%nat ->
  is_done lines c update_boundaries = false ->
  (c < hunk_end lines c)%nat ->
  exists fuel',
    fuel = S fuel' /\
    (length lines <= fuel' + hunk_end lines c)%nat /\
    fst (read_hunks fuel lines c)
    = (hunk_lines lines c, hunk_eof lines c)
      :: fst (read_hunks fuel' lines (hunk_end lines c)).
Proof.
  intros Hf Hd Hlt. destruct fuel as [|fuel].
  - unfold is_done in Hd.
    destruct (nth_error lines c) eqn:E; [|discriminate].
    assert (c < length lines)%nat by (apply nth_error_Some; congruence). lia.
  - exists fuel. split; [reflexivity|]. split; [lia|].
    cbn [read_hunks]. rewrite Hd.
    now destruct (read_hunks fuel lines (hunk_end lines c)).
Qed.

(** A turn of the loop that returns has read lines. *)
Lemma parse_update_loop_advances (lines fileLines : list jsstring)
  (fuel : nat) (acc : list Chunk) (index : Z) (cursor : nat) (fz : Z)
  (r : list Chunk * nat * Z) :
  is_done lines cursor update_boundaries = false ->
  parse_update_loop fuel lines fileLines acc index cursor fz = Ok r ->
  (cursor < hunk_end lines cursor)%nat.
Proof.
  intros Hd H. pose proof (hunk_end_le lines cursor).
  destruct (Nat.eq_dec (hunk_end lines cursor) cursor) as [E|E]; [|lia].
  exfalso. exact (parse_update_loop_stalls _ _ _ _ _ _ _ _ Hd E H).
Qed.

(** ** The chunks of an Update action, hunk by hunk *)

(** A hunk that is not anchored is found at or after the running position;
    the first hunk may be anchored. *)
Lemma parse_update_loop_monotone (lines fileLines : list jsstring) :
  forall fuel fuelR acc index cursor fz acc' cursor' fz' lo,
  (length lines <= fuelR + cursor)%nat ->
  ordered_between lo index acc ->
  (acc = [] /\ later_hunks_unanchored (fst (read_hunks fuelR lines cursor))) \/
  Forall (fun hunk => snd hunk = false) (fst (read_hunks fuelR lines cursor)) ->
  parse_update_loop fuel lines fileLines acc index cursor fz
  = Ok (acc', cursor', fz') ->
  exists lo' hi, ordered_between lo' hi acc'.
Proof.
  induction fuel as [|fuel IH];
    intros fuelR acc index cursor fz acc' cursor' fz' lo Hf Hord Hun H;
    [discriminate|].
  pose proof H as H0. cbn [parse_update_loop] in H.
  destruct (is_done lines cursor update_boundaries) eqn:Hd.
  { injection H as <- _ _. now exists lo, index. }
  pose proof (parse_update_loop_advances _ _ _ _ _ _ _ _ Hd H0) as Hlt.
  destruct (parse_hunk lines fileLines acc index cursor fz)
    as [[[[acc1 index1] c1] fz1]| |] eqn:Eh; cbn [bind] in H;
    try discriminate.
  destruct (parse_hunk_step _ _ _ _ _ _ _ _ _ _ Eh)
    as (cs & newIndex & fuzz & -> & Ef & Hfound & -> & -> & Hcs & _).
  destruct (read_hunks_step _ _ _ Hf Hd Hlt) as (fuelR' & -> & Hf' & Hr).
  rewrite Hr in Hun.
  set (ctx := hunk_old (hunk_lines lines cursor)) in *.
  assert (Hshift : ordered_between newIndex (newIndex + len ctx)
                     (map (shift_chunk newIndex) cs)).
  { replace newIndex with (0 + newIndex) at 1 by lia.
    replace (newIndex + len ctx) with (len ctx + newIndex) by lia.
    now apply ordered_between_shift. }
  destruct Hun as [[-> Hl]|Hall].
  - cbn [app] in H. unfold later_hunks_unanchored in Hl. cbn [tl] in Hl.
    exact (IH fuelR' _ _ _ _ _ _ _ newIndex Hf' Hshift (or_intror Hl) H).
  - pose proof (Forall_inv Hall) as Heof. cbn [snd] in Heof.
    apply Forall_inv_tail in Hall. rewrite Heof in Ef.
    unfold find_context in Ef.
    destruct (find_context_core_range _ _ _ _ _ Ef) as [[Hm _]|[Hge _]];
      [contradiction|].
    refine (IH fuelR' _ _ _ _ _ _ _ lo Hf' _ (or_intror Hall) H).
    apply (ordered_between_app _ _ _ newIndex); [|exact Hshift].
    now apply (ordered_between_weaken _ _ index).
Qed.

Lemma parse_update_file_monotone (fuel : nat) (lines : list jsstring)
  (text : jsstring) (cursor : nat) (fz : Z) (action : PatchAction)
  (cursor' : nat) (fz' : Z) :
  parse_update_file fuel lines text cursor fz = Ok (action, cursor', fz') ->
  later_hunks_unanchored (fst (read_hunks (length lines) lines cursor)) ->
  chunks_monotone (chunks action).
Proof.
  unfold parse_update_file.
  destruct (parse_update_loop fuel lines (split_nl text) [] 0 cursor fz)
    as [[[cs c4] fz4]| |] eqn:El; cbn [bind]; try discriminate.
  intros [= <- _ _] Hun. cbn [chunks].
  assert (Hf : (length lines <= length lines + cursor)%nat) by lia.
  assert (H0 : ordered_between 0 0 []) by (simpl; lia).
  destruct (parse_update_loop_monotone _ _ _ _ _ _ _ _ _ _ _ _ Hf H0
              (or_introl (conj eq_refl Hun)) El) as (lo & hi & H).
  exact (ordered_between_monotone _ _ _ H).
Qed.

(** Chunks that are not in order are out of order for the commit
    builder. *)
Lemma chunks_in_or_out_of_order (n : Z) (cs : list Chunk) :
  forall c, chunk_out_of_order n cs c \/ exists hi, ordered_between c hi cs.
Proof.
  induction cs as [|ch cs IH]; intros c; cbn [chunk_out_of_order
    ordered_between].
  - right. exists c. lia.
  - destruct (Z_gt_le_dec c (orig_index ch)) as [G|G]; [left; auto|].
    destruct (IH (orig_index ch + len (del_lines ch))) as [H|(hi & H)];
      [left; auto|].
    right. exists hi. split; [lia|exact H].
Qed.

(** ** The header an Update action is read at *)

Lemma no_header_between_trans (lines : list jsstring) (a b c : nat) :
  no_header_between lines a b -> no_header_between lines b c ->
  no_header_between lines a c.
Proof.
  intros H1 H2 k path Hk Hn.
  destruct (Nat.lt_ge_cases k b); [apply (H1 k)|apply (H2 k)];
    try assumption; lia.
Qed.

Lemma no_header_none (lines : list jsstring) (c c' : nat) :
  (c' <= c)%nat -> no_header_between lines c c'.
Proof. intros H k path Hk. lia. Qed.

Lemma no_header_one (lines : list jsstring) (c : nat) (l : jsstring) :
  nth_error lines c = Some l -> startsWith l UPDATE_FILE_PREFIX = false ->
  no_header_between lines c (S c).
Proof.
  intros Hl Hs k path Hk Hn. replace k with c in Hn by lia.
  assert (l = UPDATE_FILE_PREFIX ++ path) as -> by congruence.
  now rewrite startsWith_app in Hs.
Qed.

Lemma truthy_not_empty (s : jsstring) : truthy s = true -> s <> [].
Proof. now intros H ->. Qed.

Lemma startsWith_skipn (p : jsstring) :
  forall l, startsWith l p = true -> l = p ++ skipn (length p) l.
Proof.
  induction p as [|a p IH]; intros [|c l] H; simpl in *; try discriminate;
    try reflexivity.
  apply andb_true_iff in H as [Ha H]. apply N.eqb_eq in Ha. subst c.
  f_equal. now apply IH.
Qed.

(** What [read_str] reads is no Update header, when the marker is another
    one, or when no path follows the marker. *)
Lemma read_str_no_header (lines : list jsstring) (c : nat)
  (prefix s : jsstring) (c' : nat) :
  startsWith prefix UPDATE_FILE_PREFIX = false ->
  startsWith UPDATE_FILE_PREFIX prefix = false ->
  read_str lines c prefix false = Ok (s, c') ->
  no_header_between lines c c'.
Proof.
  intros H1 H2. unfold read_str.
  destruct (nth_error lines c) as [l|] eqn:E; [|discriminate].
  destruct (startsWith l prefix) eqn:Es; intros [= _ <-].
  - apply (no_header_one _ _ l E). now apply (not_update_header l prefix).
  - now apply no_header_none.
Qed.

Lemma read_str_empty_header (lines : list jsstring) (c : nat)
  (s : jsstring) (c' : nat) :
  read_str lines c UPDATE_FILE_PREFIX false = Ok (s, c') ->
  truthy s = false -> no_header_between lines c c'.
Proof.
  unfold read_str.
  destruct (nth_error lines c) as [l|] eqn:E; [|discriminate].
  destruct (startsWith l UPDATE_FILE_PREFIX) eqn:Es; intros H Ht.
  - assert (Hs : s = skipn (length UPDATE_FILE_PREFIX) l) by congruence.
    assert (c' = S c) as -> by congruence.
    intros k path Hk Hn. replace k with c in Hn by lia.
    assert (l = UPDATE_FILE_PREFIX ++ path) as -> by congruence.
    rewrite skipn_prefix in Hs. subst s.
    destruct path; [reflexivity|discriminate].
  - assert (c' = c) as -> by congruence. now apply no_header_none.
Qed.

Lemma read_str_update_header (lines : list jsstring) (c : nat)
  (path : jsstring) (c' : nat) :
  read_str lines c UPDATE_FILE_PREFIX false = Ok (path, c') ->
  truthy path = true ->
  nth_error lines c = Some (UPDATE_FILE_PREFIX ++ path) /\ c' = S c.
Proof.
  unfold read_str.
  destruct (nth_error lines c) as [l|] eqn:E; [|discriminate].
  destruct (startsWith l UPDATE_FILE_PREFIX) eqn:Es; intros H Ht.
  - assert (Hs : path = skipn (length UPDATE_FILE_PREFIX) l) by congruence.
    split; [|congruence]. f_equal. rewrite Hs. now apply startsWith_skipn.
  - assert (path = []) as -> by congruence. discriminate.
Qed.

Lemma parse_add_loop_no_header (lines : list jsstring) :
  forall rest index acc added c',
  rest = skipn index lines ->
  parse_add_loop rest index acc = Ok (added, c') ->
  no_header_between lines index c'.
Proof.
  induction rest as [|s rest IH]; intros index acc added c' Hr H;
    cbn [parse_add_loop] in H.
  - injection H as _ <-. now apply no_header_none.
  - destruct (starts_with_any s add_boundaries) eqn:Eb.
    { injection H as _ <-. now apply no_header_none. }
    destruct (negb (startsWith s HUNK_ADD_LINE_PREFIX)); [discriminate|].
    rewrite skipn_nth_error in Hr.
    destruct (nth_error lines index) as [l|] eqn:En; [|discriminate].
    assert (l = s) as -> by congruence.
    assert (Hr' : rest = skipn (S index) lines) by congruence.
    apply (no_header_between_trans _ _ (S index)).
    + apply (no_header_one _ _ s En).
      apply (starts_with_any_update _ add_boundaries); [|exact Eb].
      right. now left.
    + exact (IH _ _ _ _ Hr' H).
Qed.

Lemma hunk_body_no_header (rest : list jsstring) :
  forall j l, nth_error (hunk_body rest) j = Some l ->
  startsWith l UPDATE_FILE_PREFIX = false.
Proof.
  induction rest as [|s rest IH]; intros j l H; cbn [hunk_body] in H.
  - destruct j; discriminate.
  - destruct (starts_with_any s section_boundaries) eqn:Eb; cbn [orb] in H;
      [destruct j; discriminate|].
    destruct (startsWith s (str "***")); [destruct j; discriminate|].
    destruct j as [|j]; cbn [nth_error] in H.
    + injection H as <-.
      apply (starts_with_any_update _ section_boundaries); [|exact Eb].
      right. right. now left.
    + exact (IH _ _ H).
Qed.

(** The lines of a hunk, with its section lines and its end-of-file marker,
    are no Update headers. *)
Lemma hunk_no_header (lines : list jsstring) (c : nat) :
  no_header_between lines c (hunk_end lines c).
Proof.
  intros k path Hk Hn. exfalso.
  destruct (Nat.lt_ge_cases k (hunk_start lines c)) as [Hlt|Hge].
  - unfold hunk_start in Hlt.
    destruct (nth_error lines c) as [l|] eqn:E0; [|lia].
    assert (Hc : k = c -> startsWith l (str "@@") = true -> False).
    { intros -> Hs.
      assert (l = UPDATE_FILE_PREFIX ++ path) as -> by congruence.
      vm_compute in Hs. discriminate. }
    destruct (startsWith l (str "@@ ")) eqn:Es.
    + assert (Hs : startsWith l (str "@@") = true)
        by (now apply (startsWith_trans l (str "@@ "))).
      destruct (nth_error lines (S c)) as [l'|] eqn:E1;
        [|apply Hc; [lia|exact Hs]].
      destruct (negb (truthy (skipn (length (str "@@ ")) l))
                && jseqb l' (str "@@")) eqn:Eb;
        [|apply Hc; [lia|exact Hs]].
      destruct (Nat.eq_dec k c) as [Ek|Ek]; [now apply Hc|].
      replace k with (S c) in Hn by lia.
      assert (l' = UPDATE_FILE_PREFIX ++ path) as -> by congruence.
      apply andb_true_iff in Eb as [_ Eb].
      vm_compute in Eb. discriminate.
    + destruct (jseqb l (str "@@")) eqn:Ej; [|lia].
      apply Hc; [lia|now apply jseqb_startsWith].
  - unfold hunk_end in Hk.
    destruct (Nat.lt_ge_cases k
                (hunk_start lines c + length (hunk_lines lines c)))
      as [Hb|He].
    + assert (Hl : nth_error (hunk_lines lines c) (k - hunk_start lines c)
                   = Some (UPDATE_FILE_PREFIX ++ path)).
      { unfold hunk_lines in *. rewrite <- hunk_body_prefix.
        rewrite nth_error_firstn, nth_error_skipn.
        replace (hunk_start lines c + (k - hunk_start lines c))%nat with k
          by lia.
        destruct (Nat.ltb_spec (k - hunk_start lines c)
                    (length (hunk_body (skipn (hunk_start lines c) lines))));
          [exact Hn|lia]. }
      apply hunk_body_no_header in Hl. now rewrite startsWith_app in Hl.
    + unfold hunk_eof in Hk.
      replace (hunk_start lines c + length (hunk_lines lines c))%nat with k
        in Hk by (destruct (match nth_error lines _ with
                            | Some l => jseqb l END_OF_FILE_PREFIX
                            | None => false
                            end); lia).
      rewrite Hn in Hk.
      destruct (jseqb (UPDATE_FILE_PREFIX ++ path) END_OF_FILE_PREFIX) eqn:Ej;
        [|lia].
      vm_compute in Ej. discriminate.
Qed.

Lemma parse_update_loop_no_header (lines fileLines : list jsstring) :
  forall fuel acc index cursor fz acc' cursor' fz',
  parse_update_loop fuel lines fileLines acc index cursor fz
  = Ok (acc', cursor', fz') ->
  (cursor <= cursor')%nat /\ no_header_between lines cursor cursor'.
Proof.
  induction fuel as [|fuel IH];
    intros acc index cursor fz acc' cursor' fz' H; [discriminate|].
  cbn [parse_update_loop] in H.
  destruct (is_done lines cursor update_boundaries).
  { injection H as _ <- _. split; [lia|now apply no_header_none]. }
  destruct (parse_hunk lines fileLines acc index cursor fz)
    as [[[[acc1 index1] c1] fz1]| |] eqn:Eh; cbn [bind] in H;
    try discriminate.
  destruct (parse_hunk_step _ _ _ _ _ _ _ _ _ _ Eh) as (cs & ni & fu & -> & _).
  apply IH in H as (Hle & Hno). pose proof (hunk_end_le lines cursor).
  split; [lia|].
  apply (no_header_between_trans _ _ (hunk_end lines cursor));
    [apply hunk_no_header|exact Hno].
Qed.

Lemma headers_recorded_step (lines : list jsstring) (p q : Parser)
  (path : jsstring) (action : PatchAction) :
  headers_recorded lines p ->
  actions (patch q) = own_set (actions (patch p)) path action ->
  no_header_between lines (index p) (index q) \/
  (nth_error lines (index p) = Some (UPDATE_FILE_PREFIX ++ path) /\
   no_header_between lines (S (index p)) (index q)) ->
  headers_recorded lines q.
Proof.
  intros Hp Ha Hb k path' Hk Hn Hne. rewrite Ha.
  apply has_property_own_set.
  destruct (Nat.lt_ge_cases k (index p)) as [Hlt|Hge].
  - right. apply (Hp k); [lia|exact Hn|exact Hne].
  - destruct Hb as [Hb|[Hh Hb]].
    + exfalso. apply Hne, (Hb k); [lia|exact Hn].
    + destruct (Nat.eq_dec k (index p)) as [->|Hk'].
      * left.
        assert (E : UPDATE_FILE_PREFIX ++ path = UPDATE_FILE_PREFIX ++ path')
          by congruence.
        now apply app_inv_head in E.
      * exfalso. apply Hne, (Hb k); [lia|exact Hn].
Qed.

(** The parser goes forward, and has an action for every Update header it
    has passed. *)
Lemma parse_directive_records (current_files : JsRecord jsstring)
  (lines : list jsstring) (fuel : nat) (p q : Parser) :
  headers_recorded lines p ->
  parse_directive fuel current_files lines p = Ok q ->
  (index p <= index q)%nat /\ headers_recorded lines q.
Proof.
  intros Hp H. unfold parse_directive in H.
  destruct (read_str lines (index p) UPDATE_FILE_PREFIX false)
    as [[path c1]| |] eqn:E1; cbn [bind] in H; try discriminate.
  pose proof (proj1 (proj1 (read_str_cursor _ _ _ _ _ _ E1))) as L1.
  destruct (truthy path) eqn:T1.
  { destruct (has_property (actions (patch p)) path); [discriminate|].
    destruct (read_str lines c1 MOVE_FILE_TO_PREFIX false)
      as [[moveTo c2]| |] eqn:E2; cbn [bind] in H; try discriminate.
    pose proof (proj1 (proj1 (read_str_cursor _ _ _ _ _ _ E2))) as L2.
    destruct (negb (has_property current_files path)); [discriminate|].
    destruct (parse_update_file fuel lines _ c2 (fuzz p))
      as [[[action c3] fz3]| |] eqn:Eu; cbn [bind] in H; try discriminate.
    injection H as <-.
    destruct (read_str_update_header _ _ _ _ E1 T1) as (Hh & ->).
    unfold parse_update_file in Eu.
    destruct (parse_update_loop fuel lines _ [] 0 c2 (fuzz p))
      as [[[cs c4] fz4]| |] eqn:El; cbn [bind] in Eu; try discriminate.
    injection Eu as _ <- _.
    apply parse_update_loop_no_header in El as (L3 & N3).
    split; [cbn [index set_action]; lia|].
    eapply headers_recorded_step; [exact Hp|reflexivity|].
    right. split; [exact Hh|]. cbn [index set_action].
    apply (no_header_between_trans _ _ c2); [|exact N3].
    now apply (read_str_no_header _ _ MOVE_FILE_TO_PREFIX _ _ eq_refl eq_refl
                 E2). }
  pose proof (read_str_empty_header _ _ _ _ E1 T1) as N1.
  destruct (read_str lines c1 DELETE_FILE_PREFIX false)
    as [[path2 c2]| |] eqn:E2; cbn [bind] in H; try discriminate.
  pose proof (proj1 (proj1 (read_str_cursor _ _ _ _ _ _ E2))) as L2.
  pose proof (read_str_no_header _ _ DELETE_FILE_PREFIX _ _ eq_refl eq_refl
                E2) as N2.
  pose proof (no_header_between_trans _ _ _ _ N1 N2) as N12.
  destruct (truthy path2).
  { destruct (has_property (actions (patch p)) path2); [discriminate|].
    destruct (negb (has_property current_files path2)); [discriminate|].
    injection H as <-. split; [cbn [index set_action]; lia|].
    eapply headers_recorded_step; [exact Hp|reflexivity|]. now left. }
  destruct (read_str lines c2 ADD_FILE_PREFIX false)
    as [[path3 c3]| |] eqn:E3; cbn [bind] in H; try discriminate.
  pose proof (proj1 (proj1 (read_str_cursor _ _ _ _ _ _ E3))) as L3.
  pose proof (read_str_no_header _ _ ADD_FILE_PREFIX _ _ eq_refl eq_refl
                E3) as N3.
  destruct (truthy path3); [|discriminate].
  destruct (has_property (actions (patch p)) path3); [discriminate|].
  destruct (has_property current_files path3); [discriminate|].
  destruct (parse_add_file lines c3) as [[action c4]| |] eqn:Ea;
    cbn [bind] in H; try discriminate.
  injection H as <-. unfold parse_add_file in Ea.
  destruct (parse_add_loop (skipn c3 lines) c3 []) as [[added c5]| |] eqn:El;
    cbn [bind] in Ea; try discriminate.
  injection Ea as _ <-.
  pose proof (proj1 (proj2 (parse_add_loop_cursor _ c3 []) _ _ El)) as L4.
  apply (parse_add_loop_no_header lines) in El; [|reflexivity].
  split; [cbn [index set_action]; lia|].
  eapply headers_recorded_step; [exact Hp|reflexivity|]. left.
  cbn [index set_action].
  apply (no_header_between_trans _ _ c3); [|exact El].
  now apply (no_header_between_trans _ _ c2).
Qed.

Lemma index_of_first (f : jsstring -> bool) (l : list jsstring) :
  forall k0 k x,
  nth_error l k = Some x -> f x = true ->
  (forall j y, (j < k)%nat -> nth_error l j = Some y -> f y = false) ->
  index_of f l k0 = Some (k0 + k)%nat.
Proof.
  induction l as [|a l IH]; intros k0 [|k] x Hn Hf Hb; cbn [nth_error] in Hn;
    try discriminate; cbn [index_of].
  - injection Hn as ->. rewrite Hf. f_equal. lia.
  - rewrite (Hb 0%nat a) by (try reflexivity; lia).
    rewrite (IH (S k0) k x Hn Hf); [f_equal; lia|].
    intros j y Hj Hy. apply (Hb (S j)); [lia|exact Hy].
Qed.

(** The header of an action is the first Update header of its path. *)
Lemma header_index_found (lines : list jsstring) (p : Parser)
  (path : jsstring) :
  (1 <= index p)%nat -> headers_recorded lines p -> path <> [] ->
  nth_error lines (index p) = Some (UPDATE_FILE_PREFIX ++ path) ->
  has_property (actions (patch p)) path = false ->
  header_index lines path = Some (index p).
Proof.
  intros H1 Hp Hne Hh Hdup. unfold header_index.
  rewrite (index_of_first _ _ 1 (index p - 1) (UPDATE_FILE_PREFIX ++ path)).
  - f_equal. lia.
  - rewrite nth_error_skipn.
    now replace (1 + (index p - 1))%nat with (index p) by lia.
  - apply jseqb_refl.
  - intros j y Hj Hy. rewrite nth_error_skipn in Hy.
    apply jseqb_false_iff. intros ->.
    rewrite (Hp (1 + j)%nat path) in Hdup; [discriminate|lia|exact Hy|].
    exact Hne.
Qed.

Lemma read_str_update_start (lines : list jsstring) (h : nat)
  (moveTo : jsstring) (c : nat) :
  read_str lines (S h) MOVE_FILE_TO_PREFIX false = Ok (moveTo, c) ->
  c = update_start lines h.
Proof.
  unfold read_str, update_start.
  destruct (nth_error lines (S h)) as [l|]; [|discriminate].
  now destruct (startsWith l MOVE_FILE_TO_PREFIX); intros [= _ <-].
Qed.

Section ActionReads.

Variable Q : jsstring -> list (list jsstring * bool) -> list Chunk -> Prop.
Variable current_files : JsRecord jsstring.
Variable lines : list jsstring.

Hypothesis update_reads :
  forall fuel text cursor fz action cursor' fz',
  parse_update_file fuel lines text cursor fz = Ok (action, cursor', fz') ->
  Q text (fst (read_hunks (length lines) lines cursor)) (chunks action).

Lemma parse_directive_reads (fuel : nat) (p q : Parser) :
  (1 <= index p)%nat -> headers_recorded lines p ->
  Forall (action_reads Q lines current_files) (actions (patch p)) ->
  parse_directive fuel current_files lines p = Ok q ->
  Forall (action_reads Q lines current_files) (actions (patch q)).
Proof.
  intros H1 Hrec Hp H. unfold parse_directive in H.
  destruct (read_str lines (index p) UPDATE_FILE_PREFIX false)
    as [[path c1]| |] eqn:E1; cbn [bind] in H; try discriminate.
  destruct (truthy path) eqn:T1.
  { destruct (has_property (actions (patch p)) path) eqn:Edup;
      [discriminate|].
    destruct (read_str lines c1 MOVE_FILE_TO_PREFIX false)
      as [[moveTo c2]| |] eqn:E2; cbn [bind] in H; try discriminate.
    destruct (has_property current_files path) eqn:Ehas; [|discriminate].
    cbn [negb] in H.
    assert (Hown : exists text, own_get current_files path = Some text).
    { unfold has_property in Edup, Ehas.
      destruct (own_get (actions (patch p)) path); [discriminate|].
      destruct (own_get current_files path) as [t|]; [now exists t|].
      congruence. }
    destruct Hown as (text & Hown). rewrite Hown in H.
    destruct (parse_update_file fuel lines text c2 (fuzz p))
      as [[[action c3] fz3]| |] eqn:Eu; cbn [bind] in H; try discriminate.
    injection H as <-. apply Forall_own_set; [exact Hp|].
    intros _. exists text. split; [exact Hown|]. cbn [fst snd chunks].
    destruct (read_str_update_header _ _ _ _ E1 T1) as (Hh & ->).
    unfold update_hunks.
    rewrite (header_index_found _ _ _ H1 Hrec (truthy_not_empty _ T1) Hh
               Edup).
    rewrite <- (read_str_update_start _ _ _ _ E2).
    eapply update_reads. exact Eu. }
  destruct (read_str lines c1 DELETE_FILE_PREFIX false)
    as [[path2 c2]| |]; cbn [bind] in H; try discriminate.
  destruct (truthy path2).
  { destruct (has_property (actions (patch p)) path2); [discriminate|].
    destruct (negb (has_property current_files path2)); [discriminate|].
    injection H as <-. apply Forall_own_set; [exact Hp|].
    intros Ht. discriminate. }
  destruct (read_str lines c2 ADD_FILE_PREFIX false)
    as [[path3 c3]| |]; cbn [bind] in H; try discriminate.
  destruct (truthy path3); [|discriminate].
  destruct (has_property (actions (patch p)) path3); [discriminate|].
  destruct (has_property current_files path3); [discriminate|].
  destruct (parse_add_file lines c3) as [[action c4]| |] eqn:Ea;
    cbn [bind] in H; try discriminate.
  injection H as <-. apply Forall_own_set; [exact Hp|].
  unfold parse_add_file in Ea.
  destruct (parse_add_loop (skipn c3 lines) c3 []) as [[added c5]| |];
    cbn [bind] in Ea; try discriminate.
  injection Ea as <- _. intros Ht. discriminate.
Qed.

Lemma parse_loop_reads :
  forall fuel p r,
  (1 <= index p)%nat -> headers_recorded lines p ->
  Forall (action_reads Q lines current_files) (actions (patch p)) ->
  parse_loop fuel current_files lines p = Ok r ->
  Forall (action_reads Q lines current_files) (actions (patch r)).
Proof.
  induction fuel as [|fuel IH]; intros p r H1 Hrec Hp H; [discriminate|].
  cbn [parse_loop] in H.
  destruct (is_done lines (index p) [PATCH_SUFFIX]);
    [injection H as <-; exact Hp|].
  destruct (parse_directive fuel current_files lines p) as [q| |] eqn:Ed;
    cbn [bind] in H; try discriminate.
  destruct (parse_directive_records _ _ _ _ _ Hrec Ed) as (Hle & Hrec').
  apply IH in H; [exact H|lia|exact Hrec'|].
  eapply parse_directive_reads; [exact H1|exact Hrec|exact Hp|exact Ed].
Qed.

Lemma parse_reads (fuel : nat) (r : Parser) :
  parse_loop fuel current_files lines (mkParser 1 (mkPatch []) 0) = Ok r ->
  Forall (action_reads Q lines current_files) (actions (patch r)).
Proof.
  intros H. apply parse_loop_reads in H; [exact H|cbn [index]; lia| |].
  - intros k path Hk. cbn [index] in Hk. lia.
  - constructor.
Qed.

End ActionReads.

(** C4, as the code has it: when [text_to_patch] succeeds, the chunks of an
    Update action are in non-decreasing order of [orig_index], each at or
    after the lines the earlier ones consume, provided that no hunk of the
    action after its first is anchored at the end of the file; the first
    hunk, or the only one, may be anchored. Whenever the chunks of an
    action are not in that order, [_get_updated_file] throws on the action,
    whatever the text of the file. *)
Theorem update_chunks_ordered (fuel : nat) (text : jsstring)
  (orig : JsRecord jsstring) (p : Patch) (fz : Z) :
  text_to_patch fuel text orig = Ok (p, fz) ->
  forall path action,
  In (path, action) (actions p) -> type action = UPDATE ->
  (later_hunks_unanchored (update_hunks (split_nl (trim text)) path) ->
   chunks_monotone (chunks action)) /\
  (~ chunks_monotone (chunks action) ->
   forall old, exists message,
     _get_updated_file old action path = Throw (DiffError message)).
Proof.
  intros H path action Hin Ht. split.
  - apply text_to_patch_returns in H as (q & Hq & -> & _).
    apply (parse_reads
             (fun _ hunks cs =>
                later_hunks_unanchored hunks -> chunks_monotone cs)) in Hq.
    + rewrite Forall_forall in Hq.
      destruct (Hq _ Hin Ht) as (old & _ & Hm). exact Hm.
    + intros fuel' old c fz0 a c' fz' Hu.
      exact (parse_update_file_monotone _ _ _ _ _ _ _ _ Hu).
  - intros Hn old. unfold _get_updated_file. rewrite Ht.
    destruct (chunks_in_or_out_of_order (len (split_nl old)) (chunks action)
                0) as [Ho|(hi & Hi)].
    + destruct (apply_chunks_out_of_order path _ _ [] 0 Ho) as (m & ->).
      now exists m.
    + exfalso. apply Hn. exact (ordered_between_monotone _ _ _ Hi).
Qed.

(** ** An Update action and the file it updates, through the parser *)

Lemma hunk_body_single (rest : list jsstring) :
  single_lines rest -> single_lines (hunk_body rest).
Proof.
  induction rest as [|s rest IH]; intros H; cbn [hunk_body];
    [constructor|].
  destruct (starts_with_any s section_boundaries || startsWith s (str "***"));
    [constructor|].
  constructor; [now apply Forall_inv in H|].
  apply IH. now apply Forall_inv_tail in H.
Qed.

Lemma hunk_old_single (body : list jsstring) :
  single_lines body -> single_lines (hunk_old body).
Proof.
  unfold hunk_old. induction body as [|s body IH]; intros H;
    cbn [map filter]; [constructor|].
  pose proof (classify_single s (Forall_inv H)) as Hs.
  apply Forall_inv_tail in H.
  destruct (negb (Mode_eqb (fst (classify s)) add)); cbn [map];
    [constructor; [exact Hs|]|]; now apply IH.
Qed.

Section HunksApplied.

Hypothesis NFC_line_feeds :
  forall s, lf_count (normalize_NFC s) = lf_count s.

Variables lines fileLines : list jsstring.

Hypothesis lines_single : single_lines lines.
Hypothesis file_single : single_lines fileLines.
Hypothesis file_lines : 1 <= len fileLines.

Lemma parse_update_loop_applies :
  forall fuel fuelR acc index cursor fz acc' cursor' fz',
  (length lines <= fuelR + cursor)%nat ->
  0 <= index <= len fileLines ->
  (index = 0 /\
   later_hunks_unanchored (fst (read_hunks fuelR lines cursor))) \/
  Forall (fun hunk => snd hunk = false) (fst (read_hunks fuelR lines cursor)) ->
  parse_update_loop fuel lines fileLines acc index cursor fz
  = Ok (acc', cursor', fz') ->
  exists tail hi,
    acc' = acc ++ tail /\
    ordered_between index hi tail /\ hi <= len fileLines /\
    rebuilt fileLines tail index
    = apply_hunks fileLines (fst (read_hunks fuelR lines cursor)) index.
Proof.
  induction fuel as [|fuel IH];
    intros fuelR acc index cursor fz acc' cursor' fz' Hf Hi Hun H;
    [discriminate|].
  pose proof H as H0. cbn [parse_update_loop] in H.
  destruct (is_done lines cursor update_boundaries) eqn:Hd.
  { injection H as <- _ _. exists [], index.
    rewrite app_nil_r, (read_hunks_done _ _ _ Hd).
    repeat split; try constructor; simpl; lia. }
  pose proof (parse_update_loop_advances _ _ _ _ _ _ _ _ Hd H0) as Hlt.
  destruct (parse_hunk lines fileLines acc index cursor fz)
    as [[[[acc1 index1] c1] fz1]| |] eqn:Eh; cbn [bind] in H;
    try discriminate.
  destruct (parse_hunk_in_file NFC_line_feeds _ _ _ _ _ _ _ _ _ _
              lines_single file_single file_lines Hi Eh) as (Hi1 & _).
  destruct (parse_hunk_step _ _ _ _ _ _ _ _ _ _ Eh)
    as (cs & newIndex & fuzz & -> & Ef & Hfound & -> & -> & Hord & Hr).
  destruct (read_hunks_step _ _ _ Hf Hd Hlt) as (fuelR' & -> & Hf' & Hrd).
  rewrite Hrd in Hun |- *.
  set (body := hunk_lines lines cursor) in *.
  set (ctx := hunk_old body) in *.
  assert (Hge : index <= newIndex).
  { destruct Hun as [[-> _]|Hall].
    - assert (Hctx : single_lines ctx).
      { apply hunk_old_single, hunk_body_single.
        now apply Forall_suffix. }
      destruct (find_context_in_file NFC_line_feeds _ _ _ _ _ _ file_single
                  Hctx file_lines Hi Ef) as ([Hm|(Hlo & _)] & _);
        [contradiction|exact Hlo].
    - pose proof (Forall_inv Hall) as Heof. cbn [snd] in Heof.
      rewrite Heof in Ef. unfold find_context in Ef.
      destruct (find_context_core_range _ _ _ _ _ Ef) as [[Hm _]|[Hge _]];
        [contradiction|exact Hge]. }
  assert (Hun' : Forall (fun hunk => snd hunk = false)
                   (fst (read_hunks fuelR' lines (hunk_end lines cursor)))).
  { destruct Hun as [[_ Hl]|Hall]; [exact Hl|].
    now apply Forall_inv_tail in Hall. }
  pose proof (len_nonneg ctx) as Hctx0.
  destruct (IH fuelR' _ _ _ _ _ _ _ Hf' Hi1 (or_intror Hun') H)
    as (tail & hi & -> & Htail & Hhi & Hreb).
  exists (map (shift_chunk newIndex) cs ++ tail), hi.
  assert (Hshift : ordered_between newIndex (newIndex + len ctx)
                     (map (shift_chunk newIndex) cs)).
  { replace newIndex with (0 + newIndex) at 1 by lia.
    replace (newIndex + len ctx) with (len ctx + newIndex) by lia.
    now apply ordered_between_shift. }
  split; [now rewrite app_assoc|].
  split.
  { apply (ordered_between_app _ _ _ (newIndex + len ctx)); [|exact Htail].
    now apply (ordered_between_from _ newIndex). }
  split; [exact Hhi|].
  rewrite (rebuilt_app _ _ _ (newIndex + len ctx) hi Htail)
    by (try lia; now apply (ordered_between_from _ newIndex)).
  rewrite (emitted_from _ _ index newIndex) by (try assumption; lia).
  rewrite Hreb. cbn [apply_hunks]. fold body. fold ctx. rewrite Ef.
  cbn [fst]. rewrite <- app_assoc. do 2 f_equal.
  (* the chunks of the hunk on the lines where it was found *)
  set (n := Z.to_nat newIndex).
  assert (Hn : (n <= length fileLines)%nat) by (unfold len in *; lia).
  assert (Hpre : len (firstn n fileLines) = newIndex).
  { unfold len. rewrite length_firstn. lia. }
  rewrite <- (firstn_skipn n fileLines) at 1.
  pose proof (emitted_shift (firstn n fileLines) (skipn n fileLines) cs
                (len ctx) 0 ltac:(lia) Hord) as E.
  rewrite Hpre in E. replace (0 + newIndex) with newIndex in E by lia.
  replace (len ctx + newIndex) with (newIndex + len ctx) in E by lia.
  rewrite E, Hr. reflexivity.
Qed.

End HunksApplied.

Section UpdateApplied.

Hypothesis NFC_line_feeds :
  forall s, lf_count (normalize_NFC s) = lf_count s.

Lemma parse_update_file_applies (fuel : nat) (lines : list jsstring)
  (text : jsstring) (cursor : nat) (fz : Z) (action : PatchAction)
  (cursor' : nat) (fz' : Z) :
  single_lines lines ->
  parse_update_file fuel lines text cursor fz = Ok (action, cursor', fz') ->
  later_hunks_unanchored (fst (read_hunks (length lines) lines cursor)) ->
  chunks_accepted (len (split_nl text)) (chunks action) /\
  rebuilt (split_nl text) (chunks action) 0
  = apply_hunks (split_nl text)
      (fst (read_hunks (length lines) lines cursor)) 0.
Proof.
  intros Hl Hu Hun. unfold parse_update_file in Hu.
  destruct (parse_update_loop fuel lines (split_nl text) [] 0 cursor fz)
    as [[[cs c4] fz4]| |] eqn:El; cbn [bind] in Hu; try discriminate.
  injection Hu as <- _ _. cbn [chunks].
  pose proof (split_nl_len text) as H1.
  assert (H0 : 0 <= 0 <= len (split_nl text)) by lia.
  assert (Hf : (length lines <= length lines + cursor)%nat) by lia.
  destruct (parse_update_loop_applies NFC_line_feeds _ _ Hl
              (split_nl_single _) H1 _ _ _ _ _ _ _ _ _ Hf H0
              (or_introl (conj eq_refl Hun)) El)
    as (tail & hi & Hacc & Hord & Hhi & Hreb).
  cbn [app] in Hacc. subst tail. split; [|exact Hreb].
  eapply ordered_accepted; [exact Hord|exact Hhi].
Qed.

Lemma get_updated_file_applies (old : jsstring) (action : PatchAction)
  (path : jsstring) (hunks : list (list jsstring * bool)) :
  type action = UPDATE ->
  chunks_accepted (len (split_nl old)) (chunks action) ->
  rebuilt (split_nl old) (chunks action) 0
  = apply_hunks (split_nl old) hunks 0 ->
  _get_updated_file old action path
  = Ok (join_nl (apply_hunks (split_nl old) hunks 0)).
Proof.
  intros Ht Hacc Hreb. unfold _get_updated_file. rewrite Ht.
  destruct (apply_chunks_in_order path (split_nl old) (chunks action)
              [] 0 ltac:(lia) Hacc) as (d & o & -> & _ & Hd).
  cbn [bind]. now rewrite Hd, Hreb.
Qed.

Lemma parse_loop_applies (fuel : nat) (text : jsstring)
  (orig : JsRecord jsstring) (q : Parser) :
  parse_loop fuel orig (split_nl (trim text)) (mkParser 1 (mkPatch []) 0)
  = Ok q ->
  Forall (action_reads
            (fun old hunks cs =>
               later_hunks_unanchored hunks ->
               chunks_accepted (len (split_nl old)) cs /\
               rebuilt (split_nl old) cs 0
               = apply_hunks (split_nl old) hunks 0)
            (split_nl (trim text)) orig)
    (actions (patch q)).
Proof.
  intros Hq.
  apply (parse_reads
           (fun old hunks cs =>
              later_hunks_unanchored hunks ->
              chunks_accepted (len (split_nl old)) cs /\
              rebuilt (split_nl old) cs 0
              = apply_hunks (split_nl old) hunks 0)) in Hq; [exact Hq|].
  intros fuel' old c fz0 a c' fz' Hu.
  exact (parse_update_file_applies _ _ _ _ _ _ _ _ (split_nl_single _) Hu).
Qed.

(** X18: what an Update action does to its file. When a patch parses, the
    new content of an Update action, none of whose hunks after the first is
    anchored at the end of the file, is the original text with the hunks
    that follow the header of the action in the patch applied in turn: each
    hunk is applied where [find_context] finds its old side from the line
    after the hunk before it; the lines of the file between the hunks and
    after the last are kept. *)
Theorem parsed_update_applies (fuel : nat) (text : jsstring)
  (orig : JsRecord jsstring) (p : Patch) (fz : Z) :
  text_to_patch fuel text orig = Ok (p, fz) ->
  forall path action,
  In (path, action) (actions p) -> type action = UPDATE ->
  later_hunks_unanchored (update_hunks (split_nl (trim text)) path) ->
  exists old,
    own_get orig path = Some old /\
    _get_updated_file old action path
    = Ok (join_nl (apply_hunks (split_nl old)
                     (update_hunks (split_nl (trim text)) path) 0)).
Proof.
  intros H path action Hin Ht Hun.
  apply text_to_patch_returns in H as (q & Hq & -> & _).
  apply parse_loop_applies in Hq. rewrite Forall_forall in Hq.
  destruct (Hq _ Hin Ht) as (old & Hown & Happ). cbn [fst snd] in *.
  destruct (Happ Hun) as (Hacc & Hreb).
  exists old. split; [exact Hown|].
  now apply get_updated_file_applies.
Qed.

(** X19: a patch that is read as one Update action, from the text to the
    accessors. The file is opened, its text with the hunks that follow the
    header applied is written to the path the action moves the file to,
    after which the file is removed, or to the file itself when the action
    has no such path; nothing is removed when the write throws, and no
    other file is touched. *)
Theorem process_patch_update_file (World : Type)
  (openFn : jsstring -> World -> World * completion jsstring)
  (writeFn : jsstring -> jsstring -> World -> World * completion unit)
  (removeFn : jsstring -> World -> World * completion unit)
  (fuel : nat) (text path old : jsstring) (action : PatchAction) (fz : Z)
  (w w1 : World) :
  startsWith text PATCH_PREFIX = true ->
  later_hunks_unanchored (update_hunks (split_nl (trim text)) path) ->
  identify_files_needed text = [path] ->
  jseqb path (str "__proto__") = false ->
  openFn path w = (w1, Returns old) ->
  text_to_patch fuel text [(path, old)] = Ok (mkPatch [(path, action)], fz) ->
  type action = UPDATE ->
  let content :=
    join_nl (apply_hunks (split_nl old)
               (update_hunks (split_nl (trim text)) path) 0) in
  process_patch World openFn writeFn removeFn fuel text w
  = if truthy (or_empty (move_path action))
    then
      match writeFn (or_empty (move_path action)) content w1 with
      | (w2, Returns _) =>
          match removeFn path w2 with
          | (w3, Returns _) => (w3, Ok (str "Done!"))
          | (w3, Throws e) => (w3, Throw e)
          end
      | (w2, Throws e) => (w2, Throw e)
      end
    else
      match writeFn path content w1 with
      | (w2, Returns _) => (w2, Ok (str "Done!"))
      | (w2, Throws e) => (w2, Throw e)
      end.
Proof.
  intros Hstart Hun Hneeded Hproto Hopen Hparse Ht.
  pose proof Hparse as Hq.
  apply text_to_patch_returns in Hq as (q & Hq & Hp & _).
  apply parse_loop_applies in Hq. rewrite <- Hp in Hq.
  cbn [actions] in Hq. apply Forall_inv in Hq.
  destruct (Hq Ht) as (old' & Hown & Happ). cbn [fst snd own_get] in *.
  rewrite jseqb_refl in Hown. injection Hown as <-.
  destruct (Happ Hun) as (Hacc & Hreb).
  pose proof (get_updated_file_applies _ _ path _ Ht Hacc Hreb) as Hget.
  cbv zeta.
  unfold process_patch. rewrite Hstart, Hneeded. cbn [negb].
  cbn [load_files load_files_from]. rewrite Hopen.
  unfold assign_string. rewrite Hproto. cbn [own_set]. rewrite Hparse.
  unfold patch_to_commit. cbn [actions]. rewrite Object_entries_one.
  cbn [commit_entries]. rewrite Ht. cbn [own_get]. rewrite jseqb_refl, Hget.
  cbn [bind commit_entries own_set].
  unfold apply_commit. cbn [changes]. rewrite Object_entries_one.
  cbn [apply_entries change_type change_move_path new_content].
  change (or_empty (Some ?x)) with x.
  set (content := join_nl (apply_hunks (split_nl old)
                             (update_hunks (split_nl (trim text)) path) 0)).
  destruct (truthy (or_empty (move_path action))).
  - destruct (writeFn (or_empty (move_path action)) content w1)
      as [w2 [u|e]]; [|reflexivity].
    destruct (removeFn path w2) as [w3 [u'|e]]; reflexivity.
  - destruct (writeFn path content w1) as [w2 [u|e]]; reflexivity.
Qed.

End UpdateApplied.

End Engine.

(** * The properties on concrete inputs *)

(** C1: the file has the line in guillemets first and the quoted line second;
    the context block, the quoted line, occurs at line 1, and the matcher
    returns line 0, where the file differs from the context block. *)
Lemma find_context_occurrence_counterexample :
  occurs_at [guillemet_line; quoted_line] [quoted_line] 1 /\
  find_context nfc_latin [guillemet_line; quoted_line] [quoted_line] 0 false
  = (0, 0) /\
  ~ occurs_at [guillemet_line; quoted_line] [quoted_line] 0.
Proof.
  split; [|split].
  - split; [lia|reflexivity].
  - reflexivity.
  - intros [_ H]. discriminate H.
Qed.

(** C1: a context line found at the second tier. *)
Lemma find_context_tiers_witness :
  find_context nfc_latin [str "a"; str "b "] [str "b"] 0 false = (1, 1).
Proof.
  apply (proj1 (proj2 (find_context_tiers nfc_latin [str "a"; str "b "]
                         [str "b"] 0 ltac:(discriminate)))).
  - intros k Hk. change (len [str "a"; str "b "]) with 2 in Hk.
    assert (E : k = 0 \/ k = 1) by lia. destruct E as [-> | ->]; reflexivity.
  - split; [|split].
    + change (len [str "a"; str "b "]) with 2. lia.
    + reflexivity.
    + intros k Hk. assert (E : k = 0) by lia. subst k. reflexivity.
Defined.

(** C2: a context that matches line 0 only, under the end-of-file anchor:
    nothing is found at the tail, line 1, and the search from line 0 finds
    line 0. *)
Lemma find_context_eof_anchor_witness :
  find_context nfc_latin [str "a"; str "b"] [str "a"] 0 true = (0, 10000).
Proof.
  assert (Hne : [str "a"] <> []) by discriminate.
  destruct (find_context_eof_anchor nfc_latin [str "a"; str "b"] [str "a"] 0
              Hne) as (_ & _ & Hfall).
  destruct Hfall as [Hfind _].
  - left. repeat split; apply first_index_None; vm_compute; reflexivity.
  - apply (Hfind 0 0). left. split; [|reflexivity].
    apply first_index_Some. vm_compute. reflexivity.
Defined.

(** C3: deleting [two] from the three lines. *)
Lemma get_updated_file_spec_witness :
  _get_updated_file three_lines
    (mkPatchAction UPDATE None [mkChunk 1 [str "two"] []] None) (str "a.txt")
  = Ok (str "one
three").
Proof.
  apply (proj2 (get_updated_file_spec three_lines
                  (mkPatchAction UPDATE None [mkChunk 1 [str "two"] []] None)
                  (str "a.txt") eq_refl)).
  simpl. unfold len. simpl. lia.
Defined.

(** C4: the first hunk is anchored at the end of the file and deletes [y];
    the second adds [w] after it. *)
Lemma update_chunks_ordered_witness :
  chunks_monotone [mkChunk 1 [str "y"] []; mkChunk 2 [] [str "w"]].
Proof.
  refine (proj1 (update_chunks_ordered nfc_latin 5 eof_first_patch
                   [(str "f", two_lines)]
                   (mkPatch
                      [(str "f",
                        mkPatchAction UPDATE None
                          [mkChunk 1 [str "y"] []; mkChunk 2 [] [str "w"]]
                          None)]) 0 _ (str "f")
                   (mkPatchAction UPDATE None
                      [mkChunk 1 [str "y"] []; mkChunk 2 [] [str "w"]] None)
                   _ _) _).
  - vm_compute. reflexivity.
  - simpl. left. reflexivity.
  - reflexivity.
  - vm_compute. repeat constructor.
Defined.

(** C4: the second hunk is anchored at the end of the file; it is found at
    the tail of the file, line 0, before the chunk of the first hunk, and
    [_get_updated_file] throws on the action. *)
Lemma update_chunks_eof_counterexample :
  text_to_patch nfc_latin 4 eof_anchored_patch [(str "f", two_lines)]
  = Ok (mkPatch
          [(str "f",
            mkPatchAction UPDATE None
              [mkChunk 1 [str "y"] []; mkChunk 0 [] [str "w"]] None)], 0) /\
  update_hunks (split_nl (trim eof_anchored_patch)) (str "f")
  = [([str " x"; str "-y"], false); ([str "+w"; str " x"; str " y"], true)] /\
  ~ chunks_monotone [mkChunk 1 [str "y"] []; mkChunk 0 [] [str "w"]] /\
  _get_updated_file two_lines
    (mkPatchAction UPDATE None
       [mkChunk 1 [str "y"] []; mkChunk 0 [] [str "w"]] None) (str "f")
  = Throw (DiffError (str "f: orig_index 2 > chunk.orig_index 0")).
Proof.
  split; [vm_compute; reflexivity|].
  split; [vm_compute; reflexivity|].
  split; [|vm_compute; reflexivity].
  intros H.
  destruct (H 0%nat 1%nat (mkChunk 1 [str "y"] []) (mkChunk 0 [] [str "w"]))
    as [H1 _]; [lia|reflexivity|reflexivity|]. simpl in H1. lia.
Qed.

(** C5: the first line has text after the begin-patch marker and the patch
    is read. *)
Lemma text_to_patch_prefix_counterexample :
  nth 0 (split_nl (trim patch_with_suffixed_marker)) []
  <> str "*** Begin Patch" /\
  text_to_patch nfc_latin 1 patch_with_suffixed_marker []
  = Ok (mkPatch [], 0).
Proof. split; [discriminate|reflexivity]. Qed.

(** C7: not found under the end-of-file anchor, fuzz 10000; and the index -1
    reached as a match by a negative start offset, fuzz 1. *)
Lemma find_context_not_found_counterexample :
  find_context nfc_latin [str "a"] [str "b"] 0 true = (-1, 10000) /\
  find_context nfc_latin [str "a
b "] [str "a"; str "b"] (-1) false = (-1, 1).
Proof. split; reflexivity. Qed.

Lemma find_context_not_found_fuzz_witness :
  snd (find_context nfc_latin [str "a"] [str "b"] 0 true) = 10000.
Proof.
  apply (find_context_not_found_fuzz nfc_latin [str "a"] [str "b"] 0 true).
  - lia.
  - reflexivity.
Defined.

(** C8: the empty context under the end-of-file anchor matches at the length
    of the file, not at [start]. *)
Lemma find_context_empty_eof_counterexample :
  find_context nfc_latin [str "a"] [] 0 true = (1, 0) /\
  (1, 0) <> (0, 0).
Proof. split; [reflexivity|discriminate]. Qed.

(** C9: canonicalizing twice, and the line in guillemets against the same
    line in straight quotes. *)
Lemma canon_idempotent_equiv_witness :
  canon nfc_latin (canon nfc_latin guillemet_line)
  = canon nfc_latin guillemet_line /\
  canon nfc_latin guillemet_line = canon nfc_latin quoted_line.
Proof.
  destruct (canon_idempotent_equiv nfc_latin (fun s => eq_refl)
              (fun s => eq_refl)) as [Hidem Hvar].
  split; [apply Hidem|]. apply Hvar.
  apply Forall2_cons; [|apply Forall2_cons; [|apply Forall2_cons]].
  - right. exists 0x22%N. split; [simpl; tauto|].
    unfold in_class. split; [right|left]; reflexivity.
  - left. reflexivity.
  - right. exists 0x22%N. split; [simpl; tauto|].
    unfold in_class. split; [right|left]; reflexivity.
  - apply Forall2_nil.
Defined.

(** C6: after the Update header, the line [*** Move to: g] of the grammar is
    an invalid line, in a patch that is read with success without it. *)
Lemma move_to_header_counterexample :
  text_to_patch nfc_latin 3 delete_y_patch [(str "f", two_lines)]
  = Ok (mkPatch
          [(str "f",
            mkPatchAction UPDATE None [mkChunk 1 [str "y"] []] None)], 0) /\
  text_to_patch nfc_latin 3 move_to_patch [(str "f", two_lines)]
  = Throw (DiffError (str "Invalid Line: *** Move to: g")).
Proof. split; reflexivity. Qed.

(** C6: the line [*** Move File to: g] after the Update header of [f]. *)
Lemma move_header_recorded_witness :
  text_to_patch nfc_latin 3 move_file_to_patch [(str "f", two_lines)]
  = Ok (mkPatch
          [(str "f",
            mkPatchAction UPDATE None [mkChunk 1 [str "y"] []]
              (Some (str "g")))], 0).
Proof.
  destruct (move_header_recorded nfc_latin
              [str "*** Begin Patch"] [str " x"; str "-y"; str "*** End Patch"]
              (str "f") (str "g")
              ltac:(discriminate) ltac:(discriminate)
              ltac:(repeat constructor) ltac:(reflexivity)
              3%nat delete_y_patch move_file_to_patch [(str "f", two_lines)]
              (mkPatch
                 [(str "f",
                   mkPatchAction UPDATE None [mkChunk 1 [str "y"] []] None)])
              0 ltac:(reflexivity) ltac:(reflexivity) ltac:(reflexivity))
    as (action & _ & _ & _ & Hres & _).
  exact Hres.
Defined.

(** X1: a stuck line after the Update header: the parse does not return. *)
Lemma text_to_patch_stuck_witness :
  text_to_patch nfc_latin 1000 stuck_patch [(str "f", two_lines)]
  = OutOfFuel.
Proof.
  apply (text_to_patch_stuck nfc_latin stuck_patch [(str "f", two_lines)]
           (str "*** Begin Patch") (str "f") (str "@@x")
           [str "*** End Patch"]).
  - vm_compute. reflexivity.
  - vm_compute. reflexivity.
  - vm_compute. reflexivity.
  - discriminate.
  - vm_compute. reflexivity.
  - vm_compute. reflexivity.
  - left. split; [|split]; [vm_compute; reflexivity|vm_compute; reflexivity|].
    discriminate.
Defined.

(** X2: no line of the patch that deletes [two] is stuck: the parse returns,
    with fuel 6. *)
Lemma text_to_patch_terminates_witness :
  text_to_patch nfc_latin 6 delete_two_patch [(str "a.txt", three_lines)]
  <> OutOfFuel.
Proof.
  destruct (text_to_patch_terminates nfc_latin delete_two_patch
              [(str "a.txt", three_lines)]) as (r & Hne & Hall).
  - vm_compute.
    repeat (apply Forall_cons;
            [intros [(H1 & _)|H]; discriminate|]).
    apply Forall_nil.
  - rewrite (Hall 6%nat); [exact Hne|]. vm_compute. lia.
Defined.

(** X3: an Update action with no chunk on the three lines. *)
Lemma get_updated_file_no_chunks_witness :
  _get_updated_file three_lines (mkPatchAction UPDATE None [] None)
    (str "a.txt")
  = Ok three_lines.
Proof.
  apply (get_updated_file_no_chunks three_lines
           (mkPatchAction UPDATE None [] None) (str "a.txt"));
    reflexivity.
Defined.

(** X4: the chunk that deletes line 1 gives the same file whatever text it
    records for the line. *)
Lemma get_updated_file_ignores_deleted_text_witness :
  _get_updated_file three_lines
    (mkPatchAction UPDATE None [mkChunk 1 [str "other"] []] None)
    (str "a.txt")
  = Ok (str "one
three").
Proof.
  apply (get_updated_file_ignores_deleted_text three_lines
           (mkPatchAction UPDATE None [mkChunk 1 [str "two"] []] None)
           (mkPatchAction UPDATE None [mkChunk 1 [str "other"] []] None)).
  - reflexivity.
  - apply Forall2_cons; [|apply Forall2_nil]. repeat split.
  - vm_compute. reflexivity.
Defined.

(** X7: the hunk of the patch that deletes [two]. *)
Lemma peek_next_section_chunks_witness :
  Forall (chunk_deletes [str "one"; str "two"; str "three"])
    [mkChunk 1 [str "two"] []] /\
  (2 <= 5)%nat /\
  ((2 <= length (split_nl (trim delete_two_patch)))%nat ->
   (5 <= length (split_nl (trim delete_two_patch)))%nat).
Proof.
  apply (peek_next_section_chunks (split_nl (trim delete_two_patch)) 2
           [str "one"; str "two"; str "three"] [mkChunk 1 [str "two"] []]
           5 false).
  vm_compute. reflexivity.
Defined.

(** X8: the line [two] found with a trailing space: fuzz 1. *)
Lemma text_to_patch_fuzz_nonneg_witness :
  text_to_patch nfc_latin 3 delete_two_patch
    [(str "a.txt", three_lines_spaced)]
  = Ok (mkPatch
          [(str "a.txt",
            mkPatchAction UPDATE None [mkChunk 1 [str "two"] []] None)], 1)
  /\ 0 <= 1.
Proof.
  assert (H : text_to_patch nfc_latin 3 delete_two_patch
                [(str "a.txt", three_lines_spaced)]
              = Ok (mkPatch
                      [(str "a.txt",
                        mkPatchAction UPDATE None [mkChunk 1 [str "two"] []]
                          None)], 1))
    by (vm_compute; reflexivity).
  split; [exact H|].
  exact (text_to_patch_fuzz_nonneg nfc_latin 3 delete_two_patch _ _ _ H).
Defined.

(** X9: the chunk that deletes [two] lies within the three lines. *)
Lemma parsed_chunks_in_file_witness :
  exists old,
    own_get [(str "a.txt", three_lines)] (str "a.txt") = Some old /\
    Forall (chunk_in_file (len (split_nl old))) [mkChunk 1 [str "two"] []].
Proof.
  apply (parsed_chunks_in_file nfc_latin (fun s => eq_refl) 3
           delete_two_patch [(str "a.txt", three_lines)]
           (mkPatch [(str "a.txt",
                      mkPatchAction UPDATE None [mkChunk 1 [str "two"] []]
                        None)]) 0
           ltac:(vm_compute; reflexivity) (str "a.txt")
           (mkPatchAction UPDATE None [mkChunk 1 [str "two"] []] None)).
  - left. reflexivity.
  - reflexivity.
Defined.

(** X10: the patch that deletes [two], read against the three lines, is turned
    into a commit. *)
Lemma parsed_patch_commits_witness :
  exists commit,
    patch_to_commit
      (mkPatch [(str "a.txt",
                 mkPatchAction UPDATE None [mkChunk 1 [str "two"] []] None)])
      [(str "a.txt", three_lines)]
    = Ok commit.
Proof.
  apply (parsed_patch_commits nfc_latin (fun s => eq_refl) 3
           delete_two_patch [(str "a.txt", three_lines)] _ 0).
  - vm_compute. repeat constructor; discriminate.
  - vm_compute. reflexivity.
Defined.

(** X11: the file is loaded and the context is not in it: the error is that of
    the context. *)
Lemma loaded_files_never_missing_witness :
  missing_file_message (str "Invalid Context 0:
nope") = false.
Proof.
  apply (loaded_files_never_missing nfc_latin (list FileOp) open_three
           bad_context_patch [] [] [(str "a.txt", three_lines)] 3).
  - vm_compute. reflexivity.
  - vm_compute. reflexivity.
Defined.

(** X12: a file named [constructor] cannot be added. *)
Lemma prototype_path_rejected_witness :
  text_to_patch nfc_latin 1 add_constructor_patch []
  = Throw (DiffError (str "Add File Error: Duplicate Path: constructor")).
Proof.
  apply (prototype_path_rejected nfc_latin add_constructor_patch []
           (str "*** Begin Patch")
           ADD_FILE_PREFIX (str "Add File Error: Duplicate Path: ")
           (str "constructor") [str "+x"; str "*** End Patch"] 0).
  - right. right. left. reflexivity.
  - vm_compute. reflexivity.
  - vm_compute. reflexivity.
  - vm_compute. reflexivity.
  - vm_compute. reflexivity.
Defined.

(** X13: the file [new.txt] of two lines is written, and nothing else is
    done. *)
Lemma process_patch_add_file_witness :
  process_patch nfc_latin (list FileOp) open_three write_logged remove_logged
    2 add_file_patch []
  = ([Written (str "new.txt") (str "hello
world")], Ok (str "Done!")).
Proof.
  apply (process_patch_add_file nfc_latin (list FileOp) open_three
           write_logged remove_logged add_file_patch (str "new.txt")
           [str "hello"; str "world"] 0 []).
  - vm_compute. reflexivity.
  - vm_compute. reflexivity.
  - discriminate.
  - vm_compute. reflexivity.
Defined.

(** X14: the file [old.txt] is removed, and nothing is written. *)
Lemma process_patch_delete_file_witness :
  process_patch nfc_latin (list FileOp) open_three write_logged remove_logged
    2 delete_file_patch []
  = ([Removed (str "old.txt")], Ok (str "Done!")).
Proof.
  apply (process_patch_delete_file nfc_latin (list FileOp) open_three
           write_logged remove_logged delete_file_patch (str "old.txt") 0 []).
  - vm_compute. reflexivity.
  - vm_compute. reflexivity.
  - discriminate.
  - vm_compute. reflexivity.
Defined.

(** X15: the path of the patch that deletes [two] is among the files needed. *)
Lemma parsed_paths_identified_witness :
  In (str "a.txt") (identify_files_needed delete_two_patch).
Proof.
  apply (parsed_paths_identified nfc_latin 3 delete_two_patch
           [(str "a.txt", three_lines)]
           (mkPatch [(str "a.txt",
                      mkPatchAction UPDATE None [mkChunk 1 [str "two"] []]
                        None)]) 0
           ltac:(vm_compute; reflexivity) (str "a.txt")
           (mkPatchAction UPDATE None [mkChunk 1 [str "two"] []] None)).
  left. reflexivity.
Defined.

(** X16: the error of the patch whose context is not in the file. *)
Lemma text_to_patch_errors_witness :
  parser_error (DiffError (str "Invalid Context 0:
nope")).
Proof.
  apply (text_to_patch_errors nfc_latin 3 bad_context_patch
           [(str "a.txt", three_lines)]).
  vm_compute. reflexivity.
Defined.

(** X17: the hunk of the patch that deletes [two], on any file. *)
Lemma peek_next_section_applies_witness :
  exists body rest,
    skipn 2 (split_nl (trim delete_two_patch)) = body ++ rest /\
    5%nat = (2 + length body + 0)%nat /\
    [str "one"; str "two"; str "three"] = hunk_old body /\
    hunk_apply (map classify body) [str "one"; str "two"; str "three"]
    = hunk_new body /\
    forall path pre w,
    (length [str "one"; str "two"; str "three"] <= length w)%nat ->
    exists destLines origIndex,
      apply_chunks path (pre ++ w)
        (map (shift_chunk (len pre)) [mkChunk 1 [str "two"] []]) [] 0
      = Ok (destLines, origIndex) /\
      destLines ++ slice_from (pre ++ w) origIndex
      = pre ++ hunk_apply (map classify body) w
        ++ skipn (length [str "one"; str "two"; str "three"]) w.
Proof.
  apply (peek_next_section_applies (split_nl (trim delete_two_patch)) 2
           [str "one"; str "two"; str "three"] [mkChunk 1 [str "two"] []]
           5 false).
  vm_compute. reflexivity.
Defined.

(** X18: the hunk anchored at the end of the two lines deletes [y], the
    second adds [w]. *)
Lemma parsed_update_applies_witness :
  _get_updated_file two_lines
    (mkPatchAction UPDATE None
       [mkChunk 1 [str "y"] []; mkChunk 2 [] [str "w"]] None) (str "f")
  = Ok (str "x
w").
Proof.
  destruct (parsed_update_applies nfc_latin (fun s => eq_refl) 5
              eof_first_patch [(str "f", two_lines)]
              (mkPatch
                 [(str "f",
                   mkPatchAction UPDATE None
                     [mkChunk 1 [str "y"] []; mkChunk 2 [] [str "w"]] None)])
              0 ltac:(vm_compute; reflexivity) (str "f")
              (mkPatchAction UPDATE None
                 [mkChunk 1 [str "y"] []; mkChunk 2 [] [str "w"]] None)
              ltac:(simpl; left; reflexivity) ltac:(reflexivity)
              ltac:(vm_compute; repeat constructor))
    as (old & Hown & Hget).
  assert (E : Some two_lines = Some old) by exact Hown.
  assert (old = two_lines) as -> by congruence.
  etransitivity; [exact Hget|]. vm_compute. reflexivity.
Defined.

(** X19: the file [f] with [y] deleted is written to [g], then [f] is
    removed. *)
Lemma process_patch_update_file_witness :
  process_patch nfc_latin (list FileOp) open_two write_logged remove_logged
    3 move_file_to_patch []
  = ([Removed (str "f"); Written (str "g") (str "x")], Ok (str "Done!")).
Proof.
  etransitivity.
  - apply (process_patch_update_file nfc_latin (fun s => eq_refl)
             (list FileOp) open_two write_logged remove_logged 3
             move_file_to_patch (str "f") two_lines
             (mkPatchAction UPDATE None [mkChunk 1 [str "y"] []]
                (Some (str "g"))) 0 [] []).
    + vm_compute. reflexivity.
    + vm_compute. repeat constructor.
    + vm_compute. reflexivity.
    + vm_compute. reflexivity.
    + reflexivity.
    + vm_compute. reflexivity.
    + reflexivity.
  - vm_compute. reflexivity.
Defined.
